(** * BeamSocket: the reconnecting chat socket of beam-client-node

    A shallow embedding of [src/ws/BeamSocket.ts].  The class is a
    single-threaded event-driven object: every public method, every
    transport callback and every timer callback runs to completion as one
    task, and promise reactions run as microtasks between tasks.  The
    embedding follows that shape:

    - the instance fields are a record [BeamSocket];
    - each method is a function in a small state-and-exception monad [M];
    - promises are defunctionalised: the promise returned by [call] is the
      entry of the call's id in [calls], a reaction is a [job] in the
      microtask queue [jobs];
    - [setTimeout]/[clearTimeout] act on the timer table [timers];
    - everything the object does to the outside world ([emit], transport
      [send]/[close]/[ping], the settlement of a promise handed to the
      caller) is appended to [trace].

    Two things come from the host environment and not from the repository:
    [emit] is taken to have listeners that return normally (so an ['error']
    notification is recorded and not thrown), and [Math.random] is an input
    of the operations that draw from it.

    Receivers are modelled where the source depends on them.  [bang] is a
    function declaration nested in [unspool] whose body reads [this]; it is
    invoked as [bang()] and as [.then(bang)], both of which give it no
    receiver.  [whilstSameSocket] applies the wrapped handler to the free
    variable [self], which no declaration of the file binds; its binding is
    the field [global_self] of the environment. *)

From Stdlib Require Import ZArith QArith Qround Lia.
From stdpp Require Import base decidable option list strings gmap.

Local Open Scope string_scope.

(** ** Values, errors and wire envelopes *)

(** JS values that travel through the socket as opaque payloads. *)
Inductive any :=
| undefined
| num (n : Z)
| str (s : string).

(** Thrown values and rejection reasons. *)
Inductive error :=
| TimeoutError
| TypeError (msg : string)
| ReferenceError (msg : string)
| AuthenticationFailedError (msg : string)
| BadMessageError (msg : string)
| NoMethodHandlerError (msg : string)
| Rejection (v : any).  (* the [error] field of a reply, passed on as is *)

(** [err instanceof TimeoutError] *)
Definition instanceof_TimeoutError (e : error) : bool :=
  match e with TimeoutError => true | _ => false end.

(** Outbound envelope built by [call]. *)
Record frame := Frame {
  f_type : string;
  f_method : string;
  f_arguments : list any;
  f_id : nat
}.

(** The object obtained from [JSON.parse] on an inbound frame, seen through
    the five properties [parsePacket] reads.  A missing property is [None]
    ([undefined] for [data]). *)
Record packet := Packet {
  p_id : option nat;
  p_type : option string;
  p_event : string;
  p_data : any;
  p_error : option any
}.

(** What [JSON.parse(data)] does with the text of an inbound frame: throw,
    give [null] (the text [null]), or give a value whose properties can be
    read (primitives and arrays read as an object without properties). *)
Inductive wire :=
| NotJson (text : string)
| JsonNull
| JsonValue (p : packet).

Definition JSON_parse (data : wire) : option (option packet) :=
  match data with
  | NotJson _ => None
  | JsonNull => Some None
  | JsonValue p => Some (Some p)
  end.

(** ** Promises, timers, effects *)

Inductive slot :=
| Unsettled
| Fulfilled (v : any)
| Rejected (e : error).

Definition settled (r : slot) : bool :=
  match r with Unsettled => false | _ => true end.

Definition handle := nat.   (* identity of a transport object *)
Definition timer := nat.    (* handle returned by setTimeout *)

(** Who awaits the promise returned by [call]. *)
Inductive cont :=
| KUser                 (* handed to the caller of the public API *)
| KUnspool              (* the then/then/catch chain built in [unspool] *)
| KPing (w : handle).   (* the then/catch chain built in [ping] *)

(** Callbacks given to [setTimeout]. *)
Inductive action :=
| ABoot                     (* this.boot.bind(this) *)
| AConnClose (w : handle)   (* () => { ws.close(); } *)
| APing                     (* () => { this.ping().catch(() => {}); } *)
| ACallTimeout (id : nat)   (* the reject of timeout(delay) raced in call *)
| APongTimeout (k : nat).   (* the reject of timeout(pingTimeout) raced in ping *)

(** Payload of a notification. *)
Inductive payload :=
| PNone
| PFrame (f : frame)
| PReconnecting (interval : Z) (socket : option handle)
| PError (e : error)
| PPacket (p : option packet)
| PData (d : any).

Inductive effect :=
| Emit (name : string) (arg : payload)
| WsNew (w : handle) (address : option string)
| WsSend (w : handle) (f : frame)
| WsClose (w : handle)
| WsPing (w : handle)
| SendResolved (id : nat)             (* completion signal of a send *)
| CallSettled (id : nat) (r : slot)   (* the promise returned by call *)
| AuthResolved (v : any)              (* the promise auth returned while not connected *)
| PingSettled (r : slot).             (* the promise returned by ping *)

(** Microtasks: promise reactions waiting to run. *)
Inductive job :=
| JSendDone (id : nat)               (* the [then] callback inside call *)
| JRace (id : nat) (r : slot)        (* a racer of call's Promise.race settled *)
| JCont (k : cont) (r : slot)        (* reaction on the promise call returned *)
| JBang                              (* [.then(bang)] in unspool *)
| JAuthCatch (e : error)             (* [.catch] in unspool *)
| JProbe (k : nat) (r : slot).       (* a racer of ping's Promise.race settled *)

(** What [this] is bound to when a function runs: the socket, or something
    else ([undefined] in a plain call, or an object that is not a
    BeamSocket). *)
Inductive receiver := ThisSocket | ThisOther.

(** Options of [call]: [{ noReply?, timeout?, force? }]. *)
Record call_options := CallOptions {
  o_noReply : bool;
  o_timeout : option Z;
  o_force : bool
}.

(** [{}] *)
Definition no_options : call_options := CallOptions false None false.

Inductive Status := IDLE | CONNECTED | CLOSING | CLOSED | CONNECTING.

(** BeamSocket.IDLE = 0, CONNECTED = 1, CLOSING = 2, CLOSED = 3,
    CONNECTING = 4 *)
Definition status_code (s : Status) : Z :=
  match s with
  | IDLE => 0 | CONNECTED => 1 | CLOSING => 2 | CLOSED => 3 | CONNECTING => 4
  end.

Global Instance Status_eq_dec : EqDecision Status.
Proof. solve_decision. Defined.
Global Instance any_eq_dec : EqDecision any.
Proof. solve_decision. Defined.
Global Instance error_eq_dec : EqDecision error.
Proof. solve_decision. Defined.
Global Instance slot_eq_dec : EqDecision slot.
Proof. solve_decision. Defined.

(** An entry of [_spool]: [{ data, resolve }].  [resolve] settles the
    promise [send] returned to the call whose frame this is. *)
Record spooled := Spooled {
  sp_data : frame;
  sp_resolve : nat
}.

(** [new Reply(resolve, reject)]: the two functions settle the
    [replyPromise] of one call, named here by that call's id. *)
Record Reply := MkReply { reply_promise : nat }.

(** Bookkeeping of one [call]: its options, the state of its
    [replyPromise], and the state of the promise it returned. *)
Record pending := Pending {
  c_options : call_options;
  c_cont : cont;
  c_send : bool;          (* the promise send returned has resolved *)
  c_racing : bool;        (* the [then] callback has run: Promise.race is on *)
  c_reply : slot;         (* replyPromise *)
  c_result : slot         (* the promise returned by call *)
}.

(** Bookkeeping of one native-ping probe started by [ping]. *)
Record probe := Probe {
  pr_ws : handle;         (* the transport the probe was started on *)
  pr_listening : bool;    (* ws.once('pong', resolve) has not fired yet *)
  pr_result : slot        (* the Promise.race of the probe *)
}.

Record Options := MkOptions {
  pingInterval : Z;
  pingTimeout : Z;
  callTimeout : Z
}.

(** Object.assign({ pingInterval: 15 * 1000, pingTimeout: 5 * 1000,
    callTimeout: 20 * 1000 }, options) with no option given. *)
Definition default_options : Options := MkOptions 15000 5000 20000.

(** ** The instance

    The fields up to [wsCtor_ping] are the members of the class (of the
    constructor argument [wsCtor] only the kind of transport it builds
    matters); the rest is the part of the JS runtime the class acts on:
    the global [self], its own event listeners, its promises, its timers,
    the microtask queue, and the effects it has had. *)
Record BeamSocket := MkBeamSocket {
  _addressOffset : nat;
  _spool : list spooled;  (* events queued when the connection is lost *)
  _addresses : list string;
  ws : option handle;  (* the transport we are connected with, or null *)
  _pingTimeoutHandle : option timer;
  _retries : nat;
  _retryWrap : nat;
  _reconnectTimeout : option timer;
  _callNo : nat;
  status : Status;
  _authpacket : option (list any);
  _replies : gmap nat Reply;  (* call id to reply handler *)
  options : Options;
  wsCtor_ping : bool;  (* transports built by wsCtor have a ping method *)
  global_self : option receiver;  (* binding of the global [self], if any *)
  welcome_listeners : nat;  (* listeners added by this.once('WelcomeEvent', ...) *)
  authresult_listeners : nat;  (* listeners added by this.once('authresult', resolve) *)
  calls : gmap nat pending;  (* the promises made by call, by call id *)
  probes : list probe;  (* the races made by ping on a native transport *)
  timers : gmap timer (Z * action);  (* live setTimeout entries: delay, callback *)
  next_timer : timer;
  next_handle : handle;
  jobs : list job;  (* microtask queue, oldest first *)
  trace : list effect  (* effects on the outside world, oldest first *)
}.

(** Field updates. *)
Definition set_addressOffset (v : nat) (s : BeamSocket) : BeamSocket :=
  MkBeamSocket v (_spool s) (_addresses s) (ws s) (_pingTimeoutHandle s)
    (_retries s) (_retryWrap s) (_reconnectTimeout s) (_callNo s) (status s)
    (_authpacket s) (_replies s) (options s) (wsCtor_ping s) (global_self s)
    (welcome_listeners s) (authresult_listeners s) (calls s) (probes s)
    (timers s) (next_timer s) (next_handle s) (jobs s) (trace s).
Definition set_spool (v : list spooled) (s : BeamSocket) : BeamSocket :=
  MkBeamSocket (_addressOffset s) v (_addresses s) (ws s) (_pingTimeoutHandle
    s) (_retries s) (_retryWrap s) (_reconnectTimeout s) (_callNo s) (status
    s) (_authpacket s) (_replies s) (options s) (wsCtor_ping s) (global_self
    s) (welcome_listeners s) (authresult_listeners s) (calls s) (probes s)
    (timers s) (next_timer s) (next_handle s) (jobs s) (trace s).
Definition set_ws (v : option handle) (s : BeamSocket) : BeamSocket :=
  MkBeamSocket (_addressOffset s) (_spool s) (_addresses s) v
    (_pingTimeoutHandle s) (_retries s) (_retryWrap s) (_reconnectTimeout s)
    (_callNo s) (status s) (_authpacket s) (_replies s) (options s)
    (wsCtor_ping s) (global_self s) (welcome_listeners s)
    (authresult_listeners s) (calls s) (probes s) (timers s) (next_timer s)
    (next_handle s) (jobs s) (trace s).
Definition set_pingTimeoutHandle (v : option timer) (s : BeamSocket) : BeamSocket :=
  MkBeamSocket (_addressOffset s) (_spool s) (_addresses s) (ws s) v (_retries
    s) (_retryWrap s) (_reconnectTimeout s) (_callNo s) (status s)
    (_authpacket s) (_replies s) (options s) (wsCtor_ping s) (global_self s)
    (welcome_listeners s) (authresult_listeners s) (calls s) (probes s)
    (timers s) (next_timer s) (next_handle s) (jobs s) (trace s).
Definition set_retries (v : nat) (s : BeamSocket) : BeamSocket :=
  MkBeamSocket (_addressOffset s) (_spool s) (_addresses s) (ws s)
    (_pingTimeoutHandle s) v (_retryWrap s) (_reconnectTimeout s) (_callNo s)
    (status s) (_authpacket s) (_replies s) (options s) (wsCtor_ping s)
    (global_self s) (welcome_listeners s) (authresult_listeners s) (calls s)
    (probes s) (timers s) (next_timer s) (next_handle s) (jobs s) (trace s).
Definition set_reconnectTimeout (v : option timer) (s : BeamSocket) : BeamSocket :=
  MkBeamSocket (_addressOffset s) (_spool s) (_addresses s) (ws s)
    (_pingTimeoutHandle s) (_retries s) (_retryWrap s) v (_callNo s) (status
    s) (_authpacket s) (_replies s) (options s) (wsCtor_ping s) (global_self
    s) (welcome_listeners s) (authresult_listeners s) (calls s) (probes s)
    (timers s) (next_timer s) (next_handle s) (jobs s) (trace s).
Definition set_callNo (v : nat) (s : BeamSocket) : BeamSocket :=
  MkBeamSocket (_addressOffset s) (_spool s) (_addresses s) (ws s)
    (_pingTimeoutHandle s) (_retries s) (_retryWrap s) (_reconnectTimeout s) v
    (status s) (_authpacket s) (_replies s) (options s) (wsCtor_ping s)
    (global_self s) (welcome_listeners s) (authresult_listeners s) (calls s)
    (probes s) (timers s) (next_timer s) (next_handle s) (jobs s) (trace s).
Definition set_status (v : Status) (s : BeamSocket) : BeamSocket :=
  MkBeamSocket (_addressOffset s) (_spool s) (_addresses s) (ws s)
    (_pingTimeoutHandle s) (_retries s) (_retryWrap s) (_reconnectTimeout s)
    (_callNo s) v (_authpacket s) (_replies s) (options s) (wsCtor_ping s)
    (global_self s) (welcome_listeners s) (authresult_listeners s) (calls s)
    (probes s) (timers s) (next_timer s) (next_handle s) (jobs s) (trace s).
Definition set_authpacket (v : option (list any)) (s : BeamSocket) : BeamSocket :=
  MkBeamSocket (_addressOffset s) (_spool s) (_addresses s) (ws s)
    (_pingTimeoutHandle s) (_retries s) (_retryWrap s) (_reconnectTimeout s)
    (_callNo s) (status s) v (_replies s) (options s) (wsCtor_ping s)
    (global_self s) (welcome_listeners s) (authresult_listeners s) (calls s)
    (probes s) (timers s) (next_timer s) (next_handle s) (jobs s) (trace s).
Definition set_replies (v : gmap nat Reply) (s : BeamSocket) : BeamSocket :=
  MkBeamSocket (_addressOffset s) (_spool s) (_addresses s) (ws s)
    (_pingTimeoutHandle s) (_retries s) (_retryWrap s) (_reconnectTimeout s)
    (_callNo s) (status s) (_authpacket s) v (options s) (wsCtor_ping s)
    (global_self s) (welcome_listeners s) (authresult_listeners s) (calls s)
    (probes s) (timers s) (next_timer s) (next_handle s) (jobs s) (trace s).
Definition set_welcome_listeners (v : nat) (s : BeamSocket) : BeamSocket :=
  MkBeamSocket (_addressOffset s) (_spool s) (_addresses s) (ws s)
    (_pingTimeoutHandle s) (_retries s) (_retryWrap s) (_reconnectTimeout s)
    (_callNo s) (status s) (_authpacket s) (_replies s) (options s)
    (wsCtor_ping s) (global_self s) v (authresult_listeners s) (calls s)
    (probes s) (timers s) (next_timer s) (next_handle s) (jobs s) (trace s).
Definition set_authresult_listeners (v : nat) (s : BeamSocket) : BeamSocket :=
  MkBeamSocket (_addressOffset s) (_spool s) (_addresses s) (ws s)
    (_pingTimeoutHandle s) (_retries s) (_retryWrap s) (_reconnectTimeout s)
    (_callNo s) (status s) (_authpacket s) (_replies s) (options s)
    (wsCtor_ping s) (global_self s) (welcome_listeners s) v (calls s) (probes
    s) (timers s) (next_timer s) (next_handle s) (jobs s) (trace s).
Definition set_calls (v : gmap nat pending) (s : BeamSocket) : BeamSocket :=
  MkBeamSocket (_addressOffset s) (_spool s) (_addresses s) (ws s)
    (_pingTimeoutHandle s) (_retries s) (_retryWrap s) (_reconnectTimeout s)
    (_callNo s) (status s) (_authpacket s) (_replies s) (options s)
    (wsCtor_ping s) (global_self s) (welcome_listeners s)
    (authresult_listeners s) v (probes s) (timers s) (next_timer s)
    (next_handle s) (jobs s) (trace s).
Definition set_probes (v : list probe) (s : BeamSocket) : BeamSocket :=
  MkBeamSocket (_addressOffset s) (_spool s) (_addresses s) (ws s)
    (_pingTimeoutHandle s) (_retries s) (_retryWrap s) (_reconnectTimeout s)
    (_callNo s) (status s) (_authpacket s) (_replies s) (options s)
    (wsCtor_ping s) (global_self s) (welcome_listeners s)
    (authresult_listeners s) (calls s) v (timers s) (next_timer s)
    (next_handle s) (jobs s) (trace s).
Definition set_timers (v : gmap timer (Z * action)) (s : BeamSocket) : BeamSocket :=
  MkBeamSocket (_addressOffset s) (_spool s) (_addresses s) (ws s)
    (_pingTimeoutHandle s) (_retries s) (_retryWrap s) (_reconnectTimeout s)
    (_callNo s) (status s) (_authpacket s) (_replies s) (options s)
    (wsCtor_ping s) (global_self s) (welcome_listeners s)
    (authresult_listeners s) (calls s) (probes s) v (next_timer s)
    (next_handle s) (jobs s) (trace s).
Definition set_next_timer (v : timer) (s : BeamSocket) : BeamSocket :=
  MkBeamSocket (_addressOffset s) (_spool s) (_addresses s) (ws s)
    (_pingTimeoutHandle s) (_retries s) (_retryWrap s) (_reconnectTimeout s)
    (_callNo s) (status s) (_authpacket s) (_replies s) (options s)
    (wsCtor_ping s) (global_self s) (welcome_listeners s)
    (authresult_listeners s) (calls s) (probes s) (timers s) v (next_handle s)
    (jobs s) (trace s).
Definition set_next_handle (v : handle) (s : BeamSocket) : BeamSocket :=
  MkBeamSocket (_addressOffset s) (_spool s) (_addresses s) (ws s)
    (_pingTimeoutHandle s) (_retries s) (_retryWrap s) (_reconnectTimeout s)
    (_callNo s) (status s) (_authpacket s) (_replies s) (options s)
    (wsCtor_ping s) (global_self s) (welcome_listeners s)
    (authresult_listeners s) (calls s) (probes s) (timers s) (next_timer s) v
    (jobs s) (trace s).
Definition set_jobs (v : list job) (s : BeamSocket) : BeamSocket :=
  MkBeamSocket (_addressOffset s) (_spool s) (_addresses s) (ws s)
    (_pingTimeoutHandle s) (_retries s) (_retryWrap s) (_reconnectTimeout s)
    (_callNo s) (status s) (_authpacket s) (_replies s) (options s)
    (wsCtor_ping s) (global_self s) (welcome_listeners s)
    (authresult_listeners s) (calls s) (probes s) (timers s) (next_timer s)
    (next_handle s) v (trace s).
Definition set_trace (v : list effect) (s : BeamSocket) : BeamSocket :=
  MkBeamSocket (_addressOffset s) (_spool s) (_addresses s) (ws s)
    (_pingTimeoutHandle s) (_retries s) (_retryWrap s) (_reconnectTimeout s)
    (_callNo s) (status s) (_authpacket s) (_replies s) (options s)
    (wsCtor_ping s) (global_self s) (welcome_listeners s)
    (authresult_listeners s) (calls s) (probes s) (timers s) (next_timer s)
    (next_handle s) (jobs s) v.

(** ** State and exceptions *)

Inductive result (A : Type) :=
| Ok (a : A) (s : BeamSocket)
| Throw (e : error) (s : BeamSocket).
Arguments Ok {A} a s.
Arguments Throw {A} e s.

Definition M (A : Type) : Type := BeamSocket -> result A.

Definition ret {A} (a : A) : M A := fun s => Ok a s.
Definition throw {A} (e : error) : M A := fun s => Throw e s.
Definition bind {A B} (m : M A) (k : A -> M B) : M B := fun s =>
  match m s with
  | Ok a s' => k a s'
  | Throw e s' => Throw e s'
  end.
Definition get {A} (f : BeamSocket -> A) : M A := fun s => Ok (f s) s.
Definition modify (f : BeamSocket -> BeamSocket) : M unit := fun s => Ok tt (f s).
(** try { m } catch (e) { h e } *)
Definition try_catch {A} (m : M A) (h : error -> M A) : M A := fun s =>
  match m s with
  | Ok a s' => Ok a s'
  | Throw e s' => h e s'
  end.

Arguments ret {A} a s /.
Arguments throw {A} e s /.
Arguments get {A} f s /.
Arguments modify f s /.
Arguments bind {A B} m k s /.
Arguments try_catch {A} m h s /.

Notation "x <- m ;; k" := (bind m (fun x => k))
  (at level 100, m at next level, right associativity).
Notation "m ;;; k" := (bind m (fun _ => k))
  (at level 100, right associativity).

(** The state a task ends in, whether it returned or threw. *)
Definition state_of {A} (r : result A) : BeamSocket :=
  match r with Ok _ s => s | Throw _ s => s end.

Definition throws {A} (r : result A) : bool :=
  match r with Ok _ _ => false | Throw _ _ => true end.

(** ** Runtime primitives *)

Definition effect_ (e : effect) : M unit :=
  modify (fun s => set_trace (trace s ++ [e]) s).

Definition enqueue (j : job) : M unit :=
  modify (fun s => set_jobs (jobs s ++ [j]) s).

(** setTimeout(callback, delay) *)
Definition setTimeout (a : action) (delay : Z) : M (option timer) := fun s =>
  let h := next_timer s in
  Ok (Some h) (set_next_timer (S h) (set_timers (<[h := (delay, a)]> (timers s)) s)).

(** clearTimeout(handle); clearing [null] or a dead handle does nothing. *)
Definition clearTimeout (h : option timer) : M unit :=
  match h with
  | Some t => modify (fun s => set_timers (delete t (timers s)) s)
  | None => ret tt
  end.

(** this.emit(name, arg) for a name the class itself never listens to. *)
Definition notify (name : string) (arg : payload) : M unit :=
  effect_ (Emit name arg).

(** Math.round(r) for a draw r of Math.random() *)
Definition Math_round (r : Q) : Z := Qfloor (r + (1 # 2))%Q.

(** Math.floor(r * n) *)
Definition Math_floor_times (r : Q) (n : nat) : Z :=
  Qfloor (r * inject_Z (Z.of_nat n))%Q.

(** ToInt32 *)
Definition to_int32 (z : Z) : Z :=
  ((z + 2 ^ 31) mod 2 ^ 32 - 2 ^ 31)%Z.

(** 1 << power: the shift count is taken modulo 32 and the result is a
    signed 32-bit integer. *)
Definition shl1 (power : Z) : Z :=
  to_int32 (Z.shiftl 1 (power mod 32)).

(** ** The class *)

(** The method of the authentication packet to store. *)
Definition authMethod : string := "auth".

(** constructor(wsCtor, addresses, options), given the draw [r] of
    Math.random(). *)
Definition constructor (wsCtor_has_ping : bool) (addresses : list string)
    (opts : Options) (env_self : option receiver) (r : Q) : BeamSocket :=
  {| _addressOffset := Z.to_nat (Math_floor_times r (length addresses));
     _spool := [];
     _addresses := addresses;
     ws := None;
     _pingTimeoutHandle := None;
     _retries := 0;
     _retryWrap := 7;
     _reconnectTimeout := None;
     _callNo := 0;
     status := IDLE;
     _authpacket := None;
     _replies := ∅;
     options := opts;
     wsCtor_ping := wsCtor_has_ping;
     global_self := env_self;
     welcome_listeners := 0;
     authresult_listeners := 0;
     calls := ∅;
     probes := [];
     timers := ∅;
     next_timer := 0;
     next_handle := 0;
     jobs := [];
     trace := [] |}.

Definition getStatus : M Status := get status.

Definition isConnected : M bool :=
  st <- get status ;; ret (bool_decide (st = CONNECTED)).

(** Retrieves a chat endpoint to connect to (round-robin). *)
Definition getAddress : M (option string) :=
  off <- get _addressOffset ;;
  addrs <- get _addresses ;;
  let off1 := S off in
  let off2 := if decide (length addrs <= off1) then 0 else off1 in
  modify (set_addressOffset off2) ;;;
  ret (addrs !! off2).

(** How long to wait before attempting to reconnect; [r] is the draw of
    Math.random(). *)
Definition _getNextReconnectInterval (r : Q) : M Z :=
  retries <- get _retries ;;
  wrap <- get _retryWrap ;;
  modify (set_retries (S retries)) ;;;
  let power := (Z.of_nat (retries mod wrap) + Math_round r)%Z in
  ret (shl1 power * 500)%Z.

(** _handleClose is called when the websocket closes or emits an error.
    If we weren't gracefully closed, we'll try to reconnect. *)
Definition _handleClose (r : Q) : M unit :=
  h <- get _pingTimeoutHandle ;;
  clearTimeout h ;;;
  modify (set_pingTimeoutHandle None) ;;;
  modify (set_ws None) ;;;
  modify (set_welcome_listeners 0) ;;;   (* removeAllListeners('WelcomeEvent') *)
  st <- get status ;;
  if decide (st = CLOSING) then
    modify (set_status CLOSED) ;;;
    notify "closed" PNone
  else
    interval <- _getNextReconnectInterval r ;;
    modify (set_status CONNECTING) ;;;
    t <- setTimeout ABoot interval ;;
    modify (set_reconnectTimeout t) ;;;
    w <- get ws ;;
    notify "reconnecting" (PReconnecting interval w).

(** Sets the socket to send a ping message after an interval. *)
Definition _resetPingTimeout : M unit :=
  h <- get _pingTimeoutHandle ;;
  clearTimeout h ;;;
  o <- get options ;;
  t <- setTimeout APing (pingInterval o) ;;
  modify (set_pingTimeoutHandle t).

(** Resets the connection timeout handle. *)
Definition _resetConnectionTimeout (handler : action) : M unit :=
  h <- get _pingTimeoutHandle ;;
  clearTimeout h ;;;
  o <- get options ;;
  t <- setTimeout handler (pingTimeout o) ;;
  modify (set_pingTimeoutHandle t).

(** Sends raw packet data to the server, or spools it.  The value is
    whether the promise it returns is already resolved; otherwise the
    promise is the one the new spool entry resolves. *)
Definition send (data : frame) (force : bool) : M bool :=
  connected <- isConnected ;;
  if connected || force then
    w <- get ws ;;
    match w with
    | None => throw (TypeError "Cannot read property 'send' of null")
    | Some w =>
        effect_ (WsSend w data) ;;;
        notify "sent" (PFrame data) ;;;
        ret true
    end
  else if bool_decide (f_method data ≠ authMethod) then
    modify (fun s => set_spool (_spool s ++ [Spooled data (f_id data)]) s) ;;;
    notify "spooled" (PFrame data) ;;;
    ret false
  else
    ret true.

Definition update_call (id : nat) (f : pending -> pending) : M unit :=
  modify (fun s => set_calls (alter f id (calls s)) s).

Definition with_send (b : bool) (c : pending) : pending :=
  Pending (c_options c) (c_cont c) b (c_racing c) (c_reply c) (c_result c).
Definition with_racing (b : bool) (c : pending) : pending :=
  Pending (c_options c) (c_cont c) (c_send c) b (c_reply c) (c_result c).
Definition with_reply (r : slot) (c : pending) : pending :=
  Pending (c_options c) (c_cont c) (c_send c) (c_racing c) r (c_result c).
Definition with_result (r : slot) (c : pending) : pending :=
  Pending (c_options c) (c_cont c) (c_send c) (c_racing c) (c_reply c) r.

(** The [resolve] of the promise returned by [send] for call [id]: the
    first use resolves it and queues the [then] callback of [call]. *)
Definition resolve_send (id : nat) : M unit :=
  c <- get (fun s => calls s !! id) ;;
  match c with
  | Some c =>
      if c_send c then ret tt
      else
        update_call id (with_send true) ;;;
        effect_ (SendResolved id) ;;;
        enqueue (JSendDone id)
  | None => ret tt
  end.

(** The [resolve]/[reject] of the [replyPromise] of call [id]: the first
    use settles it, and a race that is already on reacts. *)
Definition settle_reply (id : nat) (r : slot) : M unit :=
  c <- get (fun s => calls s !! id) ;;
  match c with
  | Some c =>
      if settled (c_reply c) then ret tt
      else
        update_call id (with_reply r) ;;;
        if c_racing c then enqueue (JRace id r) else ret tt
  | None => ret tt
  end.

(** Runs a method on the socket.  The value is the id of the call, which
    names the promise returned; [k] is what the caller chains on it. *)
Definition call (method : string) (args : list any) (opts : call_options)
    (k : cont) : M nat :=
  id <- get _callNo ;;
  modify (set_callNo (S id)) ;;;
  modify (fun s => set_calls
    (<[id := Pending opts k false false Unsettled Unsettled]> (calls s)) s) ;;;
  modify (fun s => set_replies (<[id := MkReply id]> (_replies s)) s) ;;;
  sent <- send (Frame "method" method args id) (o_force opts) ;;
  (if sent : bool then resolve_send id else ret tt) ;;;
  ret id.

(** Closes the websocket gracefully. *)
Definition close : M unit :=
  w <- get ws ;;
  match w with
  | Some w =>
      effect_ (WsClose w) ;;;
      modify (set_status CLOSING)
  | None =>
      h <- get _reconnectTimeout ;;
      clearTimeout h ;;;
      modify (set_status CLOSED)
  end.

(** Modelled from the spec: [Reply.handle] of [src/ws/Reply.ts], which is
    not among the sources.  The spec has the Pending Call resolved or
    rejected per the envelope's result or error field. *)
Definition Reply_handle (r : Reply) (p : packet) : M unit :=
  match p_error p with
  | Some e => settle_reply (reply_promise r) (Rejected (Rejection e))
  | None => settle_reply (reply_promise r) (Fulfilled (p_data p))
  end.

(** The loop of [bang]: for (i = 0; i < this._spool.length; i++). *)
Fixpoint flush (l : list spooled) : M unit :=
  match l with
  | [] => ret tt
  | e :: l' =>
      send (sp_data e) true ;;;
      resolve_send (sp_resolve e) ;;;
      flush l'
  end.

(** The helper declared inside [unspool], run with receiver [this]. *)
Definition bang (this : receiver) : M unit :=
  match this with
  | ThisOther => throw (TypeError "Cannot read property '_spool' of undefined")
  | ThisSocket =>
      sp <- get _spool ;;
      flush sp ;;;
      modify (set_spool []) ;;;
      modify (set_retries 0) ;;;
      modify (set_status CONNECTED) ;;;
      notify "connected" PNone
  end.

(** Should be called on reconnection. *)
Definition unspool : M unit :=
  a <- get _authpacket ;;
  match a with
  | Some args =>
      call authMethod args (CallOptions false None true) KUnspool ;;;
      ret tt
  | None =>
      bang ThisOther   (* bang() *)
  end.

(** The listener [boot] adds with this.once('WelcomeEvent', ...), once per
    registration; EventEmitter calls a listener with the emitter as
    receiver, and a [once] listener is removed as it is called. *)
Fixpoint welcome (n : nat) : M unit :=
  match n with
  | 0 => ret tt
  | S n' =>
      modify (fun s => set_welcome_listeners (pred (welcome_listeners s)) s) ;;;
      _resetPingTimeout ;;;
      unspool ;;;
      welcome n'
  end.

(** The listeners [auth] adds with this.once('authresult', resolve). *)
Fixpoint authresult (n : nat) (v : any) : M unit :=
  match n with
  | 0 => ret tt
  | S n' =>
      modify (fun s =>
        set_authresult_listeners (pred (authresult_listeners s)) s) ;;;
      effect_ (AuthResolved v) ;;;
      authresult n' v
  end.

(** this.emit(name, arg) for any name: the notification, then the
    listeners the class itself has on that name. *)
Definition emit (name : string) (arg : any) : M unit :=
  notify name (PData arg) ;;;
  if decide (name = "WelcomeEvent") then
    n <- get welcome_listeners ;; welcome n
  else if decide (name = "authresult") then
    n <- get authresult_listeners ;; authresult n arg
  else ret tt.

(** Parses an incoming packet from the websocket; [binary] is
    [flags && flags.binary]. *)
Definition parsePacket (data : wire) (binary : bool) : M unit :=
  if binary then
    notify "error" (PError (BadMessageError "Cannot parse binary packets. Wat."))
  else
    match JSON_parse data with
    | None =>
        notify "error" (PError (BadMessageError "Unable to parse packet as json"))
    | Some pk =>
        notify "packet" (PPacket pk) ;;;
        match pk with
        | None => throw (TypeError "Cannot read property 'type' of null")
        | Some p =>
            if decide (p_type p = Some "reply") then
              replies <- get _replies ;;
              match p_id p ≫= (replies !!.) with
              | Some reply =>
                  Reply_handle reply p ;;;
                  modify (fun s =>
                    set_replies (from_option (λ i, delete i (_replies s))
                                   (_replies s) (p_id p)) s)
              | None =>
                  notify "error"
                    (PError (NoMethodHandlerError "No handler for reply ID."))
              end
            else if decide (p_type p = Some "event") then
              emit (p_event p) (p_data p)
            else
              notify "error"
                (PError (BadMessageError
                   ("Unknown packet type " +:+ default "undefined" (p_type p))))
        end
    end.

(** auth sends a packet over the socket to authenticate with a chat
    server.  The value is the id of the call whose promise is returned, or
    [None] for the promise that waits for ['authresult']. *)
Definition auth (id user : Z) (authkey : string) : M (option nat) :=
  modify (set_authpacket (Some [num id; num user; str authkey])) ;;;
  connected <- isConnected ;;
  if connected : bool then
    c <- call "auth" [num id; num user; str authkey] no_options KUser ;;
    ret (Some c)
  else
    modify (fun s =>
      set_authresult_listeners (S (authresult_listeners s)) s) ;;;
    ret None.

(** The promise [ping] returns. *)
Inductive ping_promise :=
| Settled (r : slot)       (* made already settled *)
| OfProbe (k : nat)        (* chained on the race of probe k *)
| OfCall (id : nat).       (* chained on the call of a ping method *)

(** The [.then(this._resetPingTimeout.bind(this)).catch(...)] chain of
    [ping], reacting to outcome [r] of the probe started on [w]. *)
Definition ping_chain (w : handle) (r : slot) (rnd : Q) : M unit :=
  match r with
  | Unsettled => ret tt
  | Fulfilled _ =>
      _resetPingTimeout ;;;
      effect_ (PingSettled (Fulfilled undefined))
  | Rejected err =>
      (if instanceof_TimeoutError err then
         cur <- get ws ;;
         if decide (cur = Some w) then
           notify "error" (PError err) ;;;
           effect_ (WsClose w) ;;;
           _handleClose rnd
         else ret tt
       else ret tt) ;;;
      effect_ (PingSettled (Rejected err))
  end.

(** Ping runs a ping against the server and returns a promise which is
    resolved if the server responds, or rejected on timeout. *)
Definition ping : M ping_promise :=
  w <- get ws ;;
  h <- get _pingTimeoutHandle ;;
  clearTimeout h ;;;
  connected <- isConnected ;;
  if negb connected then
    ret (Settled (Rejected TimeoutError))
  else
    match w with
    | None => throw (TypeError "Cannot read property 'ping' of null")
    | Some w =>
        native <- get wsCtor_ping ;;
        o <- get options ;;
        if native : bool then
          k <- get (fun s => length (probes s)) ;;
          setTimeout (APongTimeout k) (pingTimeout o) ;;;
          modify (fun s => set_probes (probes s ++ [Probe w true Unsettled]) s) ;;;
          effect_ (WsPing w) ;;;
          ret (OfProbe k)
        else
          id <- call "ping" [] (CallOptions false (Some (pingTimeout o)) false)
                  (KPing w) ;;
          ret (OfCall id)
    end.

(** Starts a socket client. *)
Definition boot : M unit :=
  addr <- getAddress ;;
  w <- get next_handle ;;
  modify (set_next_handle (S w)) ;;;
  effect_ (WsNew w addr) ;;;
  modify (set_ws (Some w)) ;;;
  modify (set_status CONNECTING) ;;;
  _resetConnectionTimeout (AConnClose w) ;;;
  modify (fun s => set_welcome_listeners (S (welcome_listeners s)) s).

(** ** Transport callbacks registered by [boot] on transport [w] *)

(** whilstSameSocket(fn): run [fn] with receiver [self] if [w] is still
    the transport of the socket. *)
Definition whilstSameSocket (w : handle) (fn : receiver -> M unit) : M unit :=
  cur <- get ws ;;
  if decide (cur = Some w) then
    self <- get global_self ;;
    match self with
    | None => throw (ReferenceError "self is not defined")
    | Some this => fn this
    end
  else ret tt.

(** ws.on('open', ...): an arrow function, its [this] is the socket. *)
Definition on_open (w : handle) : M unit :=
  whilstSameSocket w (fun _ => _resetConnectionTimeout (AConnClose w)).

(** ws.on('message', ...): a function expression, it uses its receiver. *)
Definition on_message (w : handle) (data : wire) (binary : bool) : M unit :=
  whilstSameSocket w (fun this =>
    match this with
    | ThisSocket => _resetPingTimeout ;;; parsePacket data binary
    | ThisOther => throw (TypeError "this._resetPingTimeout is not a function")
    end).

(** ws.on('close', ...): a function expression, it uses its receiver. *)
Definition on_close (w : handle) (rnd : Q) : M unit :=
  whilstSameSocket w (fun this =>
    match this with
    | ThisSocket => _handleClose rnd
    | ThisOther => throw (TypeError "Cannot read property 'apply' of undefined")
    end).

(** ws.on('error', ...): an arrow function. *)
Definition on_error (w : handle) (err : error) : M unit :=
  whilstSameSocket w (fun _ =>
    notify "error" (PError err) ;;;
    effect_ (WsClose w)).

(** ws.once('pong', resolve), registered by [ping] without a guard: every
    probe still listening on [w] resolves. *)
Fixpoint pong_probes (w : handle) (k : nat) (l : list probe)
    : list probe * list job :=
  match l with
  | [] => ([], [])
  | p :: l' =>
      let '(ps, js) := pong_probes w (S k) l' in
      if bool_decide (pr_ws p = w) && pr_listening p
      then (Probe (pr_ws p) false (pr_result p) :: ps,
            JProbe k (Fulfilled undefined) :: js)
      else (p :: ps, js)
  end.

Definition on_pong (w : handle) : M unit :=
  modify (fun s =>
    let '(ps, js) := pong_probes w 0 (probes s) in
    set_jobs (jobs s ++ js) (set_probes ps s)).

(** ** Promise reactions *)

(** The promise [call] returned for [id] settles with [r], unless it has
    settled before.  The [catch] of [call] sits in front of it: a
    TimeoutError deregisters the reply handler and is thrown on. *)
Definition settle_call (id : nat) (r : slot) : M unit :=
  c <- get (fun s => calls s !! id) ;;
  match c with
  | Some c =>
      if settled (c_result c) then ret tt
      else
        match r with
        | Unsettled => ret tt
        | Fulfilled _ =>
            update_call id (with_result r) ;;;
            effect_ (CallSettled id r) ;;;
            enqueue (JCont (c_cont c) r)
        | Rejected err =>
            (if instanceof_TimeoutError err
             then modify (fun s => set_replies (delete id (_replies s)) s)
             else ret tt) ;;;
            update_call id (with_result r) ;;;
            effect_ (CallSettled id r) ;;;
            enqueue (JCont (c_cont c) r)
        end
  | None => ret tt
  end.

(** options.timeout || this.options.callTimeout *)
Definition call_delay (opts : call_options) (o : Options) : Z :=
  match o_timeout opts with
  | Some t => if decide (t = 0%Z) then callTimeout o else t
  | None => callTimeout o
  end.

(** The [then] callback of [call], run once [send] has resolved. *)
Definition after_send (id : nat) : M unit :=
  c <- get (fun s => calls s !! id) ;;
  match c with
  | Some c =>
      if o_noReply (c_options c) then
        settle_call id (Fulfilled undefined)
      else
        o <- get options ;;
        setTimeout (ACallTimeout id) (call_delay (c_options c) o) ;;;
        update_call id (with_racing true) ;;;
        if settled (c_reply c) then enqueue (JRace id (c_reply c)) else ret tt
  | None => ret tt
  end.

(** The [catch] at the end of the chain in [unspool]. *)
Definition auth_failed : M unit :=
  notify "error" (PError (AuthenticationFailedError "?")) ;;;
  close.

Definition update_probe (k : nat) (r : slot) : M unit :=
  modify (fun s => set_probes
    (alter (fun p => Probe (pr_ws p) (pr_listening p) r) k (probes s)) s).

Definition run_job (j : job) (rnd : Q) : M unit :=
  match j with
  | JSendDone id => after_send id
  | JRace id r => settle_call id r
  | JCont KUser _ => ret tt
  | JCont KUnspool (Fulfilled v) =>
      emit "authresult" v ;;;    (* .then(result => this.emit('authresult', result)) *)
      enqueue JBang
  | JCont KUnspool (Rejected e) => enqueue (JAuthCatch e)
  | JCont KUnspool Unsettled => ret tt
  | JCont (KPing w) r => ping_chain w r rnd
  | JBang =>                      (* .then(bang): no receiver *)
      try_catch (bang ThisOther) (fun e => enqueue (JAuthCatch e))
  | JAuthCatch _ => auth_failed
  | JProbe k r =>
      p <- get (fun s => probes s !! k) ;;
      match p with
      | Some p =>
          if settled (pr_result p) then ret tt
          else update_probe k r ;;; ping_chain (pr_ws p) r rnd
      | None => ret tt
      end
  end.

(** A timer comes due: it leaves the table and its callback runs. *)
Definition fire (t : timer) : M unit :=
  tm <- get (fun s => timers s !! t) ;;
  match tm with
  | None => ret tt
  | Some (_, a) =>
      modify (fun s => set_timers (delete t (timers s)) s) ;;;
      match a with
      | ABoot => boot
      | AConnClose w => effect_ (WsClose w)
      | APing => ping ;;; ret tt
      | ACallTimeout id => enqueue (JRace id (Rejected TimeoutError))
      | APongTimeout k => enqueue (JProbe k (Rejected TimeoutError))
      end
  end.

(** ** Tasks: everything that can make the socket run *)

Inductive task :=
| TBoot
| TClose
| TCall (method : string) (args : list any) (opts : call_options)
| TAuth (id user : Z) (authkey : string)
| TPing
| TUnspool
| TParsePacket (data : wire) (binary : bool)
| TSend (data : frame) (force : bool)
| TGetAddress
| TOpen (w : handle)
| TMessage (w : handle) (data : wire) (binary : bool)
| TWsClose (w : handle)
| TError (w : handle) (err : error)
| TPong (w : handle)
| TTimer (t : timer)
| TMicrotask.

(** One task; [rnd] is what Math.random() gives if the task draws. *)
Definition run (t : task) (rnd : Q) : M unit :=
  match t with
  | TBoot => boot
  | TClose => close
  | TCall method args opts => call method args opts KUser ;;; ret tt
  | TAuth id user authkey => auth id user authkey ;;; ret tt
  | TPing => ping ;;; ret tt
  | TUnspool => unspool
  | TParsePacket data binary => parsePacket data binary
  | TSend data force => send data force ;;; ret tt
  | TGetAddress => getAddress ;;; ret tt
  | TOpen w => on_open w
  | TMessage w data binary => on_message w data binary
  | TWsClose w => on_close w rnd
  | TError w err => on_error w err
  | TPong w => on_pong w
  | TTimer t => fire t
  | TMicrotask =>
      js <- get jobs ;;
      match js with
      | [] => ret tt
      | j :: js' => modify (set_jobs js') ;;; run_job j rnd
      end
  end.

(** The state after a task, whether it returned or threw: an exception
    that escapes a task does not stop the event loop. *)
Definition step (s : BeamSocket) (t : task * Q) : BeamSocket :=
  state_of (run (fst t) (snd t) s).

Definition exec (ts : list (task * Q)) (s : BeamSocket) : BeamSocket :=
  foldl step s ts.

(** [n] consecutive calls of [getAddress], with the addresses returned. *)
Fixpoint getAddress_times (n : nat) : M (list (option string)) :=
  match n with
  | 0 => ret []
  | S n' =>
      a <- getAddress ;;
      l <- getAddress_times n' ;;
      ret (a :: l)
  end.

(** ** wrapDOM: EventEmitter-like methods on a DOM socket

    The DOM socket is seen through its list of registered listeners.
    Function objects are told apart by the number given to each closure
    when it is made; a listener passed in by the caller is a number, and
    calling it is recorded with the argument it received. *)
Module WrapDOM.

Record dom_event := DomEvent { ev_type : string; ev_data : any }.

(** What a listener is called with: [ev.data] or [ev]. *)
Inductive arg :=
| ArgData (d : any)
| ArgEvent (ev : dom_event).

Inductive callback :=
| Wrapped (n : nat) (event : string) (listener : nat)
    (* wrapHandler(event, listener) *)
| OnceArrow (n : nat) (event : string) (wrapped : callback).
    (* ev => { wrapped(ev); socket.removeEventListener(event, wrapped); } *)

Global Instance dom_event_eq_dec : EqDecision dom_event.
Proof. solve_decision. Defined.
Global Instance callback_eq_dec : EqDecision callback.
Proof. solve_decision. Defined.

Definition cb_id (cb : callback) : nat :=
  match cb with Wrapped n _ _ => n | OnceArrow n _ _ => n end.

Record socket := Socket {
  registered : list (string * callback);
  next_closure : nat;
  called : list (nat * arg)
}.

(** A socket nothing has been registered on. *)
Definition fresh_socket : socket := Socket [] 0 [].

(** socket.addEventListener(type, cb): the same callback is not added
    twice for one type. *)
Definition addEventListener (type : string) (cb : callback) (s : socket)
    : socket :=
  if decide ((type, cb) ∈ registered s) then s
  else Socket (registered s ++ [(type, cb)]) (next_closure s) (called s).

(** socket.removeEventListener(type, cb) *)
Definition removeEventListener (type : string) (cb : callback) (s : socket)
    : socket :=
  Socket (filter (fun x => x <> (type, cb)) (registered s))
    (next_closure s) (called s).

(** socket.on = (event, listener) => { ... } *)
Definition on (event : string) (listener : nat) (s : socket) : socket :=
  let wrapped := Wrapped (next_closure s) event listener in
  addEventListener event wrapped
    (Socket (registered s) (S (next_closure s)) (called s)).

(** socket.once = (event, listener) => { ... } *)
Definition once (event : string) (listener : nat) (s : socket) : socket :=
  let wrapped := Wrapped (next_closure s) event listener in
  let arrow := OnceArrow (S (next_closure s)) event wrapped in
  addEventListener event arrow
    (Socket (registered s) (S (S (next_closure s))) (called s)).

(** The argument wrapHandler passes on. *)
Definition passed (event : string) (ev : dom_event) : arg :=
  if decide (event = "message") then ArgData (ev_data ev) else ArgEvent ev.

(** Calling a function object the wrapper made. *)
Fixpoint invoke (cb : callback) (ev : dom_event) (s : socket) : socket :=
  match cb with
  | Wrapped _ event listener =>
      Socket (registered s) (next_closure s)
        (called s ++ [(listener, passed event ev)])
  | OnceArrow _ event wrapped =>
      removeEventListener event wrapped (invoke wrapped ev s)
  end.

(** The callbacks registered for the type of [ev], in order of
    registration. *)
Definition listening (ev : dom_event) (s : socket) : list callback :=
  map snd (filter (fun x => fst x = ev_type ev) (registered s)).

(** The socket dispatches [ev]. *)
Definition dispatch (ev : dom_event) (s : socket) : socket :=
  foldl (fun s cb => invoke cb ev s) s (listening ev s).

(** The listener a function object ends up calling, with its argument. *)
Fixpoint reaches (cb : callback) (ev : dom_event) : nat * arg :=
  match cb with
  | Wrapped _ event listener => (listener, passed event ev)
  | OnceArrow _ _ wrapped => reaches wrapped ev
  end.

(** Closure numbers are below [next_closure], and the inner function of a
    [once] arrow has a number no registered callback has. *)
Definition well_formed (s : socket) : Prop :=
  forall ty cb, (ty, cb) ∈ registered s ->
    (cb_id cb < next_closure s)%nat
    /\ forall k e w, cb = OnceArrow k e w ->
         (exists n l, w = Wrapped n e l)
         /\ (cb_id w < next_closure s)%nat
         /\ forall ty' cb', (ty', cb') ∈ registered s -> cb_id cb' <> cb_id w.

End WrapDOM.

(** ** Specification vocabulary *)

(** Method [m] takes every state to one related to it by [R], whether it
    returns or throws. *)
Definition respects (R : BeamSocket -> BeamSocket -> Prop) {A} (m : M A) : Prop :=
  forall s, R s (state_of (m s)).

(** The offset one call of [getAddress] moves to. *)
Definition next_offset (addrs : list string) (off : nat) : nat :=
  if decide (length addrs <= S off)%nat then 0%nat else S off.

(** The retry counter never goes down in a method that respects this. *)
Definition retries_grow (s s' : BeamSocket) : Prop :=
  (_retries s <= _retries s')%nat.

(** clearTimeout(h) on the timer table. *)
Definition cleared (h : option timer) (tm : gmap timer (Z * action))
    : gmap timer (Z * action) :=
  match h with Some t => delete t tm | None => tm end.

(** What [_handleClose] does before it looks at the status: the keepalive
    timer is cleared, its handle and the transport are set to null, the
    welcome listeners are removed. *)
Definition torn_down (s : BeamSocket) : BeamSocket :=
  set_welcome_listeners 0
    (set_ws None
       (set_pingTimeoutHandle None
          (set_timers (cleared (_pingTimeoutHandle s) (timers s)) s))).

(** Transport [w] has been created and is not the transport of the
    socket: it was superseded, or closed and forgotten. *)
Definition stale (w : handle) (s : BeamSocket) : Prop :=
  ws s <> Some w /\ (w < next_handle s)%nat.

Definition stays_stale (w : handle) (s s' : BeamSocket) : Prop :=
  stale w s -> stale w s'.

(** The spool has only been appended to, and the status has not become
    CONNECTED unless it was. *)
Definition unflushed (s s' : BeamSocket) : Prop :=
  (status s <> CONNECTED -> status s' <> CONNECTED)
  /\ exists l, _spool s' = (_spool s ++ l)%list.

(** The frames handed to the transport, in order. *)
Fixpoint sends (tr : list effect) : list frame :=
  match tr with
  | [] => []
  | WsSend _ f :: tr' => f :: sends tr'
  | _ :: tr' => sends tr'
  end.

(** The status is the same before and after. *)
Definition same_status (s s' : BeamSocket) : Prop := status s' = status s.

(** *** Call and reply correlation *)

(** What [Reply.handle] settles the reply promise with. *)
Definition reply_outcome (p : packet) : slot :=
  match p_error p with
  | Some e => Rejected (Rejection e)
  | None => Fulfilled (p_data p)
  end.

(** [r] is the outcome of a reply envelope with id [id] that parsePacket
    has read (every parsed frame is emitted as a packet notification). *)
Definition from_reply (id : nat) (r : slot) (tr : list effect) : Prop :=
  exists p,
    In (Emit "packet" (PPacket (Some p))) tr
    /\ p_type p = Some "reply" /\ p_id p = Some id /\ r = reply_outcome p.

(** What may win the race in call [id]: its timeout, or a reply to it. *)
Definition racer_ok (id : nat) (r : slot) (tr : list effect) : Prop :=
  r = Rejected TimeoutError \/ from_reply id r tr.

(** What the promise of call [id] may settle with. *)
Definition result_ok (c : pending) (id : nat) (r : slot) (tr : list effect)
    : Prop :=
  (o_noReply (c_options c) = true /\ r = Fulfilled undefined)
  \/ racer_ok id r tr.

(** The settlements of the promise of call [id], in order. *)
Fixpoint settlements (id : nat) (tr : list effect) : list slot :=
  match tr with
  | [] => []
  | CallSettled i r :: tr' =>
      if decide (i = id) then r :: settlements id tr' else settlements id tr'
  | _ :: tr' => settlements id tr'
  end.

Definition settled_as (c : option pending) : list slot :=
  match c with
  | Some c => match c_result c with Unsettled => [] | r => [r] end
  | None => []
  end.

(** The invariant of the call registry, on the fields it is about. *)
Record view_inv (cs : gmap nat pending) (rs : gmap nat Reply) (n : nat)
    (js : list job) (tr : list effect) : Prop := ViewInv {
  vi_fresh : forall id c, cs !! id = Some c -> (id < n)%nat;
  vi_replies : forall k r, rs !! k = Some r -> reply_promise r = k;
  vi_reply : forall id c,
    cs !! id = Some c -> c_reply c <> Unsettled ->
    from_reply id (c_reply c) tr;
  vi_settled : forall id, settlements id tr = settled_as (cs !! id);
  vi_result : forall id c,
    cs !! id = Some c -> c_result c <> Unsettled ->
    result_ok c id (c_result c) tr;
  vi_jobs : forall id r, In (JRace id r) js -> racer_ok id r tr
}.

Definition call_inv (s : BeamSocket) : Prop :=
  view_inv (calls s) (_replies s) (_callNo s) (jobs s) (trace s).

Definition keeps_call_inv (s s' : BeamSocket) : Prop :=
  call_inv s -> call_inv s'.

(** An effect other than the settlement of a call promise. *)
Definition not_settlement (e : effect) : Prop :=
  match e with CallSettled _ _ => False | _ => True end.

(** A job other than a racer of a call. *)
Definition not_racer (j : job) : Prop :=
  match j with JRace _ _ => False | _ => True end.

(** An update of call bookkeeping that leaves options and both promises. *)
Definition keeps_promises (f : pending -> pending) : Prop :=
  forall c, c_options (f c) = c_options c /\ c_reply (f c) = c_reply c
            /\ c_result (f c) = c_result c.

(** A timer is armed that will reject the race of call [id]. *)
Definition has_deadline (s : BeamSocket) (id : nat) : Prop :=
  exists t d, timers s !! t = Some (d, ACallTimeout id).

(** The promise of call [id] has settled, or its timeout is pending. *)
Definition settled_or_due (s : BeamSocket) (id : nat) : Prop :=
  (exists c, calls s !! id = Some c /\ c_result c <> Unsettled)
  \/ has_deadline s id.

(** [call(method, args, opts)] as one task followed by the microtask it
    may have queued leaves its promise settled or with a deadline. *)
Definition call_gets_deadline (s : BeamSocket) (method : string)
    (args : list any) (opts : call_options) : Prop :=
  settled_or_due
    (exec [(TCall method args opts, 0%Q); (TMicrotask, 0%Q)] s)
    (_callNo s).

(** The tasks of a sequence of calls with default options. *)
Definition call_tasks (l : list (string * list any)) : list (task * Q) :=
  map (fun m => (TCall (fst m) (snd m) no_options, 0%Q)) l.

(** The spool entries of a sequence of calls, numbered from [n]. *)
Fixpoint spooled_from (n : nat) (l : list (string * list any)) : list spooled :=
  match l with
  | [] => []
  | m :: l' =>
      Spooled (Frame "method" (fst m) (snd m) n) n :: spooled_from (S n) l'
  end.

(** The call counter has not gone down. *)
Definition callno_grows (s s' : BeamSocket) : Prop :=
  (_callNo s <= _callNo s')%nat.

(** The callbacks [_resetPingTimeout] and [_resetConnectionTimeout] arm:
    the keepalive probe and the connection deadline. *)
Definition is_keepalive (a : action) : bool :=
  match a with
  | APing | AConnClose _ => true
  | _ => false
  end.

(** Every armed keepalive or connection timer is the one
    [_pingTimeoutHandle] holds, and timer handles are handed out in
    increasing order. *)
Definition kv_inv (tm : gmap timer (Z * action)) (nt : timer)
    (h : option timer) : Prop :=
  (forall t d a, tm !! t = Some (d, a) -> is_keepalive a = true -> h = Some t)
  /\ (forall t x, tm !! t = Some x -> (t < nt)%nat).

Definition keepalive_inv (s : BeamSocket) : Prop :=
  kv_inv (timers s) (next_timer s) (_pingTimeoutHandle s).

Definition keeps_keepalive (s s' : BeamSocket) : Prop :=
  keepalive_inv s -> keepalive_inv s'.

(** [_handleClose] after it has cleared the keepalive timer and its
    handle. *)
Definition handleClose_rest (r : Q) : M unit :=
  modify (set_ws None) ;;;
  modify (set_welcome_listeners 0) ;;;
  st <- get status ;;
  if decide (st = CLOSING) then
    modify (set_status CLOSED) ;;;
    notify "closed" PNone
  else
    interval <- _getNextReconnectInterval r ;;
    modify (set_status CONNECTING) ;;;
    t <- setTimeout ABoot interval ;;
    modify (set_reconnectTimeout t) ;;;
    w <- get ws ;;
    notify "reconnecting" (PReconnecting interval w).

(** * Properties *)

(** Symbolic execution of a method leaves map operations alone. *)
Ltac run_cbn :=
  cbn -[lookup insert delete alter];
  repeat (progress (unfold notify, effect_, enqueue, update_call);
          cbn -[lookup insert delete alter]).

Lemma bind_eq {A B} (m : M A) (k : A -> M B) (s : BeamSocket) :
  bind m k s =
    match m s with
    | Ok a s' => k a s'
    | Throw e s' => Throw e s'
    end.
Proof. reflexivity. Qed.

(** ** Address pool *)

Section AddressPool.

Local Open Scope nat_scope.


Lemma getAddress_eq (s : BeamSocket) :
  getAddress s =
    Ok (_addresses s !! next_offset (_addresses s) (_addressOffset s))
       (set_addressOffset (next_offset (_addresses s) (_addressOffset s)) s).
Proof. reflexivity. Qed.

Lemma next_offset_mod (addrs : list string) (off : nat) :
  off < length addrs ->
  next_offset addrs off = S off mod length addrs.
Proof.
  intros Hlt. unfold next_offset. destruct (decide _) as [Hle|Hgt].
  - assert (S off = length addrs) as -> by lia.
    symmetry. apply Nat.Div0.mod_same.
  - symmetry. apply Nat.mod_small. lia.
Qed.

(** [k] calls starting at offset [off] return the addresses at
    [off+1], [off+2], ... modulo the length, and leave the offset at
    [off+k] modulo the length. *)
Lemma getAddress_times_eq (k : nat) : forall (s : BeamSocket),
  _addressOffset s < length (_addresses s) ->
  exists s',
    getAddress_times k s =
      Ok (map (fun j => _addresses s !! ((_addressOffset s + S j) mod length (_addresses s)))
              (seq 0 k)) s'
    /\ _addresses s' = _addresses s
    /\ _addressOffset s' = (_addressOffset s + k) mod length (_addresses s)
    /\ s' = set_addressOffset (_addressOffset s') s.
Proof.
  induction k as [|k IH]; intros s Hlt.
  - exists s. cbn. rewrite Nat.add_0_r, Nat.mod_small by lia.
    repeat split; trivial. by destruct s.
  - cbn [getAddress_times]. rewrite bind_eq, getAddress_eq.
    set (s1 := set_addressOffset _ s).
    assert (Hoff1 : _addressOffset s1 = S (_addressOffset s) mod length (_addresses s))
      by (apply next_offset_mod, Hlt).
    assert (Hlt1 : _addressOffset s1 < length (_addresses s1)).
    { rewrite Hoff1. apply Nat.mod_upper_bound. cbn. lia. }
    destruct (IH s1 Hlt1) as (s' & Hrun & Haddr & Hoff & Hs').
    exists s'. rewrite bind_eq, Hrun. cbn [ret].
    change (_addresses s1) with (_addresses s) in *.
    split; [|split; [|split]].
    + f_equal. cbn [seq map]. f_equal.
      * rewrite next_offset_mod by done. do 2 f_equal. lia.
      * rewrite <- seq_shift, map_map. apply map_ext. intros j.
        f_equal. rewrite Hoff1.
        rewrite Nat.Div0.add_mod_idemp_l. f_equal. lia.
    + done.
    + rewrite Hoff, Hoff1, Nat.Div0.add_mod_idemp_l. f_equal. lia.
    + rewrite Hs'. by destruct s.
Qed.

Lemma Math_floor_times_range (r : Q) (n : nat) :
  (0 <= r)%Q -> (r < 1)%Q -> 0 < n ->
  (0 <= Math_floor_times r n < Z.of_nat n)%Z.
Proof.
  intros H0 H1 Hn. unfold Math_floor_times.
  assert (Hpos : (0 < inject_Z (Z.of_nat n))%Q).
  { change 0%Q with (inject_Z 0). rewrite <- Zlt_Qlt. lia. }
  split.
  - change 0%Z with (Qfloor 0). apply Qfloor_resp_le.
    apply Qmult_le_0_compat; [done|]. by apply Qlt_le_weak.
  - rewrite Zlt_Qlt.
    apply Qle_lt_trans with (r * inject_Z (Z.of_nat n))%Q; [apply Qfloor_le|].
    apply Qlt_le_trans with (1 * inject_Z (Z.of_nat n))%Q.
    + by apply Qmult_lt_compat_r.
    + rewrite Qmult_1_l. apply Qle_refl.
Qed.

Lemma cycle_is_rotation (l : list string) (off : nat) :
  map (fun j => l !! ((off + S j) mod length l)) (seq 0 (length l)) =
  map Some (rotate (S off) l).
Proof.
  apply list_eq. intros i.
  rewrite !list_lookup_fmap.
  destruct (decide (i < length l)) as [Hi|Hi].
  - rewrite lookup_seq_lt by done. cbn.
    rewrite lookup_rotate_r by done.
    unfold rotate_nat_add.
    rewrite <- Nat2Z.inj_add, <- Nat2Z.inj_mod, Nat2Z.id.
    replace (off + S i) with (S off + i) by lia.
    destruct (l !! ((S off + i) mod length l)) eqn:E; [done|].
    apply lookup_ge_None in E.
    pose proof (Nat.mod_upper_bound (S off + i) (length l)). lia.
  - rewrite lookup_seq_ge by lia. cbn.
    rewrite (proj2 (lookup_ge_None _ _)); [done|].
    rewrite length_rotate. lia.
Qed.

Lemma rotate_Permutation (l : list string) (n : nat) : rotate n l ≡ₚ l.
Proof.
  unfold rotate. rewrite Permutation_app_comm. by rewrite take_drop.
Qed.

Lemma Qfloor_interval (x : Q) (k : Z) :
  Qfloor x = k <-> (inject_Z k <= x)%Q /\ (x < inject_Z (k + 1))%Q.
Proof.
  split.
  - intros <-. split; [apply Qfloor_le | apply Qlt_floor].
  - intros [Hle Hlt].
    assert (k <= Qfloor x)%Z.
    { rewrite <- (Qfloor_Z k). by apply Qfloor_resp_le. }
    assert (Qfloor x < k + 1)%Z.
    { rewrite Zlt_Qlt. eapply Qle_lt_trans; [apply Qfloor_le | done]. }
    lia.
Qed.

Lemma Qdiv_le_iff (a b c : Q) :
  (0 < c)%Q -> (a / c <= b)%Q <-> (a <= b * c)%Q.
Proof.
  intros Hc. assert (Hnz : ~ (c == 0)%Q).
  { intros E. rewrite E in Hc. by apply Qlt_irrefl in Hc. }
  split.
  - intros H. rewrite <- (Qmult_div_r a c) by done.
    rewrite (Qmult_comm c). apply Qmult_le_compat_r; [done|].
    by apply Qlt_le_weak.
  - intros H. by apply Qle_shift_div_r.
Qed.

Lemma Qlt_div_iff (a b c : Q) :
  (0 < c)%Q -> (b < a / c)%Q <-> (b * c < a)%Q.
Proof.
  intros Hc. assert (Hnz : ~ (c == 0)%Q).
  { intros E. rewrite E in Hc. by apply Qlt_irrefl in Hc. }
  split.
  - intros H. rewrite <- (Qmult_div_r a c) by done.
    rewrite (Qmult_comm c). by apply Qmult_lt_compat_r.
  - intros H. by apply Qlt_shift_div_l.
Qed.

(** [Math.floor(Math.random() * n)] is [k] exactly when the draw falls in
    [[k/n, (k+1)/n)]: each of the [n] offsets is the image of an interval
    of width [1/n]. *)
Lemma Math_floor_times_interval (r : Q) (n k : nat) :
  (0 <= r)%Q -> 0 < n ->
  Z.to_nat (Math_floor_times r n) = k <->
  (inject_Z (Z.of_nat k) / inject_Z (Z.of_nat n) <= r)%Q
  /\ (r < inject_Z (Z.of_nat (S k)) / inject_Z (Z.of_nat n))%Q.
Proof.
  intros H0 Hn.
  assert (Hpos : (0 < inject_Z (Z.of_nat n))%Q).
  { change 0%Q with (inject_Z 0). rewrite <- Zlt_Qlt. lia. }
  assert (Hfl : (0 <= Math_floor_times r n)%Z).
  { unfold Math_floor_times. change 0%Z with (Qfloor 0).
    apply Qfloor_resp_le, Qmult_le_0_compat; [done|]. by apply Qlt_le_weak. }
  rewrite Qdiv_le_iff, Qlt_div_iff by done.
  replace (Z.of_nat (S k)) with (Z.of_nat k + 1)%Z by lia.
  rewrite <- Qfloor_interval. fold (Math_floor_times r n). lia.
Qed.



End AddressPool.

(** ** Frame reasoning

    A relation between the state before and the state after that is
    reflexive and transitive holds of a method as soon as it holds of each
    field update in it, whatever the control flow and whether or not the
    method throws. *)

Section Frame.

Variable R : BeamSocket -> BeamSocket -> Prop.
Hypothesis R_refl : forall s, R s s.
Hypothesis R_trans : forall s1 s2 s3, R s1 s2 -> R s2 s3 -> R s1 s3.

Local Abbreviation respects := (respects R).


Lemma respects_ret {A} (a : A) : respects (ret a).
Proof. intros s. apply R_refl. Qed.

Lemma respects_throw {A} (e : error) : respects (@throw A e).
Proof. intros s. apply R_refl. Qed.

Lemma respects_get {A} (f : BeamSocket -> A) : respects (get f).
Proof. intros s. apply R_refl. Qed.

Lemma respects_modify (f : BeamSocket -> BeamSocket) :
  (forall s, R s (f s)) -> respects (modify f).
Proof. intros H s. apply H. Qed.

Lemma respects_bind {A B} (m : M A) (k : A -> M B) :
  respects m -> (forall a, respects (k a)) -> respects (bind m k).
Proof.
  intros Hm Hk s. rewrite bind_eq. specialize (Hm s).
  destruct (m s) as [a s'|e s']; cbn in *; [|done].
  eapply R_trans; [exact Hm|apply Hk].
Qed.

Lemma respects_try_catch {A} (m : M A) (h : error -> M A) :
  respects m -> (forall e, respects (h e)) -> respects (try_catch m h).
Proof.
  intros Hm Hh s. unfold try_catch. specialize (Hm s).
  destruct (m s) as [a s'|e s']; cbn in *; [done|].
  eapply R_trans; [exact Hm|apply Hh].
Qed.

Lemma respects_exec (ts : list (task * Q)) :
  (forall t rnd, respects (run t rnd)) ->
  forall s, R s (exec ts s).
Proof.
  intros Hrun. induction ts as [|[t rnd] ts IH] using rev_ind; intros s.
  - apply R_refl.
  - unfold exec. rewrite foldl_app. cbn.
    eapply R_trans; [apply IH|]. apply Hrun.
Qed.

End Frame.

(** Goals [respects R m] are taken apart along the structure of [m]; the
    leaves are field updates, closed by [upd], and methods already shown to
    respect [R], found in the hint database [frame]. *)
Create HintDb frame.

Ltac frame_side := solve [eauto 4 with frame nocore].

Ltac frame_step upd :=
  lazymatch goal with
  | |- respects _ (bind _ _) =>
      apply respects_bind; [frame_side .. | | intros ?]
  | |- respects _ (try_catch _ _) =>
      apply respects_try_catch; [frame_side .. | | intros ?]
  | |- respects _ (ret _) => apply respects_ret; frame_side
  | |- respects _ (throw _) => apply respects_throw; frame_side
  | |- respects _ (get _) => apply respects_get; frame_side
  | |- respects _ (modify _) => apply respects_modify; intros ?; upd
  | |- respects _ (if ?b then _ else _) => destruct b
  | |- respects _ (match ?x with _ => _ end) => destruct x
  end.

Ltac frame upd :=
  repeat first
    [ solve [auto 2 with frame nocore]
    | frame_step upd
    | progress unfold effect_, enqueue, notify, update_call ].

(** ** Backoff policy *)

Section Backoff.

Local Open Scope Z_scope.

Lemma Math_round_coin (r : Q) :
  (0 <= r)%Q -> (r < 1)%Q -> Math_round r = 0 \/ Math_round r = 1.
Proof.
  intros H0 H1. unfold Math_round.
  assert (0 <= Qfloor (r + (1 # 2)) < 2); [|lia].
  split.
  - change 0 with (Qfloor 0). apply Qfloor_resp_le.
    apply Qle_trans with r; [done|].
    rewrite <- (Qplus_0_r r) at 1. apply Qplus_le_r. by vm_compute.
  - rewrite Zlt_Qlt.
    apply Qle_lt_trans with (r + (1 # 2))%Q; [apply Qfloor_le|].
    apply Qlt_le_trans with (1 + (1 # 2))%Q.
    + by apply Qplus_lt_le_compat; [|apply Qle_refl].
    + by vm_compute.
Qed.

Lemma shl1_small (power : Z) : 0 <= power <= 7 -> shl1 power = 2 ^ power.
Proof.
  intros H.
  assert (power = 0 \/ power = 1 \/ power = 2 \/ power = 3 \/ power = 4
          \/ power = 5 \/ power = 6 \/ power = 7) as Hp by lia.
  destruct Hp as [->|[->|[->|[->|[->|[->|[->| ->]]]]]]]; reflexivity.
Qed.

Lemma _getNextReconnectInterval_eq (r : Q) (s : BeamSocket) :
  _getNextReconnectInterval r s =
    Ok (shl1 (Z.of_nat (_retries s mod _retryWrap s) + Math_round r) * 500)
       (set_retries (S (_retries s)) s).
Proof. reflexivity. Qed.

End Backoff.


Section RetriesGrow.

Local Abbreviation ok := (respects retries_grow).

Lemma retries_grow_refl s : retries_grow s s.
Proof. unfold retries_grow. lia. Qed.
Lemma retries_grow_trans s1 s2 s3 :
  retries_grow s1 s2 -> retries_grow s2 s3 -> retries_grow s1 s3.
Proof. unfold retries_grow. lia. Qed.

Ltac go := frame ltac:(unfold retries_grow; cbn; lia).
Local Hint Resolve retries_grow_refl retries_grow_trans : frame.

Lemma rg_effect e : ok (effect_ e).
Proof. unfold effect_. go. Qed.
Lemma rg_enqueue j : ok (enqueue j).
Proof. unfold enqueue. go. Qed.
Lemma rg_setTimeout a d : ok (setTimeout a d).
Proof. intros s. unfold retries_grow. cbn. lia. Qed.
Lemma rg_clearTimeout h : ok (clearTimeout h).
Proof. unfold clearTimeout. go. Qed.
Local Hint Resolve rg_effect rg_enqueue rg_setTimeout rg_clearTimeout : frame.
Lemma rg_notify n a : ok (notify n a).
Proof. unfold notify. go. Qed.
Local Hint Resolve rg_notify : frame.
Lemma rg_isConnected : ok isConnected.
Proof. unfold isConnected. go. Qed.
Lemma rg_getAddress : ok getAddress.
Proof. unfold getAddress. go. Qed.
Lemma rg_interval r : ok (_getNextReconnectInterval r).
Proof. intros s. unfold retries_grow. cbn. lia. Qed.
Local Hint Resolve rg_isConnected rg_getAddress rg_interval : frame.
Lemma rg_handleClose r : ok (_handleClose r).
Proof. unfold _handleClose. go. Qed.
Lemma rg_resetPingTimeout : ok _resetPingTimeout.
Proof. unfold _resetPingTimeout. go. Qed.
Lemma rg_resetConnectionTimeout a : ok (_resetConnectionTimeout a).
Proof. unfold _resetConnectionTimeout. go. Qed.
Lemma rg_send d f : ok (send d f).
Proof. unfold send. go. Qed.
Lemma rg_update_call id f : ok (update_call id f).
Proof. unfold update_call. go. Qed.
Local Hint Resolve rg_handleClose rg_resetPingTimeout
  rg_resetConnectionTimeout rg_send rg_update_call : frame.
Lemma rg_resolve_send id : ok (resolve_send id).
Proof. unfold resolve_send. go. Qed.
Lemma rg_settle_reply id r : ok (settle_reply id r).
Proof. unfold settle_reply. go. Qed.
Local Hint Resolve rg_resolve_send rg_settle_reply : frame.
Lemma rg_call m a o k : ok (call m a o k).
Proof. unfold call. go. Qed.
Lemma rg_close : ok close.
Proof. unfold close. go. Qed.
Lemma rg_Reply_handle r p : ok (Reply_handle r p).
Proof. unfold Reply_handle. go. Qed.
Lemma rg_flush l : ok (flush l).
Proof. induction l; cbn [flush]; go. Qed.
Local Hint Resolve rg_call rg_close rg_Reply_handle rg_flush : frame.
Lemma rg_bang : ok (bang ThisOther).
Proof. unfold bang. go. Qed.
Local Hint Resolve rg_bang : frame.
Lemma rg_unspool : ok unspool.
Proof. unfold unspool. go. Qed.
Local Hint Resolve rg_unspool : frame.
Lemma rg_welcome n : ok (welcome n).
Proof. induction n; cbn [welcome]; go. Qed.
Lemma rg_authresult n v : ok (authresult n v).
Proof. induction n; cbn [authresult]; go. Qed.
Local Hint Resolve rg_welcome rg_authresult : frame.
Lemma rg_emit n a : ok (emit n a).
Proof. unfold emit. go. Qed.
Local Hint Resolve rg_emit : frame.
Lemma rg_parsePacket d b : ok (parsePacket d b).
Proof. unfold parsePacket. go. Qed.
Lemma rg_auth i u k : ok (auth i u k).
Proof. unfold auth. go. Qed.
Lemma rg_ping_chain w r q : ok (ping_chain w r q).
Proof. unfold ping_chain. go. Qed.
Lemma rg_ping : ok ping.
Proof. unfold ping. go. Qed.
Lemma rg_boot : ok boot.
Proof. unfold boot. go. Qed.
Local Hint Resolve rg_parsePacket rg_auth rg_ping_chain rg_ping rg_boot : frame.
Lemma rg_on_open w : ok (on_open w).
Proof. unfold on_open, whilstSameSocket. go. Qed.
Lemma rg_on_message w d b : ok (on_message w d b).
Proof. unfold on_message, whilstSameSocket. go. Qed.
Lemma rg_on_close w r : ok (on_close w r).
Proof. unfold on_close, whilstSameSocket. go. Qed.
Lemma rg_on_error w e : ok (on_error w e).
Proof. unfold on_error, whilstSameSocket. go. Qed.
Lemma rg_on_pong w : ok (on_pong w).
Proof.
  intros s. unfold on_pong, modify, retries_grow. cbn.
  destruct (pong_probes w 0 (probes s)). cbn. lia.
Qed.
Lemma rg_settle_call id r : ok (settle_call id r).
Proof. unfold settle_call. go. Qed.
Local Hint Resolve rg_settle_call : frame.
Lemma rg_after_send id : ok (after_send id).
Proof. unfold after_send. go. Qed.
Lemma rg_auth_failed : ok auth_failed.
Proof. unfold auth_failed. go. Qed.
Lemma rg_update_probe k r : ok (update_probe k r).
Proof. unfold update_probe. go. Qed.
Local Hint Resolve rg_after_send rg_auth_failed rg_update_probe : frame.
Lemma rg_run_job j r : ok (run_job j r).
Proof. unfold run_job. go. Qed.
Lemma rg_fire t : ok (fire t).
Proof. unfold fire. go. Qed.
Local Hint Resolve rg_on_open rg_on_message rg_on_close rg_on_error
  rg_on_pong rg_run_job rg_fire : frame.

(** No task lowers the retry counter. *)
Lemma run_retries_grow t rnd : ok (run t rnd).
Proof. unfold run. go. Qed.

End RetriesGrow.

Lemma bang_done (this : receiver) (s s' : BeamSocket) :
  bang this s = Ok tt s' ->
  this = ThisSocket /\ _retries s' = 0 /\ status s' = CONNECTED
  /\ _spool s' = [] /\ last (trace s') = Some (Emit "connected" PNone).
Proof.
  destruct this; [|by cbn]. unfold bang. cbn.
  destruct (flush (_spool s) s) as [[] s1|e s1]; [|done].
  cbn. intros [= <-]. cbn. by rewrite last_snoc.
Qed.

Lemma on_open_retries (w : handle) (s : BeamSocket) :
  _retries (state_of (on_open w s)) = _retries s.
Proof.
  unfold on_open, whilstSameSocket. cbn.
  destruct (decide (ws s = Some w)); [|done]. cbn.
  destruct (global_self s); [|done].
  cbn. by destruct (_pingTimeoutHandle s).
Qed.

(** The coin of the backoff: [Math.round] of a draw in [[0, 1)] is 0 below
    one half and 1 from one half on. *)
Lemma Math_round_threshold (r : Q) :
  (0 <= r)%Q -> (r < 1)%Q ->
  ((r < 1 # 2)%Q -> Math_round r = 0%Z)
  /\ ((1 # 2 <= r)%Q -> Math_round r = 1%Z).
Proof.
  intros H0 H1. unfold Math_round. split; intros H; apply Qfloor_interval.
  - split.
    + apply Qle_trans with r; [done|].
      rewrite <- (Qplus_0_r r) at 1. apply Qplus_le_r. by vm_compute.
    + apply Qlt_le_trans with ((1 # 2) + (1 # 2))%Q; [|by vm_compute].
      by apply Qplus_lt_le_compat; [|apply Qle_refl].
  - split.
    + apply Qle_trans with ((1 # 2) + (1 # 2))%Q; [by vm_compute|].
      by apply Qplus_le_compat; [|apply Qle_refl].
    + apply Qlt_le_trans with (1 + (1 # 2))%Q; [|by vm_compute].
      by apply Qplus_lt_le_compat; [|apply Qle_refl].
Qed.

(** No sequence of tasks lowers the retry counter. *)
Lemma exec_retries_grow (ts : list (task * Q)) (s : BeamSocket) :
  _retries s <= _retries (exec ts s).
Proof.
  apply (respects_exec retries_grow retries_grow_refl retries_grow_trans).
  intros t rnd. apply run_retries_grow.
Qed.



(** ** Sending while disconnected *)

(** C10. While the status is not CONNECTED, send without force of a frame
    whose method is the authentication method returns an already resolved
    promise and leaves the whole state as it was: nothing is handed to the
    transport, the spool keeps its length, no notification is emitted. *)
Theorem send_auth_while_disconnected_is_dropped (s : BeamSocket) (data : frame) :
  status s <> CONNECTED ->
  f_method data = authMethod ->
  send data false s = Ok true s.
Proof.
  intros Hst Hm. unfold send, isConnected. cbn.
  rewrite bool_decide_eq_false_2 by done. cbn.
  rewrite bool_decide_eq_false_2; [done|]. by intros [].
Qed.

Lemma send_auth_while_disconnected_is_dropped_witness :
  let s := constructor false ["a"] default_options None (1 # 2) in
  send (Frame "method" "auth" [num 1; num 2; str "key"] 0) false s = Ok true s.
Proof.
  intros s. apply send_auth_while_disconnected_is_dropped; [by cbn | reflexivity].
Defined.

(** ** Ping while disconnected *)

(** C9. While the status is not CONNECTED, ping returns a promise made
    already rejected with a TimeoutError.  The only thing it does to the
    state is clearTimeout on the keepalive handle: the trace (transport
    sends, closes, pings and notifications), the spool, the call registry,
    the status, the transport and the microtask queue are as before. *)
Theorem ping_while_disconnected_rejects (s : BeamSocket) :
  status s <> CONNECTED ->
  exists s',
    ping s = Ok (Settled (Rejected TimeoutError)) s'
    /\ s' = set_timers (cleared (_pingTimeoutHandle s) (timers s)) s
    /\ trace s' = trace s /\ _spool s' = _spool s /\ _replies s' = _replies s
    /\ status s' = status s /\ ws s' = ws s /\ jobs s' = jobs s.
Proof.
  intros Hst. eexists. split; [|split; [reflexivity|by cbn]].
  unfold ping, isConnected. cbn.
  destruct (_pingTimeoutHandle s) as [t|]; cbn;
    rewrite bool_decide_eq_false_2 by done; cbn; [done|].
  by destruct s.
Qed.

Lemma ping_while_disconnected_rejects_witness :
  let s := state_of (boot (constructor false ["a"] default_options None (1 # 2))) in
  exists s',
    ping s = Ok (Settled (Rejected TimeoutError)) s'
    /\ timers s' = ∅ /\ trace s' = trace s.
Proof.
  intros s.
  destruct (ping_while_disconnected_rejects s) as (s' & Hp & -> & Ht & _);
    [by cbn|].
  exists (set_timers (cleared (_pingTimeoutHandle s) (timers s)) s).
  split; [exact Hp|]. split; [by vm_compute|reflexivity].
Defined.

(** ** Closure handling *)

Lemma _handleClose_closing (r : Q) (s : BeamSocket) :
  status s = CLOSING ->
  _handleClose r s =
    Ok tt (set_trace (trace s ++ [Emit "closed" PNone])
             (set_status CLOSED (torn_down s))).
Proof.
  intros Hst. unfold _handleClose, torn_down, cleared. cbn.
  destruct (_pingTimeoutHandle s) as [t|]; cbn; rewrite Hst; cbn; [done|].
  by destruct s.
Qed.

Lemma _handleClose_reconnect (r : Q) (s : BeamSocket) :
  status s <> CLOSING ->
  let interval :=
    (shl1 (Z.of_nat (_retries s mod _retryWrap s) + Math_round r) * 500)%Z in
  let t := next_timer s in
  _handleClose r s =
    Ok tt (set_trace (trace s ++ [Emit "reconnecting" (PReconnecting interval None)])
             (set_reconnectTimeout (Some t)
                (set_next_timer (S t)
                   (set_timers
                      (<[t := (interval, ABoot)]>
                         (cleared (_pingTimeoutHandle s) (timers s)))
                      (set_status CONNECTING
                         (set_retries (S (_retries s)) (torn_down s))))))).
Proof.
  intros Hst. unfold _handleClose, torn_down, cleared. cbn.
  destruct (_pingTimeoutHandle s) as [t|]; cbn;
    (destruct (decide (status s = CLOSING)); [done|]); cbn; [done|].
  by destruct s.
Qed.

(** The close callback of the active transport, by the binding of the
    free variable [self]. *)
Lemma on_close_self_unbound (s : BeamSocket) (w : handle) (r : Q) :
  ws s = Some w -> global_self s = None ->
  on_close w r s = Throw (ReferenceError "self is not defined") s.
Proof.
  intros Hws Hself. unfold on_close, whilstSameSocket. cbn. rewrite Hws.
  rewrite decide_True by done. cbn. by rewrite Hself.
Qed.

Lemma on_close_self_other (s : BeamSocket) (w : handle) (r : Q) :
  ws s = Some w -> global_self s = Some ThisOther ->
  on_close w r s =
    Throw (TypeError "Cannot read property 'apply' of undefined") s.
Proof.
  intros Hws Hself. unfold on_close, whilstSameSocket. cbn. rewrite Hws.
  rewrite decide_True by done. cbn. by rewrite Hself.
Qed.

Lemma on_close_self_socket (s : BeamSocket) (w : handle) (r : Q) :
  ws s = Some w -> global_self s = Some ThisSocket ->
  on_close w r s = _handleClose r s.
Proof.
  intros Hws Hself. unfold on_close, whilstSameSocket. cbn. rewrite Hws.
  rewrite decide_True by done. cbn. by rewrite Hself.
Qed.

(** C7, with a failing input.  The close and error callbacks of boot are
    applied to the free variable [self], not to the socket.  Where [self]
    is unbound (Node) both callbacks of the active transport throw a
    ReferenceError; where it is bound to another object (the window of a
    browser) the close callback throws a TypeError, since that object has
    no _handleClose.  In both cases the state is as it was: the keepalive
    timer is not cleared, the transport stays the active one, the status
    does not change, no reconnect is scheduled and nothing is emitted.
    Only with [self] bound to the socket itself does the close callback
    run _handleClose.  The error callback, when [self] is bound, emits the
    error and asks the transport to close, and the timeout branch of a
    ping started on that transport runs _handleClose directly.
    _handleClose itself clears the keepalive timer, sets its handle and
    the transport to null, and then: with status CLOSING it sets CLOSED
    and emits closed, arming no timer; with any other status it computes
    the reconnect interval (advancing the retry counter), sets CONNECTING,
    arms a timer that runs boot after that interval, keeps its handle as
    the reconnect timeout, and emits reconnecting with that same
    interval. *)
Theorem close_event_does_not_reach_handleClose (s : BeamSocket) (w : handle)
    (r : Q) :
  ws s = Some w ->
  (global_self s = None ->
     on_close w r s = Throw (ReferenceError "self is not defined") s
     /\ forall err,
         on_error w err s = Throw (ReferenceError "self is not defined") s)
  /\ (global_self s = Some ThisOther ->
       on_close w r s =
         Throw (TypeError "Cannot read property 'apply' of undefined") s)
  /\ (global_self s = Some ThisSocket -> on_close w r s = _handleClose r s)
  /\ (forall err this,
        global_self s = Some this ->
        on_error w err s =
          Ok tt (set_trace (trace s ++ [Emit "error" (PError err); WsClose w]) s))
  /\ ping_chain w (Rejected TimeoutError) r s =
       (notify "error" (PError TimeoutError) ;;;
        effect_ (WsClose w) ;;;
        _handleClose r ;;;
        effect_ (PingSettled (Rejected TimeoutError))) s
  /\ exists s',
      _handleClose r s = Ok tt s'
      /\ ws s' = None
      /\ _pingTimeoutHandle s' = None
      /\ (status s = CLOSING ->
            status s' = CLOSED
            /\ trace s' = (trace s ++ [Emit "closed" PNone])%list
            /\ timers s' = cleared (_pingTimeoutHandle s) (timers s)
            /\ _reconnectTimeout s' = _reconnectTimeout s
            /\ _retries s' = _retries s)
      /\ (status s <> CLOSING ->
            exists interval,
              _getNextReconnectInterval r s =
                Ok interval (set_retries (S (_retries s)) s)
              /\ status s' = CONNECTING
              /\ _reconnectTimeout s' = Some (next_timer s)
              /\ timers s' =
                   <[next_timer s := (interval, ABoot)]>
                     (cleared (_pingTimeoutHandle s) (timers s))
              /\ trace s' =
                   (trace s ++ [Emit "reconnecting" (PReconnecting interval None)])%list
              /\ _retries s' = S (_retries s)).
Proof.
  intros Hws. split; [|split; [|split; [|split; [|split]]]].
  - intros Hself. split; [by apply on_close_self_unbound|intros err].
    unfold on_error, whilstSameSocket. cbn. rewrite Hws.
    rewrite decide_True by done. cbn. by rewrite Hself.
  - by apply on_close_self_other.
  - by apply on_close_self_socket.
  - intros err this Hself. unfold on_error, whilstSameSocket. run_cbn.
    rewrite Hws. rewrite decide_True by done. run_cbn. rewrite Hself.
    run_cbn. by rewrite <- app_assoc.
  - unfold ping_chain. cbn. rewrite Hws. by rewrite decide_True.
  - destruct (decide (status s = CLOSING)) as [Hst|Hst].
    + eexists. split; [by apply _handleClose_closing|].
      cbn. repeat split; done.
    + eexists. split; [by apply _handleClose_reconnect|].
      cbn. repeat split; try done.
      intros _. eexists. split; [apply _getNextReconnectInterval_eq|].
      repeat split; done.
Qed.

(** The failing input: a socket booted where [self] is unbound; its
    transport closes.  The callback throws and the socket still holds the
    closed transport and its connection deadline, with status CONNECTING
    and no reconnect scheduled. *)
Lemma close_event_does_not_reach_handleClose_witness :
  let s := state_of (boot (constructor false ["a"; "b"] default_options
                             None (1 # 2))) in
  on_close 0 (1 # 4) s = Throw (ReferenceError "self is not defined") s
  /\ ws s = Some 0
  /\ _pingTimeoutHandle s = Some 0
  /\ timers s !! 0 = Some (5000%Z, AConnClose 0)
  /\ status s = CONNECTING
  /\ _reconnectTimeout s = None
  /\ trace s = [WsNew 0 (Some "a")].
Proof.
  intros s.
  destruct (close_event_does_not_reach_handleClose s 0 (1 # 4) eq_refl)
    as (Hnode & _).
  split; [exact (proj1 (Hnode eq_refl))|].
  by vm_compute.
Defined.

(** ** Identity-guarded transport callbacks *)

Section StaleTransport.

Variable w0 : handle.

Local Abbreviation ok := (respects (stays_stale w0)).


Lemma stays_stale_refl s : stays_stale w0 s s.
Proof. by intros H. Qed.
Lemma stays_stale_trans s1 s2 s3 :
  stays_stale w0 s1 s2 -> stays_stale w0 s2 s3 -> stays_stale w0 s1 s3.
Proof. unfold stays_stale. tauto. Qed.
Local Hint Resolve stays_stale_refl stays_stale_trans : frame.

Ltac go := frame ltac:(unfold stays_stale, stale; cbn; intuition (done || lia)).

Lemma st_effect e : ok (effect_ e).
Proof. unfold effect_. go. Qed.
Local Hint Resolve st_effect : frame.

Lemma st_enqueue j : ok (enqueue j).
Proof. unfold enqueue. go. Qed.
Local Hint Resolve st_enqueue : frame.

Lemma st_setTimeout a d : ok (setTimeout a d).
Proof. intros s. unfold stays_stale, stale. cbn. done. Qed.
Local Hint Resolve st_setTimeout : frame.

Lemma st_clearTimeout h : ok (clearTimeout h).
Proof. unfold clearTimeout. go. Qed.
Local Hint Resolve st_clearTimeout : frame.

Lemma st_notify n a : ok (notify n a).
Proof. unfold notify. go. Qed.
Local Hint Resolve st_notify : frame.

Lemma st_isConnected : ok (isConnected).
Proof. unfold isConnected. go. Qed.
Local Hint Resolve st_isConnected : frame.

Lemma st_getAddress : ok (getAddress).
Proof. unfold getAddress. go. Qed.
Local Hint Resolve st_getAddress : frame.

Lemma st_interval r : ok (_getNextReconnectInterval r).
Proof. intros s. unfold stays_stale, stale. cbn. done. Qed.
Local Hint Resolve st_interval : frame.

Lemma st_handleClose r : ok (_handleClose r).
Proof. unfold _handleClose. go. Qed.
Local Hint Resolve st_handleClose : frame.

Lemma st_resetPingTimeout : ok (_resetPingTimeout).
Proof. unfold _resetPingTimeout. go. Qed.
Local Hint Resolve st_resetPingTimeout : frame.

Lemma st_resetConnectionTimeout a : ok (_resetConnectionTimeout a).
Proof. unfold _resetConnectionTimeout. go. Qed.
Local Hint Resolve st_resetConnectionTimeout : frame.

Lemma st_send d f : ok (send d f).
Proof. unfold send. go. Qed.
Local Hint Resolve st_send : frame.

Lemma st_update_call id f : ok (update_call id f).
Proof. unfold update_call. go. Qed.
Local Hint Resolve st_update_call : frame.

Lemma st_resolve_send id : ok (resolve_send id).
Proof. unfold resolve_send. go. Qed.
Local Hint Resolve st_resolve_send : frame.

Lemma st_settle_reply id r : ok (settle_reply id r).
Proof. unfold settle_reply. go. Qed.
Local Hint Resolve st_settle_reply : frame.

Lemma st_call m a o k : ok (call m a o k).
Proof. unfold call. go. Qed.
Local Hint Resolve st_call : frame.

Lemma st_close : ok (close).
Proof. unfold close. go. Qed.
Local Hint Resolve st_close : frame.

Lemma st_Reply_handle r p : ok (Reply_handle r p).
Proof. unfold Reply_handle. go. Qed.
Local Hint Resolve st_Reply_handle : frame.

Lemma st_flush l : ok (flush l).
Proof. induction l; cbn [flush]; go. Qed.
Local Hint Resolve st_flush : frame.

Lemma st_bang : ok (bang ThisOther).
Proof. unfold bang. go. Qed.
Local Hint Resolve st_bang : frame.

Lemma st_unspool : ok (unspool).
Proof. unfold unspool. go. Qed.
Local Hint Resolve st_unspool : frame.

Lemma st_welcome n : ok (welcome n).
Proof. induction n; cbn [welcome]; go. Qed.
Local Hint Resolve st_welcome : frame.

Lemma st_authresult n v : ok (authresult n v).
Proof. induction n; cbn [authresult]; go. Qed.
Local Hint Resolve st_authresult : frame.

Lemma st_emit n a : ok (emit n a).
Proof. unfold emit. go. Qed.
Local Hint Resolve st_emit : frame.

Lemma st_parsePacket d b : ok (parsePacket d b).
Proof. unfold parsePacket. go. Qed.
Local Hint Resolve st_parsePacket : frame.

Lemma st_auth i u k : ok (auth i u k).
Proof. unfold auth. go. Qed.
Local Hint Resolve st_auth : frame.

Lemma st_ping_chain w r q : ok (ping_chain w r q).
Proof. unfold ping_chain. go. Qed.
Local Hint Resolve st_ping_chain : frame.

Lemma st_ping : ok (ping).
Proof. unfold ping. go. Qed.
Local Hint Resolve st_ping : frame.

Lemma st_boot : ok (boot).
Proof. intros s [H1 H2]. unfold stale, boot, getAddress, _resetConnectionTimeout. cbn. destruct (_pingTimeoutHandle s); cbn; (split; [intros [= Heq]; lia | lia]). Qed.
Local Hint Resolve st_boot : frame.

Lemma st_on_open w : ok (on_open w).
Proof. unfold on_open, whilstSameSocket. go. Qed.
Local Hint Resolve st_on_open : frame.

Lemma st_on_message w d b : ok (on_message w d b).
Proof. unfold on_message, whilstSameSocket. go. Qed.
Local Hint Resolve st_on_message : frame.

Lemma st_on_close w r : ok (on_close w r).
Proof. unfold on_close, whilstSameSocket. go. Qed.
Local Hint Resolve st_on_close : frame.

Lemma st_on_error w e : ok (on_error w e).
Proof. unfold on_error, whilstSameSocket. go. Qed.
Local Hint Resolve st_on_error : frame.

Lemma st_on_pong w : ok (on_pong w).
Proof. intros s. unfold on_pong, modify, stays_stale, stale. cbn. destruct (pong_probes w 0 (probes s)). cbn. done. Qed.
Local Hint Resolve st_on_pong : frame.

Lemma st_settle_call id r : ok (settle_call id r).
Proof. unfold settle_call. go. Qed.
Local Hint Resolve st_settle_call : frame.

Lemma st_after_send id : ok (after_send id).
Proof. unfold after_send. go. Qed.
Local Hint Resolve st_after_send : frame.

Lemma st_auth_failed : ok (auth_failed).
Proof. unfold auth_failed. go. Qed.
Local Hint Resolve st_auth_failed : frame.

Lemma st_update_probe k r : ok (update_probe k r).
Proof. unfold update_probe. go. Qed.
Local Hint Resolve st_update_probe : frame.

Lemma st_run_job j r : ok (run_job j r).
Proof. unfold run_job. go. Qed.
Local Hint Resolve st_run_job : frame.

Lemma st_fire t : ok (fire t).
Proof. unfold fire. go. Qed.
Local Hint Resolve st_fire : frame.

Lemma st_run t rnd : ok (run t rnd).
Proof. unfold run. go. Qed.
Local Hint Resolve st_run : frame.

End StaleTransport.

(** A callback of a transport that is not the socket's does nothing. *)
Lemma guarded_callbacks_idle (s : BeamSocket) (w : handle) :
  ws s <> Some w ->
  on_open w s = Ok tt s
  /\ (forall data binary, on_message w data binary s = Ok tt s)
  /\ (forall rnd, on_close w rnd s = Ok tt s)
  /\ (forall err, on_error w err s = Ok tt s).
Proof.
  intros Hw.
  unfold on_open, on_message, on_close, on_error, whilstSameSocket. cbn.
  destruct (decide (ws s = Some w)); done.
Qed.

(** C8. Each of the four callbacks boot registers on a transport first
    compares that transport with the socket's, and does nothing when they
    differ: the state after is the state before, in every field.  Once
    boot has run, every transport created before it is no longer the
    socket's, and stays so whatever tasks run afterwards (boot always
    installs a new transport); so its open, message, close and error
    events never change the state (status, spool, replies, timers and the
    rest). *)
Theorem superseded_transport_is_ignored (s : BeamSocket) (w : handle)
    (ts : list (task * Q)) :
  (w < next_handle s)%nat ->
  (forall s0 : BeamSocket,
     ws s0 <> Some w ->
     on_open w s0 = Ok tt s0
     /\ (forall data binary, on_message w data binary s0 = Ok tt s0)
     /\ (forall rnd, on_close w rnd s0 = Ok tt s0)
     /\ (forall err, on_error w err s0 = Ok tt s0))
  /\ let s' := exec ts (state_of (boot s)) in
     ws s' <> Some w
     /\ on_open w s' = Ok tt s'
     /\ (forall data binary, on_message w data binary s' = Ok tt s')
     /\ (forall rnd, on_close w rnd s' = Ok tt s')
     /\ (forall err, on_error w err s' = Ok tt s').
Proof.
  intros Hlt. split; [intros s0; apply guarded_callbacks_idle|]. intros s'.
  assert (Hstale : stale w s').
  { apply (respects_exec (stays_stale w) (stays_stale_refl w)
             (stays_stale_trans w) ts (st_run w)).
    unfold stale. cbn. destruct (_pingTimeoutHandle s); cbn;
      (split; [intros [= Heq]; lia | lia]). }
  destruct Hstale as [Hne _]. split; [done|].
  by apply guarded_callbacks_idle.
Qed.

Lemma superseded_transport_is_ignored_witness :
  let s := state_of (boot (constructor false ["a"; "b"] default_options
                             (Some ThisSocket) (1 # 2))) in
  let s' := exec [(TOpen 1, 0%Q)] (state_of (boot s)) in
  ws s = Some 0 /\ ws s' = Some 1
  /\ on_close 0 (1 # 2) s' = Ok tt s'.
Proof.
  intros s s'.
  destruct (superseded_transport_is_ignored s 0 [(TOpen 1, 0%Q)])
    as (_ & _ & _ & _ & Hc & _); [cbn; lia|].
  split; [reflexivity|]. split; [reflexivity|]. apply Hc.
Defined.

(** ** Re-authentication on unspool *)

Lemma unspool_with_auth (s : BeamSocket) (args : list any) (w : handle) :
  _authpacket s = Some args ->
  ws s = Some w ->
  let id := _callNo s in
  let f := Frame "method" authMethod args id in
  exists s1,
    unspool s = Ok tt s1
    /\ trace s1 = (trace s ++ [WsSend w f; Emit "sent" (PFrame f);
                               SendResolved id])%list
    /\ jobs s1 = (jobs s ++ [JSendDone id])%list
    /\ calls s1 !! id =
         Some (Pending (CallOptions false None true) KUnspool true false
                 Unsettled Unsettled)
    /\ _replies s1 !! id = Some (MkReply id)
    /\ _spool s1 = _spool s /\ status s1 = status s /\ ws s1 = ws s
    /\ _retries s1 = _retries s.
Proof.
  intros Ha Hw id f. unfold unspool. run_cbn. rewrite Ha.
  unfold call, send, resolve_send, isConnected. run_cbn.
  rewrite orb_true_r. run_cbn. rewrite Hw. run_cbn.
  rewrite lookup_insert_eq. run_cbn.
  eexists. split; [reflexivity|]. run_cbn.
  rewrite <- !app_assoc.
  repeat split; try done.
  - by rewrite lookup_alter_eq, lookup_insert_eq.
  - by rewrite lookup_insert_eq.
Qed.

(** ** What the transitions as written can reach *)

Section Unflushed.

Local Abbreviation ok := (respects (unflushed)).


Lemma unflushed_refl s : unflushed s s.
Proof. split; [done|]. exists []. by rewrite app_nil_r. Qed.
Lemma unflushed_trans s1 s2 s3 :
  unflushed s1 s2 -> unflushed s2 s3 -> unflushed s1 s3.
Proof.
  intros [H1 [l1 E1]] [H2 [l2 E2]]. split; [tauto|].
  exists (l1 ++ l2)%list. by rewrite E2, E1, app_assoc.
Qed.
Local Hint Resolve unflushed_refl unflushed_trans : frame.

Ltac go := frame ltac:(split; cbn; [done | first [by exists []; rewrite app_nil_r | by eexists]]).

Lemma uf_effect e : ok (effect_ e).
Proof. unfold effect_. go. Qed.
Local Hint Resolve uf_effect : frame.

Lemma uf_enqueue j : ok (enqueue j).
Proof. unfold enqueue. go. Qed.
Local Hint Resolve uf_enqueue : frame.

Lemma uf_setTimeout a d : ok (setTimeout a d).
Proof. intros s. split; cbn; [done|]. exists []. by rewrite app_nil_r. Qed.
Local Hint Resolve uf_setTimeout : frame.

Lemma uf_clearTimeout h : ok (clearTimeout h).
Proof. unfold clearTimeout. go. Qed.
Local Hint Resolve uf_clearTimeout : frame.

Lemma uf_notify n a : ok (notify n a).
Proof. unfold notify. go. Qed.
Local Hint Resolve uf_notify : frame.

Lemma uf_isConnected : ok (isConnected).
Proof. unfold isConnected. go. Qed.
Local Hint Resolve uf_isConnected : frame.

Lemma uf_getAddress : ok (getAddress).
Proof. unfold getAddress. go. Qed.
Local Hint Resolve uf_getAddress : frame.

Lemma uf_interval r : ok (_getNextReconnectInterval r).
Proof. intros s. split; cbn; [done|]. exists []. by rewrite app_nil_r. Qed.
Local Hint Resolve uf_interval : frame.

Lemma uf_handleClose r : ok (_handleClose r).
Proof. unfold _handleClose. go. Qed.
Local Hint Resolve uf_handleClose : frame.

Lemma uf_resetPingTimeout : ok (_resetPingTimeout).
Proof. unfold _resetPingTimeout. go. Qed.
Local Hint Resolve uf_resetPingTimeout : frame.

Lemma uf_resetConnectionTimeout a : ok (_resetConnectionTimeout a).
Proof. unfold _resetConnectionTimeout. go. Qed.
Local Hint Resolve uf_resetConnectionTimeout : frame.

Lemma uf_send d f : ok (send d f).
Proof. unfold send. go. Qed.
Local Hint Resolve uf_send : frame.

Lemma uf_update_call id f : ok (update_call id f).
Proof. unfold update_call. go. Qed.
Local Hint Resolve uf_update_call : frame.

Lemma uf_resolve_send id : ok (resolve_send id).
Proof. unfold resolve_send. go. Qed.
Local Hint Resolve uf_resolve_send : frame.

Lemma uf_settle_reply id r : ok (settle_reply id r).
Proof. unfold settle_reply. go. Qed.
Local Hint Resolve uf_settle_reply : frame.

Lemma uf_call m a o k : ok (call m a o k).
Proof. unfold call. go. Qed.
Local Hint Resolve uf_call : frame.

Lemma uf_close : ok (close).
Proof. unfold close. go. Qed.
Local Hint Resolve uf_close : frame.

Lemma uf_Reply_handle r p : ok (Reply_handle r p).
Proof. unfold Reply_handle. go. Qed.
Local Hint Resolve uf_Reply_handle : frame.

Lemma uf_flush l : ok (flush l).
Proof. induction l; cbn [flush]; go. Qed.
Local Hint Resolve uf_flush : frame.

Lemma uf_bang : ok (bang ThisOther).
Proof. unfold bang. go. Qed.
Local Hint Resolve uf_bang : frame.

Lemma uf_unspool : ok (unspool).
Proof. unfold unspool. go. Qed.
Local Hint Resolve uf_unspool : frame.

Lemma uf_welcome n : ok (welcome n).
Proof. induction n; cbn [welcome]; go. Qed.
Local Hint Resolve uf_welcome : frame.

Lemma uf_authresult n v : ok (authresult n v).
Proof. induction n; cbn [authresult]; go. Qed.
Local Hint Resolve uf_authresult : frame.

Lemma uf_emit n a : ok (emit n a).
Proof. unfold emit. go. Qed.
Local Hint Resolve uf_emit : frame.

Lemma uf_parsePacket d b : ok (parsePacket d b).
Proof. unfold parsePacket. go. Qed.
Local Hint Resolve uf_parsePacket : frame.

Lemma uf_auth i u k : ok (auth i u k).
Proof. unfold auth. go. Qed.
Local Hint Resolve uf_auth : frame.

Lemma uf_ping_chain w r q : ok (ping_chain w r q).
Proof. unfold ping_chain. go. Qed.
Local Hint Resolve uf_ping_chain : frame.

Lemma uf_ping : ok (ping).
Proof. unfold ping. go. Qed.
Local Hint Resolve uf_ping : frame.

Lemma uf_boot : ok (boot).
Proof. unfold boot. go. Qed.
Local Hint Resolve uf_boot : frame.

Lemma uf_on_open w : ok (on_open w).
Proof. unfold on_open, whilstSameSocket. go. Qed.
Local Hint Resolve uf_on_open : frame.

Lemma uf_on_message w d b : ok (on_message w d b).
Proof. unfold on_message, whilstSameSocket. go. Qed.
Local Hint Resolve uf_on_message : frame.

Lemma uf_on_close w r : ok (on_close w r).
Proof. unfold on_close, whilstSameSocket. go. Qed.
Local Hint Resolve uf_on_close : frame.

Lemma uf_on_error w e : ok (on_error w e).
Proof. unfold on_error, whilstSameSocket. go. Qed.
Local Hint Resolve uf_on_error : frame.

Lemma uf_on_pong w : ok (on_pong w).
Proof. intros s. unfold on_pong, modify. cbn. destruct (pong_probes w 0 (probes s)). split; cbn; [done|]. exists []. by rewrite app_nil_r. Qed.
Local Hint Resolve uf_on_pong : frame.

Lemma uf_settle_call id r : ok (settle_call id r).
Proof. unfold settle_call. go. Qed.
Local Hint Resolve uf_settle_call : frame.

Lemma uf_after_send id : ok (after_send id).
Proof. unfold after_send. go. Qed.
Local Hint Resolve uf_after_send : frame.

Lemma uf_auth_failed : ok (auth_failed).
Proof. unfold auth_failed. go. Qed.
Local Hint Resolve uf_auth_failed : frame.

Lemma uf_update_probe k r : ok (update_probe k r).
Proof. unfold update_probe. go. Qed.
Local Hint Resolve uf_update_probe : frame.

Lemma uf_run_job j r : ok (run_job j r).
Proof. unfold run_job. go. Qed.
Local Hint Resolve uf_run_job : frame.

Lemma uf_fire t : ok (fire t).
Proof. unfold fire. go. Qed.
Local Hint Resolve uf_fire : frame.

Lemma uf_run t rnd : ok (run t rnd).
Proof. unfold run. go. Qed.
Local Hint Resolve uf_run : frame.

End Unflushed.

(** No sequence of tasks flushes the spool or reaches CONNECTED. *)
Lemma exec_unflushed (ts : list (task * Q)) (s : BeamSocket) :
  unflushed s (exec ts s).
Proof.
  apply respects_exec.
  - apply unflushed_refl.
  - apply unflushed_trans.
  - apply uf_run.
Qed.

Lemma auth_failed_eq (s : BeamSocket) :
  auth_failed s =
    match ws s with
    | Some w =>
        Ok tt (set_status CLOSING
                 (set_trace
                    (trace s ++ [Emit "error" (PError (AuthenticationFailedError "?"));
                                 WsClose w]) s))
    | None =>
        Ok tt (set_status CLOSED
                 (set_timers (cleared (_reconnectTimeout s) (timers s))
                    (set_trace
                       (trace s ++ [Emit "error" (PError (AuthenticationFailedError "?"))])
                       s)))
    end.
Proof.
  unfold auth_failed, close, cleared. run_cbn.
  destruct (ws s) as [w|]; run_cbn.
  - by rewrite <- app_assoc.
  - by destruct (_reconnectTimeout s).
Qed.

Lemma settle_call_rejected (s : BeamSocket) (id : nat) (c : pending) (e : error) :
  calls s !! id = Some c ->
  c_result c = Unsettled ->
  exists s',
    settle_call id (Rejected e) s = Ok tt s'
    /\ trace s' = (trace s ++ [CallSettled id (Rejected e)])%list
    /\ jobs s' = (jobs s ++ [JCont (c_cont c) (Rejected e)])%list
    /\ calls s' !! id = Some (with_result (Rejected e) c)
    /\ _replies s' =
         (if instanceof_TimeoutError e then delete id (_replies s) else _replies s)
    /\ _spool s' = _spool s /\ status s' = status s /\ ws s' = ws s.
Proof.
  intros Hc Hr. unfold settle_call. run_cbn. rewrite Hc, Hr. run_cbn.
  destruct (instanceof_TimeoutError e); run_cbn;
    (eexists; split; [reflexivity|]; run_cbn);
    by rewrite lookup_alter_eq, Hc.
Qed.

Lemma stays_unflushed (s : BeamSocket) (sp : list spooled)
    (ts : list (task * Q)) :
  status s <> CONNECTED ->
  _spool s = sp ->
  status (exec ts s) <> CONNECTED
  /\ exists l, _spool (exec ts s) = (sp ++ l)%list.
Proof. intros H <-. destruct (exec_unflushed ts s) as [H1 H2]. auto. Qed.

(** C3, with a failing input.  With an authentication tuple saved and a
    transport in place, unspool sends the auth call at once (forced,
    whatever the status), touching neither the spool nor the status.  When
    the promise of that call rejects, its bookkeeping queues the reaction
    of the unspool chain, which skips both [then] steps and reaches the
    [catch]; the [catch] emits one error notification carrying
    AuthenticationFailedError and calls close.  The spool is as it was,
    bang is not queued, and no later task makes the status CONNECTED.
    Without a transport close sets the status to CLOSED directly; with the
    transport in place it asks the transport to close and sets CLOSING, and
    CLOSED is left to the close callback of that transport.  That callback
    is applied to the free variable [self]: where [self] is unbound (Node)
    it throws a ReferenceError, where it is another object (the window of
    a browser) it throws a TypeError, and the socket is left exactly as it
    was, with status CLOSING.  Only with [self] bound to the socket itself
    does the close event give CLOSED. *)
Theorem reauthentication_failure_stays_closing (s : BeamSocket)
    (args : list any) (w : handle) :
  _authpacket s = Some args ->
  ws s = Some w ->
  let id := _callNo s in
  let f := Frame "method" authMethod args id in
  (exists s1,
      unspool s = Ok tt s1
      /\ trace s1 = (trace s ++ [WsSend w f; Emit "sent" (PFrame f);
                                 SendResolved id])%list
      /\ calls s1 !! id =
           Some (Pending (CallOptions false None true) KUnspool true false
                   Unsettled Unsettled)
      /\ _spool s1 = _spool s /\ status s1 = status s)
  /\ (forall (s2 : BeamSocket) (c : pending) (e : error),
        calls s2 !! id = Some c -> c_cont c = KUnspool ->
        c_result c = Unsettled ->
        exists s3,
          settle_call id (Rejected e) s2 = Ok tt s3
          /\ trace s3 = (trace s2 ++ [CallSettled id (Rejected e)])%list
          /\ jobs s3 = (jobs s2 ++ [JCont KUnspool (Rejected e)])%list
          /\ _spool s3 = _spool s2 /\ status s3 = status s2)
  /\ (forall (s4 : BeamSocket) (e : error) (rnd : Q),
        run_job (JCont KUnspool (Rejected e)) rnd s4 =
          Ok tt (set_jobs (jobs s4 ++ [JAuthCatch e]) s4))
  /\ (forall (s5 : BeamSocket) (e : error) (rnd : Q),
        exists s6,
          run_job (JAuthCatch e) rnd s5 = Ok tt s6
          /\ trace s6 =
               (trace s5
                ++ Emit "error" (PError (AuthenticationFailedError "?"))
                   :: match ws s5 with Some w' => [WsClose w'] | None => [] end)%list
          /\ status s6 = match ws s5 with Some _ => CLOSING | None => CLOSED end
          /\ _spool s6 = _spool s5 /\ jobs s6 = jobs s5 /\ ws s6 = ws s5
          /\ (forall w' rnd',
                ws s5 = Some w' ->
                (global_self s5 = None ->
                   on_close w' rnd' s6 =
                     Throw (ReferenceError "self is not defined") s6)
                /\ (global_self s5 = Some ThisOther ->
                     on_close w' rnd' s6 =
                       Throw (TypeError
                                "Cannot read property 'apply' of undefined") s6)
                /\ (global_self s5 <> Some ThisSocket ->
                     status (state_of (on_close w' rnd' s6)) = CLOSING)
                /\ (global_self s5 = Some ThisSocket ->
                     status (state_of (on_close w' rnd' s6)) = CLOSED))
          /\ (forall ts, status (exec ts s6) <> CONNECTED
                         /\ exists l, _spool (exec ts s6) = (_spool s5 ++ l)%list)).
Proof.
  intros Ha Hw id f. split; [|split; [|split]].
  - destruct (unspool_with_auth s args w Ha Hw)
      as (s1 & H1 & H2 & _ & H3 & _ & H4 & H5 & _).
    by exists s1.
  - intros s2 c e Hc Hk Hr.
    destruct (settle_call_rejected s2 id c e Hc Hr)
      as (s3 & H1 & H2 & H3 & _ & _ & H4 & H5 & _).
    exists s3. by rewrite Hk in H3.
  - done.
  - intros s5 e rnd. cbn [run_job]. rewrite auth_failed_eq.
    destruct (ws s5) as [w'|] eqn:Hws; eexists; (split; [reflexivity|]).
    + cbn [trace status _spool jobs ws set_status set_trace].
      rewrite Hws. do 5 (split; [done|]). split.
      * intros w'' rnd' [= <-].
        set (s6 := set_status CLOSING _).
        assert (Hws6 : ws s6 = Some w') by done.
        assert (Hself6 : global_self s6 = global_self s5) by done.
        split; [|split; [|split]]; intros Hself.
        -- apply on_close_self_unbound; [done|]. by rewrite Hself6.
        -- apply on_close_self_other; [done|]. by rewrite Hself6.
        -- destruct (global_self s5) as [[]|] eqn:E; [done| |].
           ++ by rewrite on_close_self_other by (done || by rewrite Hself6).
           ++ by rewrite on_close_self_unbound by (done || by rewrite Hself6).
        -- rewrite on_close_self_socket by (done || by rewrite Hself6).
           by rewrite _handleClose_closing.
      * intros ts. by apply stays_unflushed.
    + cbn [trace status _spool jobs ws set_status set_trace set_timers].
      rewrite Hws. do 5 (split; [done|]). split.
      * by intros w' rnd'.
      * intros ts. by apply stays_unflushed.
Qed.

(** The failing input, where [self] is unbound and where it is another
    object: auth saves the tuple, boot opens transport 0, the welcome
    event runs unspool, the server denies the auth call, the catch emits
    the error and closes, and transport 0 reports its closure.  The status
    is CLOSING, not CLOSED, and transport 0 is still the active one. *)
Lemma reauthentication_failure_stays_closing_witness :
  let welcome_event :=
    JsonValue (Packet None (Some "event") "WelcomeEvent" undefined None) in
  let denied :=
    JsonValue (Packet (Some 0) (Some "reply") "" undefined (Some (str "denied"))) in
  let run_from env :=
    exec [(TParsePacket welcome_event false, 0%Q); (TMicrotask, 0%Q);
          (TParsePacket denied false, 0%Q); (TMicrotask, 0%Q);
          (TMicrotask, 0%Q); (TMicrotask, 0%Q); (TWsClose 0, 0%Q)]
      (exec [(TAuth 1 2 "k", 0%Q); (TBoot, 0%Q)]
         (constructor false ["a"] default_options env (1 # 2))) in
  (exists s1,
      unspool (exec [(TAuth 1 2 "k", 0%Q); (TBoot, 0%Q)]
                 (constructor false ["a"] default_options None (1 # 2)))
        = Ok tt s1
      /\ status s1 = CONNECTING)
  /\ (status (run_from None) = CLOSING /\ ws (run_from None) = Some 0)
  /\ (status (run_from (Some ThisOther)) = CLOSING
      /\ ws (run_from (Some ThisOther)) = Some 0)
  /\ last (trace (run_from None)) = Some (WsClose 0).
Proof.
  intros welcome_event denied run_from.
  split; [|by vm_compute].
  destruct (reauthentication_failure_stays_closing
              (exec [(TAuth 1 2 "k", 0%Q); (TBoot, 0%Q)]
                 (constructor false ["a"] default_options None (1 # 2)))
              [num 1; num 2; str "k"] 0 eq_refl eq_refl)
    as [(s1 & H1 & _ & _ & _ & H3) _].
  exists s1. split; [exact H1|]. by rewrite H3.
Defined.

(** ** The spool *)

Lemma sends_app (tr1 tr2 : list effect) :
  sends (tr1 ++ tr2) = (sends tr1 ++ sends tr2)%list.
Proof.
  induction tr1 as [|e tr1 IH]; [done|].
  destruct e; cbn; by rewrite ?IH.
Qed.

(** While the status is not CONNECTED, an unforced send of a frame that is
    not the authentication frame appends it to the spool with its
    completion signal and emits spooled; nothing goes to the transport and
    the promise stays pending. *)
Lemma send_spools (s : BeamSocket) (data : frame) :
  status s <> CONNECTED ->
  f_method data <> authMethod ->
  send data false s =
    Ok false (set_trace (trace s ++ [Emit "spooled" (PFrame data)])
                (set_spool (_spool s ++ [Spooled data (f_id data)]) s)).
Proof.
  intros Hst Hm. unfold send, isConnected. run_cbn.
  rewrite bool_decide_eq_false_2 by done. run_cbn.
  by rewrite bool_decide_eq_true_2.
Qed.

Lemma send_forced (s : BeamSocket) (data : frame) (w : handle) :
  ws s = Some w ->
  send data true s =
    Ok true (set_trace (trace s ++ [WsSend w data; Emit "sent" (PFrame data)]) s).
Proof.
  intros Hw. unfold send, isConnected. run_cbn.
  rewrite orb_true_r. run_cbn. rewrite Hw. run_cbn.
  by rewrite <- app_assoc.
Qed.

Lemma resolve_send_frame (id : nat) (s : BeamSocket) :
  exists s',
    resolve_send id s = Ok tt s'
    /\ ws s' = ws s /\ status s' = status s /\ _spool s' = _spool s
    /\ sends (trace s') = sends (trace s).
Proof.
  unfold resolve_send. run_cbn.
  destruct (calls s !! id) as [c|]; [|by eexists].
  destruct (c_send c); [by eexists|]. run_cbn.
  eexists. split; [reflexivity|]. run_cbn.
  rewrite sends_app. cbn. by rewrite app_nil_r.
Qed.

(** The loop of bang, run with a transport in place, hands the spooled
    frames to the transport in spool order. *)
Lemma flush_in_order (l : list spooled) : forall (s : BeamSocket) (w : handle),
  ws s = Some w ->
  exists s',
    flush l s = Ok tt s'
    /\ ws s' = ws s /\ status s' = status s /\ _spool s' = _spool s
    /\ sends (trace s') = (sends (trace s) ++ map sp_data l)%list.
Proof.
  induction l as [|e l IH]; intros s w Hw.
  - exists s. cbn. by rewrite app_nil_r.
  - cbn [flush]. rewrite bind_eq, (send_forced s _ w Hw).
    set (s1 := set_trace _ _).
    destruct (resolve_send_frame (sp_resolve e) s1)
      as (s2 & E2 & Hw2 & Hst2 & Hsp2 & Htr2).
    rewrite bind_eq, E2.
    destruct (IH s2 w) as (s3 & E3 & Hw3 & Hst3 & Hsp3 & Htr3).
    { by rewrite Hw2. }
    exists s3. split; [done|].
    rewrite Hw3, Hw2, Hst3, Hst2, Hsp3, Hsp2, Htr3, Htr2. subst s1. cbn.
    rewrite !sends_app. cbn. by rewrite <- app_assoc.
Qed.

(** X3. What bang does when its receiver is the socket: the whole spool
    goes to the transport in FIFO order, and only then is the status
    CONNECTED, the retry counter zero and connected emitted. *)
Lemma bang_with_receiver (s : BeamSocket) (w : handle) :
  ws s = Some w ->
  exists s',
    bang ThisSocket s = Ok tt s'
    /\ sends (trace s') = (sends (trace s) ++ map sp_data (_spool s))%list
    /\ last (trace s') = Some (Emit "connected" PNone)
    /\ _spool s' = [] /\ status s' = CONNECTED /\ _retries s' = 0.
Proof.
  intros Hw. unfold bang. cbn [bind get].
  destruct (flush_in_order (_spool s) s w Hw) as (s1 & E & _ & _ & _ & Htr).
  rewrite E.
  run_cbn. eexists. split; [reflexivity|]. run_cbn.
  rewrite sends_app, Htr, last_snoc. cbn. by rewrite app_nil_r.
Qed.

(** What bang does as it is called: [bang()] and [.then(bang)] give it no
    receiver, so reading [this._spool] throws before anything is flushed. *)
Lemma unspool_without_auth_throws (s : BeamSocket) :
  _authpacket s = None ->
  unspool s = Throw (TypeError "Cannot read property '_spool' of undefined") s.
Proof. intros Ha. unfold unspool. run_cbn. by rewrite Ha. Qed.

Lemma then_bang_throws (s : BeamSocket) (rnd : Q) :
  run_job JBang rnd s =
    Ok tt (set_jobs
             (jobs s ++ [JAuthCatch
                (TypeError "Cannot read property '_spool' of undefined")]) s).
Proof. reflexivity. Qed.

(** ** Inbound frames *)

Section ParsePacketStatus.

Local Abbreviation ok := (respects (same_status)).


Lemma same_status_refl s : same_status s s.
Proof. done. Qed.
Lemma same_status_trans s1 s2 s3 :
  same_status s1 s2 -> same_status s2 s3 -> same_status s1 s3.
Proof. unfold same_status. congruence. Qed.
Local Hint Resolve same_status_refl same_status_trans : frame.

Ltac go := frame ltac:(done).

Lemma ss_effect e : ok (effect_ e).
Proof. unfold effect_. go. Qed.
Local Hint Resolve ss_effect : frame.

Lemma ss_enqueue j : ok (enqueue j).
Proof. unfold enqueue. go. Qed.
Local Hint Resolve ss_enqueue : frame.

Lemma ss_setTimeout a d : ok (setTimeout a d).
Proof. intros s. done. Qed.
Local Hint Resolve ss_setTimeout : frame.

Lemma ss_clearTimeout h : ok (clearTimeout h).
Proof. unfold clearTimeout. go. Qed.
Local Hint Resolve ss_clearTimeout : frame.

Lemma ss_notify n a : ok (notify n a).
Proof. unfold notify. go. Qed.
Local Hint Resolve ss_notify : frame.

Lemma ss_isConnected : ok (isConnected).
Proof. unfold isConnected. go. Qed.
Local Hint Resolve ss_isConnected : frame.

Lemma ss_resetPingTimeout : ok (_resetPingTimeout).
Proof. unfold _resetPingTimeout. go. Qed.
Local Hint Resolve ss_resetPingTimeout : frame.

Lemma ss_send d f : ok (send d f).
Proof. unfold send. go. Qed.
Local Hint Resolve ss_send : frame.

Lemma ss_update_call id f : ok (update_call id f).
Proof. unfold update_call. go. Qed.
Local Hint Resolve ss_update_call : frame.

Lemma ss_resolve_send id : ok (resolve_send id).
Proof. unfold resolve_send. go. Qed.
Local Hint Resolve ss_resolve_send : frame.

Lemma ss_settle_reply id r : ok (settle_reply id r).
Proof. unfold settle_reply. go. Qed.
Local Hint Resolve ss_settle_reply : frame.

Lemma ss_call m a o k : ok (call m a o k).
Proof. unfold call. go. Qed.
Local Hint Resolve ss_call : frame.

Lemma ss_Reply_handle r p : ok (Reply_handle r p).
Proof. unfold Reply_handle. go. Qed.
Local Hint Resolve ss_Reply_handle : frame.

Lemma ss_bang : ok (bang ThisOther).
Proof. unfold bang. go. Qed.
Local Hint Resolve ss_bang : frame.

Lemma ss_unspool : ok (unspool).
Proof. unfold unspool. go. Qed.
Local Hint Resolve ss_unspool : frame.

Lemma ss_welcome n : ok (welcome n).
Proof. induction n; cbn [welcome]; go. Qed.
Local Hint Resolve ss_welcome : frame.

Lemma ss_authresult n v : ok (authresult n v).
Proof. induction n; cbn [authresult]; go. Qed.
Local Hint Resolve ss_authresult : frame.

Lemma ss_emit n a : ok (emit n a).
Proof. unfold emit. go. Qed.
Local Hint Resolve ss_emit : frame.

Lemma ss_parsePacket d b : ok (parsePacket d b).
Proof. unfold parsePacket. go. Qed.
Local Hint Resolve ss_parsePacket : frame.

End ParsePacketStatus.

(** C2, at a failing input.  A call made before the connection is up is
    spooled.  When the welcome event then arrives on the open transport,
    the welcome listener runs unspool, and unspool calls [bang()] without
    a receiver: reading [this._spool] throws.  The frame is still in the
    spool, nothing has been sent, the status is still CONNECTING, and no
    later task flushes the spool or makes the status CONNECTED. *)
Theorem spool_is_not_flushed_on_welcome :
  let whisper := Frame "method" "whisper" [str "bob"; str "hi"] 0 in
  let welcome_event :=
    JsonValue (Packet None (Some "event") "WelcomeEvent" undefined None) in
  let s := exec [(TCall "whisper" [str "bob"; str "hi"] no_options, 0%Q);
                 (TBoot, 0%Q); (TOpen 0, 0%Q)]
             (constructor false ["a"; "b"] default_options (Some ThisSocket) (1 # 2)) in
  _spool s = [Spooled whisper 0]
  /\ In (Emit "spooled" (PFrame whisper)) (trace s)
  /\ exists s',
      run (TMessage 0 welcome_event false) 0%Q s =
        Throw (TypeError "Cannot read property '_spool' of undefined") s'
      /\ _spool s' = [Spooled whisper 0]
      /\ sends (trace s') = []
      /\ status s' = CONNECTING
      /\ forall ts,
          status (exec ts s') <> CONNECTED
          /\ exists l, _spool (exec ts s') = Spooled whisper 0 :: l.
Proof.
  intros whisper welcome_event s.
  split; [by vm_compute|]. split; [vm_compute; tauto|].
  exists (state_of (run (TMessage 0 welcome_event false) 0%Q s)).
  split; [vm_compute; reflexivity|].
  split; [by vm_compute|]. split; [by vm_compute|]. split; [by vm_compute|].
  intros ts.
  destruct (stays_unflushed (state_of (run (TMessage 0 welcome_event false) 0%Q s))
              [Spooled whisper 0] ts) as [H1 [l H2]]; [by vm_compute..|].
  split; [done|]. by exists l.
Qed.

Lemma parsePacket_no_handler (s : BeamSocket) (p : packet) :
  p_type p = Some "reply" -> p_id p ≫= (_replies s !!.) = None ->
  parsePacket (JsonValue p) false s =
    Ok tt (set_trace (trace s ++
             [Emit "packet" (PPacket (Some p));
              Emit "error" (PError
                (NoMethodHandlerError "No handler for reply ID."))]) s).
Proof.
  intros H1 H2. unfold parsePacket. run_cbn.
  rewrite decide_True by done. run_cbn. rewrite H2. run_cbn.
  by rewrite <- app_assoc.
Qed.

(** C6, with a failing input.  A binary frame, a frame that is not JSON,
    and an envelope whose type is neither reply nor event each add one
    error notification with a BadMessageError and change nothing else; a
    reply whose id has no handler adds one error notification with a
    NoMethodHandlerError and changes nothing else; and no frame changes the
    status.  But the frame whose text is [null] parses, and reading its
    type throws a TypeError out of parsePacket. *)
Theorem parsePacket_malformed_frames (s : BeamSocket) :
  (forall data,
      parsePacket data true s =
        Ok tt (set_trace (trace s ++ [Emit "error" (PError
                 (BadMessageError "Cannot parse binary packets. Wat."))]) s))
  /\ (forall text,
        parsePacket (NotJson text) false s =
          Ok tt (set_trace (trace s ++ [Emit "error" (PError
                   (BadMessageError "Unable to parse packet as json"))]) s))
  /\ (forall p,
        p_type p <> Some "reply" -> p_type p <> Some "event" ->
        parsePacket (JsonValue p) false s =
          Ok tt (set_trace (trace s ++
                   [Emit "packet" (PPacket (Some p));
                    Emit "error" (PError (BadMessageError
                      ("Unknown packet type " +:+ default "undefined" (p_type p))))]) s))
  /\ (forall p,
        p_type p = Some "reply" -> p_id p ≫= (_replies s !!.) = None ->
        parsePacket (JsonValue p) false s =
          Ok tt (set_trace (trace s ++
                   [Emit "packet" (PPacket (Some p));
                    Emit "error" (PError
                      (NoMethodHandlerError "No handler for reply ID."))]) s))
  /\ (forall data binary,
        status (state_of (parsePacket data binary s)) = status s)
  /\ parsePacket JsonNull false s =
       Throw (TypeError "Cannot read property 'type' of null")
         (set_trace (trace s ++ [Emit "packet" (PPacket None)]) s).
Proof.
  split; [done|]. split; [done|]. split; [|split; [|split; [|done]]].
  - intros p H1 H2. unfold parsePacket. run_cbn.
    rewrite !decide_False by done. run_cbn. by rewrite <- app_assoc.
  - intros p H1 H2. by apply parsePacket_no_handler.
  - intros data binary. apply (ss_parsePacket data binary s).
Qed.

(** ** Call and reply correlation *)

Section CallRegistry.

Local Open Scope nat_scope.

Lemma settlements_app (id : nat) (tr1 tr2 : list effect) :
  settlements id (tr1 ++ tr2) = (settlements id tr1 ++ settlements id tr2)%list.
Proof.
  induction tr1 as [|e tr1 IH]; [done|].
  destruct e; cbn; rewrite ?IH; try done. by destruct (decide _).
Qed.

Lemma from_reply_app (id : nat) (r : slot) (tr1 tr2 : list effect) :
  from_reply id r tr1 -> from_reply id r (tr1 ++ tr2).
Proof.
  intros (p & Hin & H). exists p. split; [|done].
  apply in_or_app. by left.
Qed.

Lemma racer_ok_app (id : nat) (r : slot) (tr1 tr2 : list effect) :
  racer_ok id r tr1 -> racer_ok id r (tr1 ++ tr2).
Proof. intros [H|H]; [by left|right]. by apply from_reply_app. Qed.

Lemma result_ok_app (c : pending) (id : nat) (r : slot) (tr1 tr2 : list effect) :
  result_ok c id r tr1 -> result_ok c id r (tr1 ++ tr2).
Proof.
  intros [H|H]; [by left|right]. by apply racer_ok_app.
Qed.

Variables (cs : gmap nat pending) (rs : gmap nat Reply) (n : nat)
  (js : list job) (tr : list effect).
Hypothesis Hinv : view_inv cs rs n js tr.

Lemma vi_trace (e : effect) :
  not_settlement e -> view_inv cs rs n js (tr ++ [e]).
Proof.
  intros He. destruct Hinv as [H1 H2 H3 H4 H5 H6]. split; try done.
  - intros id c Hc Hr. apply from_reply_app; eauto.
  - intros id. rewrite settlements_app, H4.
    destruct e; cbn; try by rewrite app_nil_r. done.
  - intros id c Hc Hr. apply result_ok_app; eauto.
  - intros id r Hin. apply racer_ok_app; eauto.
Qed.

Lemma vi_job (j : job) :
  (forall id r, j = JRace id r -> racer_ok id r tr) ->
  view_inv cs rs n (js ++ [j]) tr.
Proof.
  intros Hj. destruct Hinv as [H1 H2 H3 H4 H5 H6]. split; try done.
  intros id r [Hin|[Heq|[]]]%in_app_or; eauto.
Qed.

Lemma vi_job_other (j : job) : not_racer j -> view_inv cs rs n (js ++ [j]) tr.
Proof. intros Hj. apply vi_job. intros id r ->. done. Qed.

Lemma vi_jobs_sub (js' : list job) :
  (forall j, In j js' -> In j js) -> view_inv cs rs n js' tr.
Proof.
  intros Hsub. destruct Hinv as [H1 H2 H3 H4 H5 H6]. split; try done.
  intros id r Hin. eauto.
Qed.

Lemma vi_alter (f : pending -> pending) (id : nat) :
  keeps_promises f -> view_inv (alter f id cs) rs n js tr.
Proof.
  intros Hf. destruct Hinv as [H1 H2 H3 H4 H5 H6]. split; try done.
  - intros i c. destruct (decide (i = id)) as [->|Hne].
    + rewrite lookup_alter_eq. destruct (cs !! id) eqn:E; [|done]. eauto.
    + rewrite lookup_alter_ne by done. eauto.
  - intros i c. destruct (decide (i = id)) as [->|Hne].
    + rewrite lookup_alter_eq. destruct (cs !! id) as [c0|] eqn:E; [|done].
      intros [= <-]. destruct (Hf c0) as (_ & -> & _). eauto.
    + rewrite lookup_alter_ne by done. eauto.
  - intros i. rewrite H4. destruct (decide (i = id)) as [->|Hne].
    + rewrite lookup_alter_eq. destruct (cs !! id) as [c0|] eqn:E; [|done].
      cbn. by destruct (Hf c0) as (_ & _ & ->).
    + by rewrite lookup_alter_ne.
  - intros i c. destruct (decide (i = id)) as [->|Hne].
    + rewrite lookup_alter_eq. destruct (cs !! id) as [c0|] eqn:E; [|done].
      intros [= <-]. destruct (Hf c0) as (Ho & _ & Hr). rewrite Hr.
      intros Hs. specialize (H5 id c0 E Hs). unfold result_ok in *.
      by rewrite Ho.
    + rewrite lookup_alter_ne by done. eauto.
Qed.

Lemma vi_replies_insert (id : nat) :
  view_inv cs (<[id := MkReply id]> rs) n js tr.
Proof.
  destruct Hinv as [H1 H2 H3 H4 H5 H6]. split; try done.
  intros k r. destruct (decide (k = id)) as [->|Hne].
  - rewrite lookup_insert_eq. by intros [= <-].
  - rewrite lookup_insert_ne by done. eauto.
Qed.

Lemma vi_replies_delete (id : nat) : view_inv cs (delete id rs) n js tr.
Proof.
  destruct Hinv as [H1 H2 H3 H4 H5 H6]. split; try done.
  intros k r Hk. apply lookup_delete_Some in Hk as [_ Hk]. eauto.
Qed.

Lemma vi_call_insert (o : call_options) (k : cont) :
  view_inv (<[n := Pending o k false false Unsettled Unsettled]> cs)
    rs (S n) js tr.
Proof.
  destruct Hinv as [H1 H2 H3 H4 H5 H6].
  assert (Hnone : cs !! n = None).
  { destruct (cs !! n) eqn:E; [|done]. apply H1 in E. lia. }
  split; try done.
  - intros i c. destruct (decide (i = n)) as [->|Hne].
    + intros _. lia.
    + rewrite lookup_insert_ne by done. intros Hc. apply H1 in Hc. lia.
  - intros i c. destruct (decide (i = n)) as [->|Hne].
    + rewrite lookup_insert_eq. by intros [= <-].
    + rewrite lookup_insert_ne by done. eauto.
  - intros i. rewrite H4. destruct (decide (i = n)) as [->|Hne].
    + by rewrite lookup_insert_eq, Hnone.
    + by rewrite lookup_insert_ne.
  - intros i c. destruct (decide (i = n)) as [->|Hne].
    + rewrite lookup_insert_eq. by intros [= <-].
    + rewrite lookup_insert_ne by done. eauto.
Qed.

Lemma vi_set_reply (id : nat) (c : pending) (r : slot) :
  cs !! id = Some c -> from_reply id r tr ->
  view_inv (alter (with_reply r) id cs) rs n js tr.
Proof.
  intros Hc Hr. destruct Hinv as [H1 H2 H3 H4 H5 H6]. split; try done.
  - intros i c'. destruct (decide (i = id)) as [->|Hne].
    + rewrite lookup_alter_eq, Hc. intros _. eauto.
    + rewrite lookup_alter_ne by done. eauto.
  - intros i c'. destruct (decide (i = id)) as [->|Hne].
    + rewrite lookup_alter_eq, Hc. by intros [= <-].
    + rewrite lookup_alter_ne by done. eauto.
  - intros i. rewrite H4. destruct (decide (i = id)) as [->|Hne].
    + by rewrite lookup_alter_eq, Hc.
    + by rewrite lookup_alter_ne.
  - intros i c'. destruct (decide (i = id)) as [->|Hne].
    + rewrite lookup_alter_eq, Hc. intros [= <-]. cbn. apply (H5 id c Hc).
    + rewrite lookup_alter_ne by done. eauto.
Qed.

Lemma vi_settle (id : nat) (c : pending) (r : slot) :
  cs !! id = Some c -> c_result c = Unsettled -> r <> Unsettled ->
  result_ok c id r tr ->
  view_inv (alter (with_result r) id cs) rs n js (tr ++ [CallSettled id r]).
Proof.
  intros Hc Hu Hr Hok. destruct Hinv as [H1 H2 H3 H4 H5 H6]. split; try done.
  - intros i c'. destruct (decide (i = id)) as [->|Hne].
    + rewrite lookup_alter_eq, Hc. intros _. eauto.
    + rewrite lookup_alter_ne by done. eauto.
  - intros i c'. destruct (decide (i = id)) as [->|Hne].
    + rewrite lookup_alter_eq, Hc. intros [= <-]. cbn.
      intros Hs. apply from_reply_app. eauto.
    + rewrite lookup_alter_ne by done. intros. apply from_reply_app. eauto.
  - intros i. rewrite settlements_app, H4. cbn.
    destruct (decide (id = i)) as [->|Hne].
    + rewrite lookup_alter_eq, Hc. cbn. rewrite Hu. cbn. by destruct r.
    + rewrite lookup_alter_ne by done. by rewrite app_nil_r.
  - intros i c'. destruct (decide (i = id)) as [->|Hne].
    + rewrite lookup_alter_eq, Hc. intros [= <-]. cbn. intros _.
      by apply result_ok_app.
    + rewrite lookup_alter_ne by done. intros. apply result_ok_app. eauto.
  - intros i r' Hin. apply racer_ok_app. eauto.
Qed.

End CallRegistry.
Section CallInvariant.

Local Abbreviation ok := (respects keeps_call_inv).

Lemma keeps_call_inv_refl s : keeps_call_inv s s.
Proof. by intros H. Qed.
Lemma keeps_call_inv_trans s1 s2 s3 :
  keeps_call_inv s1 s2 -> keeps_call_inv s2 s3 -> keeps_call_inv s1 s3.
Proof. unfold keeps_call_inv. tauto. Qed.
Local Hint Resolve keeps_call_inv_refl keeps_call_inv_trans : frame.

Ltac ci_upd :=
  unfold keeps_call_inv, call_inv; cbn -[lookup insert delete alter];
  let H := fresh "Hci" in
  intros H;
  first
    [ exact H
    | apply vi_trace; [exact H | exact I]
    | apply vi_job_other; [exact H | exact I]
    | apply vi_job; [exact H | intros ? ? [= <- <-]; by left]
    | apply vi_alter; [exact H | by intros []]
    | apply vi_replies_insert; exact H
    | apply vi_replies_delete; exact H
    | apply (vi_jobs_sub _ _ _ _ _ H); intros ? ?; apply in_or_app; by left ].
Ltac go := frame ltac:(ci_upd).

Lemma ci_setTimeout a d : ok (setTimeout a d).
Proof. intros s. unfold keeps_call_inv, call_inv. cbn. done. Qed.
Local Hint Resolve ci_setTimeout : frame.

Lemma ci_clearTimeout h : ok (clearTimeout h).
Proof. unfold clearTimeout. go. Qed.
Local Hint Resolve ci_clearTimeout : frame.

Lemma ci_notify n a : ok (notify n a).
Proof. unfold notify. go. Qed.
Local Hint Resolve ci_notify : frame.

Lemma ci_isConnected : ok (isConnected).
Proof. unfold isConnected. go. Qed.
Local Hint Resolve ci_isConnected : frame.

Lemma ci_getAddress : ok (getAddress).
Proof. unfold getAddress. go. Qed.
Local Hint Resolve ci_getAddress : frame.

Lemma ci_interval r : ok (_getNextReconnectInterval r).
Proof. intros s. unfold keeps_call_inv, call_inv. cbn. done. Qed.
Local Hint Resolve ci_interval : frame.

Lemma ci_handleClose r : ok (_handleClose r).
Proof. unfold _handleClose. go. Qed.
Local Hint Resolve ci_handleClose : frame.

Lemma ci_resetPingTimeout : ok (_resetPingTimeout).
Proof. unfold _resetPingTimeout. go. Qed.
Local Hint Resolve ci_resetPingTimeout : frame.

Lemma ci_resetConnectionTimeout a : ok (_resetConnectionTimeout a).
Proof. unfold _resetConnectionTimeout. go. Qed.
Local Hint Resolve ci_resetConnectionTimeout : frame.

Lemma ci_send d f : ok (send d f).
Proof. unfold send. go. Qed.
Local Hint Resolve ci_send : frame.

Lemma ci_resolve_send id : ok (resolve_send id).
Proof. unfold resolve_send. go. Qed.
Local Hint Resolve ci_resolve_send : frame.

Lemma ci_call_rest (f : frame) (force : bool) (id : nat) :
  ok (sent <- send f force ;;
      (if sent : bool then resolve_send id else ret tt) ;;;
      ret id).
Proof. go. Qed.

Lemma ci_call m a o k : ok (call m a o k).
Proof.
  intros s Hci.
  apply (ci_call_rest (Frame "method" m a (_callNo s)) (o_force o) (_callNo s)
           (set_replies (<[_callNo s := MkReply (_callNo s)]> (_replies s))
              (set_calls
                 (<[_callNo s := Pending o k false false Unsettled Unsettled]>
                    (calls s))
                 (set_callNo (S (_callNo s)) s)))).
  unfold call_inv. cbn -[lookup insert delete alter].
  by apply vi_replies_insert, vi_call_insert.
Qed.
Local Hint Resolve ci_call : frame.

Lemma ci_close : ok (close).
Proof. unfold close. go. Qed.
Local Hint Resolve ci_close : frame.

Lemma ci_flush l : ok (flush l).
Proof. induction l; cbn [flush]; go. Qed.
Local Hint Resolve ci_flush : frame.

Lemma ci_bang : ok (bang ThisOther).
Proof. unfold bang. go. Qed.
Local Hint Resolve ci_bang : frame.

Lemma ci_unspool : ok (unspool).
Proof. unfold unspool. go. Qed.
Local Hint Resolve ci_unspool : frame.

Lemma ci_welcome n : ok (welcome n).
Proof. induction n; cbn [welcome]; go. Qed.
Local Hint Resolve ci_welcome : frame.

Lemma ci_authresult n v : ok (authresult n v).
Proof. induction n; cbn [authresult]; go. Qed.
Local Hint Resolve ci_authresult : frame.

Lemma ci_emit n a : ok (emit n a).
Proof. unfold emit. go. Qed.
Local Hint Resolve ci_emit : frame.

Lemma ci_settle_reply (id : nat) (r : slot) (s : BeamSocket) :
  call_inv s -> from_reply id r (trace s) ->
  call_inv (state_of (settle_reply id r s)).
Proof.
  intros Hci Hr. unfold settle_reply. run_cbn.
  destruct (calls s !! id) as [c|] eqn:Hc; [|done].
  destruct (settled (c_reply c)); [done|]. run_cbn.
  pose proof (vi_set_reply _ _ _ _ _ Hci id c r Hc Hr) as H1.
  destruct (c_racing c); run_cbn; [|exact H1].
  unfold call_inv. cbn -[lookup insert delete alter].
  apply vi_job; [exact H1|]. intros ? ? [= <- <-]. by right.
Qed.

Lemma ci_Reply_handle (r : Reply) (p : packet) (s : BeamSocket) :
  call_inv s -> from_reply (reply_promise r) (reply_outcome p) (trace s) ->
  call_inv (state_of (Reply_handle r p s)).
Proof.
  intros Hci Hr. unfold Reply_handle, reply_outcome in *.
  destruct (p_error p); by apply ci_settle_reply.
Qed.

Lemma ci_parsePacket d b : ok (parsePacket d b).
Proof.
  unfold parsePacket. destruct b; [go|].
  destruct (JSON_parse d) as [[p|]|]; [|go..].
  intros s Hci. rewrite bind_eq.
  assert (Hs1 : call_inv (set_trace (trace s ++ [Emit "packet" (PPacket (Some p))]) s)).
  { unfold call_inv. cbn -[lookup insert delete alter].
    by apply vi_trace. }
  change (notify "packet" (PPacket (Some p)) s)
    with (Ok tt (set_trace (trace s ++ [Emit "packet" (PPacket (Some p))]) s)).
  cbv beta iota.
  set (s1 := set_trace _ s) in *.
  destruct (decide (p_type p = Some "reply")) as [Hty|Hty].
  - rewrite bind_eq. cbn [get].
    destruct (p_id p) as [id|] eqn:Hid; cbn [mbind option_bind];
      [|by apply (ci_notify "error" _ s1)].
    destruct (_replies s1 !! id) as [reply|] eqn:Hreply;
      [|by apply (ci_notify "error" _ s1)].
    assert (Hrp : reply_promise reply = id).
    { by apply (vi_replies _ _ _ _ _ Hs1 id reply). }
    assert (H2 : call_inv (state_of (Reply_handle reply p s1))).
    { apply ci_Reply_handle; [done|]. rewrite Hrp. exists p.
      split; [|done]. subst s1. cbn. apply in_or_app. right. by left. }
    rewrite bind_eq. destruct (Reply_handle reply p s1) as [[] s2|e s2]; [|done].
    cbn in H2. cbn -[lookup insert delete alter].
    unfold call_inv. cbn -[lookup insert delete alter].
    by apply vi_replies_delete.
  - destruct (decide (p_type p = Some "event")).
    + by apply (ci_emit (p_event p) (p_data p) s1).
    + by apply (ci_notify "error" _ s1).
Qed.
Local Hint Resolve ci_parsePacket : frame.

Lemma ci_auth i u k : ok (auth i u k).
Proof. unfold auth. go. Qed.
Local Hint Resolve ci_auth : frame.

Lemma ci_ping_chain w r q : ok (ping_chain w r q).
Proof. unfold ping_chain. go. Qed.
Local Hint Resolve ci_ping_chain : frame.

Lemma ci_ping : ok (ping).
Proof. unfold ping. go. Qed.
Local Hint Resolve ci_ping : frame.

Lemma ci_boot : ok (boot).
Proof. unfold boot. go. Qed.
Local Hint Resolve ci_boot : frame.

Lemma ci_on_open w : ok (on_open w).
Proof. unfold on_open, whilstSameSocket. go. Qed.
Local Hint Resolve ci_on_open : frame.

Lemma ci_on_message w d b : ok (on_message w d b).
Proof. unfold on_message, whilstSameSocket. go. Qed.
Local Hint Resolve ci_on_message : frame.

Lemma ci_on_close w r : ok (on_close w r).
Proof. unfold on_close, whilstSameSocket. go. Qed.
Local Hint Resolve ci_on_close : frame.

Lemma ci_on_error w e : ok (on_error w e).
Proof. unfold on_error, whilstSameSocket. go. Qed.
Local Hint Resolve ci_on_error : frame.

Lemma ci_on_pong w : ok (on_pong w).
Proof. 
  intros s Hci. unfold on_pong, modify. cbn.
  destruct (pong_probes w 0 (probes s)) as [ps js] eqn:E.
  unfold call_inv. cbn -[lookup insert delete alter].
  assert (Hjs : forall j, In j js -> not_racer j).
  { clear Hci. revert ps js E. generalize 0 as k. generalize (probes s) as l.
    induction l as [|p l IH]; intros k ps js E; cbn in E.
    - injection E as <- <-. by intros j [].
    - destruct (pong_probes w (S k) l) as [ps' js'] eqn:E'.
      specialize (IH _ _ _ E').
      destruct (bool_decide (pr_ws p = w) && pr_listening p);
        injection E as <- <-; [|done].
      intros j [<-|Hin]; [done|auto]. }
  destruct Hci as [H1 H2 H3 H4 H5 H6]. split; try done.
  intros id r [Hin|Hin]%in_app_or; [eauto|]. by apply Hjs in Hin.
 Qed.
Local Hint Resolve ci_on_pong : frame.

Lemma ci_settle_call (id : nat) (r : slot) (s : BeamSocket) :
  call_inv s ->
  (forall c, calls s !! id = Some c -> result_ok c id r (trace s)) ->
  call_inv (state_of (settle_call id r s)).
Proof.
  intros Hci Hr. unfold settle_call. run_cbn.
  destruct (calls s !! id) as [c|] eqn:Hc; [|done].
  destruct (c_result c) eqn:Hres; cbn [settled]; [|done..].
  specialize (Hr c eq_refl).
  destruct r as [|v|e]; [done| |].
  - run_cbn. unfold call_inv. cbn -[lookup insert delete alter].
    apply vi_job_other; [|exact I].
    by apply (vi_settle _ _ _ _ _ Hci id c).
  - assert (H1 : call_inv
        (if instanceof_TimeoutError e
         then set_replies (delete id (_replies s)) s else s)).
    { destruct (instanceof_TimeoutError e); [|done].
      unfold call_inv. cbn -[lookup insert delete alter].
      by apply vi_replies_delete. }
    destruct (instanceof_TimeoutError e); run_cbn;
      unfold call_inv; cbn -[lookup insert delete alter];
      (apply vi_job_other; [|exact I]);
      by apply (vi_settle _ _ _ _ _ H1 id c).
Qed.

Lemma ci_after_send id : ok (after_send id).
Proof.
  intros s Hci. unfold after_send. run_cbn.
  destruct (calls s !! id) as [c|] eqn:Hc; [|done].
  destruct (o_noReply (c_options c)) eqn:Hno.
  - apply ci_settle_call; [done|]. intros c' Hc'. left.
    rewrite Hc in Hc'. by injection Hc' as <-.
  - run_cbn.
    assert (H1 : view_inv (alter (with_racing true) id (calls s)) (_replies s)
                   (_callNo s) (jobs s) (trace s)).
    { apply vi_alter; [exact Hci|]. by intros []. }
    destruct (c_reply c) eqn:Hrep; run_cbn; unfold call_inv;
      cbn -[lookup insert delete alter]; [exact H1|..];
      (apply vi_job; [exact H1|]); intros ? ? [= <- <-]; right;
      rewrite <- Hrep; apply (vi_reply _ _ _ _ _ Hci id c Hc); by rewrite Hrep.
Qed.
Local Hint Resolve ci_after_send : frame.

Lemma ci_auth_failed : ok (auth_failed).
Proof. unfold auth_failed. go. Qed.
Local Hint Resolve ci_auth_failed : frame.

Lemma ci_update_probe k r : ok (update_probe k r).
Proof. unfold update_probe. go. Qed.
Local Hint Resolve ci_update_probe : frame.

Lemma ci_run_job (j : job) (rnd : Q) (s : BeamSocket) :
  call_inv s ->
  (forall id r, j = JRace id r -> racer_ok id r (trace s)) ->
  call_inv (state_of (run_job j rnd s)).
Proof.
  intros Hci Hj. destruct j as [id|id r|k r| |e|k r].
  - by apply ci_after_send.
  - apply ci_settle_call; [done|]. intros c _. right. by apply Hj.
  - clear Hj. revert s Hci.
    change (ok (run_job (JCont k r) rnd)). unfold run_job. go.
  - clear Hj. revert s Hci.
    change (ok (run_job JBang rnd)). unfold run_job. go.
  - clear Hj. revert s Hci.
    change (ok (run_job (JAuthCatch e) rnd)). unfold run_job. go.
  - clear Hj. revert s Hci.
    change (ok (run_job (JProbe k r) rnd)). unfold run_job. go.
Qed.

Lemma ci_fire t : ok (fire t).
Proof. unfold fire. go. Qed.
Local Hint Resolve ci_fire : frame.

(** Every task keeps the invariant of the call registry. *)
Lemma ci_run t rnd : ok (run t rnd).
Proof.
  destruct t; try solve [unfold run; go].
  intros s Hci. unfold run. rewrite bind_eq. cbn [get].
  destruct (jobs s) as [|j js] eqn:Hjs; [done|].
  rewrite bind_eq. cbn [modify].
  apply ci_run_job.
  - unfold call_inv. cbn -[lookup insert delete alter].
    apply (vi_jobs_sub _ _ _ _ _ Hci). rewrite Hjs. intros j' Hin. by right.
  - intros id r ->. cbn. apply (vi_jobs _ _ _ _ _ Hci). rewrite Hjs. by left.
Qed.

End CallInvariant.

(** *** The promise returned by call *)

Lemma in_settlements (id : nat) (r : slot) (tr : list effect) :
  In (CallSettled id r) tr <-> In r (settlements id tr).
Proof.
  induction tr as [|e tr IH]; [done|]. cbn. destruct e; cbn;
    try (rewrite <- IH; split; [by intros [|]|by right]).
  destruct (decide (id0 = id)) as [->|Hne]; cbn; rewrite <- IH.
  - split; intros [H|H]; [injection H as <-|..]; auto. left. by rewrite H.
  - split; [intros [[= -> ->]|]|]; [done|done|by right].
Qed.

Lemma constructor_call_inv (wsCtor_has_ping : bool) (addresses : list string)
    (opts : Options) (env_self : option receiver) (r : Q) :
  call_inv (constructor wsCtor_has_ping addresses opts env_self r).
Proof. by split. Qed.

Lemma exec_call_inv (ts : list (task * Q)) (s : BeamSocket) :
  call_inv s -> call_inv (exec ts s).
Proof.
  apply (respects_exec keeps_call_inv).
  - apply keeps_call_inv_refl.
  - apply keeps_call_inv_trans.
  - apply ci_run.
Qed.

(** The [then] callback of a call that expects a reply arms the timeout
    with options.timeout, or callTimeout when that is absent or zero, and
    starts the race. *)
Lemma after_send_arms (s : BeamSocket) (id : nat) (c : pending) :
  calls s !! id = Some c ->
  o_noReply (c_options c) = false ->
  exists s',
    after_send id s = Ok tt s'
    /\ timers s' =
         <[next_timer s := (call_delay (c_options c) (options s), ACallTimeout id)]>
           (timers s)
    /\ calls s' !! id = Some (with_racing true c)
    /\ trace s' = trace s /\ _replies s' = _replies s
    /\ jobs s' =
         (jobs s ++ if settled (c_reply c) then [JRace id (c_reply c)] else [])%list.
Proof.
  intros Hc Hno. unfold after_send. run_cbn. rewrite Hc, Hno. run_cbn.
  destruct (settled (c_reply c)); run_cbn;
    (eexists; split; [reflexivity|]); run_cbn;
    rewrite lookup_alter_eq, Hc, ?app_nil_r; done.
Qed.

(** A call whose frame send accepts (forced, or status CONNECTED) goes to
    the transport and has its [then] callback queued. *)
Lemma call_sent (s : BeamSocket) (method : string) (args : list any)
    (opts : call_options) (k : cont) (w : handle) :
  status s = CONNECTED \/ o_force opts = true ->
  ws s = Some w ->
  let id := _callNo s in
  exists s',
    call method args opts k s = Ok id s'
    /\ sends (trace s') = (sends (trace s) ++ [Frame "method" method args id])%list
    /\ jobs s' = (jobs s ++ [JSendDone id])%list
    /\ calls s' !! id = Some (Pending opts k true false Unsettled Unsettled)
    /\ _replies s' !! id = Some (MkReply id)
    /\ timers s' = timers s /\ next_timer s' = next_timer s
    /\ options s' = options s.
Proof.
  intros Hon Hw id. unfold call, send, resolve_send, isConnected. run_cbn.
  assert (bool_decide (status s = CONNECTED) || o_force opts = true) as ->.
  { destruct Hon as [->| ->]; [done|by rewrite orb_true_r]. }
  run_cbn. rewrite Hw. run_cbn. rewrite lookup_insert_eq. run_cbn.
  eexists. split; [reflexivity|]. run_cbn.
  rewrite !sends_app. cbn. rewrite !app_nil_r.
  repeat split; try done.
  - by rewrite lookup_alter_eq, lookup_insert_eq.
  - by rewrite lookup_insert_eq.
Qed.

(** A call made while the status is not CONNECTED, unforced and not the
    authentication call, is spooled: nothing is queued and no timer is
    armed until the spool entry resolves. *)
Lemma call_spooled (s : BeamSocket) (method : string) (args : list any)
    (opts : call_options) (k : cont) :
  status s <> CONNECTED -> o_force opts = false -> method <> authMethod ->
  let id := _callNo s in
  exists s',
    call method args opts k s = Ok id s'
    /\ _spool s' = (_spool s ++ [Spooled (Frame "method" method args id) id])%list
    /\ jobs s' = jobs s /\ timers s' = timers s
    /\ calls s' !! id = Some (Pending opts k false false Unsettled Unsettled)
    /\ _callNo s' = S id /\ status s' = status s
    /\ trace s' =
         (trace s ++ [Emit "spooled" (PFrame (Frame "method" method args id))])%list.
Proof.
  intros Hst Hf Hm id. unfold call, send, isConnected. run_cbn.
  rewrite bool_decide_eq_false_2, Hf by done. run_cbn.
  rewrite bool_decide_eq_true_2 by done. run_cbn.
  eexists. split; [reflexivity|]. run_cbn.
  repeat split; try done. by rewrite lookup_insert_eq.
Qed.

Lemma fire_call_timeout (s : BeamSocket) (t : timer) (d : Z) (id : nat) :
  timers s !! t = Some (d, ACallTimeout id) ->
  fire t s =
    Ok tt (set_jobs (jobs s ++ [JRace id (Rejected TimeoutError)])
             (set_timers (delete t (timers s)) s)).
Proof. intros Ht. unfold fire. run_cbn. by rewrite Ht. Qed.

Lemma step_call (s s' : BeamSocket) (method : string) (args : list any)
    (opts : call_options) (id : nat) (q : Q) :
  call method args opts KUser s = Ok id s' ->
  step s (TCall method args opts, q) = s'.
Proof. intros H. unfold step. cbn [fst snd run]. by rewrite bind_eq, H. Qed.

Lemma step_microtask (s : BeamSocket) (j : job) (js : list job) (q : Q) :
  jobs s = j :: js ->
  step s (TMicrotask, q) = state_of (run_job j q (set_jobs js s)).
Proof.
  intros H. unfold step. cbn [fst snd run].
  by rewrite bind_eq; cbn [get]; rewrite H.
Qed.

Lemma step_microtask_idle (s : BeamSocket) (q : Q) :
  jobs s = [] -> step s (TMicrotask, q) = s.
Proof.
  intros H. unfold step. cbn [fst snd run].
  by rewrite bind_eq; cbn [get]; rewrite H.
Qed.

Lemma step_timer_idle (s : BeamSocket) (t : timer) (q : Q) :
  timers s !! t = None -> step s (TTimer t, q) = s.
Proof.
  intros H. unfold step. cbn [fst snd run]. unfold fire.
  by rewrite bind_eq; cbn [get]; rewrite H.
Qed.

(** X4. Left to time alone, a call that was sent and expects a reply is
    rejected with a TimeoutError: the microtask after the call arms the
    timer, and when the timer fires the next microtask settles the promise
    and removes the reply handler. *)
Lemma sent_call_times_out (s : BeamSocket) (method : string) (args : list any)
    (opts : call_options) (w : handle) :
  jobs s = [] ->
  status s = CONNECTED \/ o_force opts = true ->
  ws s = Some w ->
  o_noReply opts = false ->
  let id := _callNo s in
  let t := next_timer s in
  let s1 := exec [(TCall method args opts, 0%Q); (TMicrotask, 0%Q)] s in
  let s2 := exec [(TTimer t, 0%Q); (TMicrotask, 0%Q)] s1 in
  timers s1 !! t = Some (call_delay opts (options s), ACallTimeout id)
  /\ (exists c, calls s1 !! id = Some c /\ c_result c = Unsettled)
  /\ (exists c, calls s2 !! id = Some c /\ c_result c = Rejected TimeoutError)
  /\ trace s2 = (trace s1 ++ [CallSettled id (Rejected TimeoutError)])%list
  /\ _replies s2 !! id = None.
Proof.
  intros Hj Hon Hw Hno id t s1 s2.
  destruct (call_sent s method args opts KUser w Hon Hw)
    as (sa & Ha & _ & Hja & Hca & _ & Hta & Hna & Hoa).
  rewrite Hj in Hja. cbn in Hja.
  set (c0 := Pending opts KUser true false Unsettled Unsettled) in *.
  destruct (after_send_arms (set_jobs [] sa) id c0 Hca Hno)
    as (sb & Hb & Htb & Hcb & Htrb & Hrb & Hjb).
  cbn [c_reply c0 settled jobs set_jobs app] in Hjb.
  assert (Hs1 : s1 = sb).
  { subst s1. unfold exec. cbn [foldl].
    rewrite (step_call s sa _ _ _ _ _ Ha), (step_microtask sa _ _ _ Hja).
    cbn [run_job]. fold id. by rewrite Hb. }
  cbn [timers set_jobs next_timer options c_options c0] in Htb.
  rewrite Hta, Hna, Hoa in Htb. fold t in Htb.
  assert (Ht1 : timers sb !! t = Some (call_delay opts (options s), ACallTimeout id)).
  { rewrite Htb. apply lookup_insert_eq. }
  set (sc := set_jobs (jobs sb ++ [JRace id (Rejected TimeoutError)])
               (set_timers (delete t (timers sb)) sb)).
  destruct (settle_call_rejected (set_jobs [] sc) id (with_racing true c0)
              TimeoutError Hcb eq_refl)
    as (sd & Hd & Htrd & _ & Hcd & Hrd & _).
  assert (Hs2 : s2 = sd).
  { subst s2. rewrite Hs1. unfold exec. cbn [foldl].
    assert (Hf : step sb (TTimer t, 0%Q) = sc).
    { unfold step. cbn [fst snd run]. by rewrite (fire_call_timeout sb t _ id Ht1). }
    rewrite Hf.
    assert (Hjc : jobs sc = [JRace id (Rejected TimeoutError)]).
    { subst sc. cbn. by rewrite Hjb. }
    rewrite (step_microtask sc _ _ _ Hjc). cbn [run_job]. by rewrite Hd. }
  rewrite Hs1, Hs2. split; [done|]. split; [by exists (with_racing true c0)|].
  split; [by eexists|]. split; [done|].
  rewrite Hrd. cbn. apply lookup_delete_eq.
Qed.




(** * Further properties of the socket *)

(** X1. With the wrap at 7 and a draw in [0, 1), the reconnect interval is
    at least 500 ms and at most 64000 ms, and it only depends on the retry
    counter modulo 7 and on the draw: the (n+7)-th interval is the n-th. *)
Theorem reconnect_interval_bounds (s s2 : BeamSocket) (r : Q) :
  (0 <= r)%Q -> (r < 1)%Q ->
  _retryWrap s = 7 -> _retryWrap s2 = 7 -> _retries s2 = _retries s + 7 ->
  exists d : Z,
    _getNextReconnectInterval r s = Ok d (set_retries (S (_retries s)) s)
    /\ (500 <= d <= 64000)%Z
    /\ _getNextReconnectInterval r s2 = Ok d (set_retries (S (_retries s2)) s2).
Proof.
  intros H0 H1 Hw Hw2 Hn. eexists. split; [apply _getNextReconnectInterval_eq|].
  rewrite Hw. split.
  - pose proof (Math_round_coin r H0 H1) as Hc.
    pose proof (Nat.mod_upper_bound (_retries s) 7 ltac:(lia)) as Hm.
    rewrite shl1_small by lia.
    set (p := (Z.of_nat (_retries s mod 7) + Math_round r)%Z).
    assert (0 <= p <= 7)%Z as Hp by (subst p; lia).
    assert (1 <= 2 ^ p <= 2 ^ 7)%Z; [|lia].
    split.
    + apply (Z.pow_le_mono_r 2 0 p); lia.
    + apply Z.pow_le_mono_r; lia.
  - rewrite _getNextReconnectInterval_eq, Hw2, Hn. do 4 f_equal.
    rewrite <- (Nat.Div0.add_mod_idemp_r _ 7 7), Nat.Div0.mod_same, Nat.add_0_r.
    done.
Qed.

Lemma reconnect_interval_bounds_witness :
  let s := constructor false ["a"] default_options None (1 # 2) in
  exists d : Z,
    _getNextReconnectInterval (3 # 4) s = Ok d (set_retries 1 s)
    /\ (500 <= d <= 64000)%Z
    /\ _getNextReconnectInterval (3 # 4) (set_retries 7 s)
       = Ok d (set_retries 8 (set_retries 7 s)).
Proof.
  intros s.
  assert (H0 : (0 <= 3 # 4)%Q) by (by vm_compute).
  assert (H1 : (3 # 4 < 1)%Q) by (by vm_compute).
  exact (reconnect_interval_bounds s (set_retries 7 s) (3 # 4) H0 H1
           eq_refl eq_refl eq_refl).
Defined.

(** X2. As the transitions are written, a socket whose status is not
    CONNECTED never becomes CONNECTED, whatever tasks run, and no entry ever
    leaves its spool: isConnected stays false and every frame spooled so
    far is still spooled, in the same order. *)
Theorem spool_only_grows (s : BeamSocket) (ts : list (task * Q)) :
  status s <> CONNECTED ->
  let s' := exec ts s in
  isConnected s' = Ok false s'
  /\ exists l, _spool s' = (_spool s ++ l)%list.
Proof.
  intros Hst s'. destruct (exec_unflushed ts s) as [H1 H2].
  split; [|done]. unfold isConnected. cbn.
  by rewrite bool_decide_eq_false_2 by auto.
Qed.

Lemma spool_only_grows_witness :
  let s := constructor false ["a"] default_options (Some ThisSocket) (1 # 2) in
  let s' := exec [(TCall "whisper" [str "hi"] no_options, 0%Q); (TBoot, 0%Q);
                  (TUnspool, 0%Q)] s in
  isConnected s' = Ok false s'
  /\ exists l, _spool s' = ([] ++ l)%list.
Proof.
  intros s s'. apply (spool_only_grows s). by cbn.
Defined.

Lemma bang_with_receiver_witness :
  let s := exec [(TCall "whisper" [str "hi"] no_options, 0%Q);
                 (TCall "vote" [num 1] no_options, 0%Q); (TBoot, 0%Q)]
             (constructor false ["a"] default_options None (1 # 2)) in
  exists s',
    bang ThisSocket s = Ok tt s'
    /\ sends (trace s') =
         [Frame "method" "whisper" [str "hi"] 0; Frame "method" "vote" [num 1] 1]
    /\ status s' = CONNECTED.
Proof.
  intros s.
  destruct (bang_with_receiver s 0 eq_refl) as (s' & H1 & H2 & _ & _ & H3 & _).
  exists s'. split; [exact H1|]. split; [|exact H3].
  rewrite H2. reflexivity.
Defined.

Lemma sent_call_times_out_witness :
  let s := state_of (boot (constructor false ["a"] default_options None (1 # 2))) in
  let opts := CallOptions false (Some 3000%Z) true in
  let s1 := exec [(TCall "whisper" [str "hi"] opts, 0%Q); (TMicrotask, 0%Q)] s in
  let s2 := exec [(TTimer 1, 0%Q); (TMicrotask, 0%Q)] s1 in
  timers s1 !! 1 = Some (3000%Z, ACallTimeout 0)
  /\ trace s2 = (trace s1 ++ [CallSettled 0 (Rejected TimeoutError)])%list.
Proof.
  intros s opts s1 s2.
  destruct (sent_call_times_out s "whisper" [str "hi"] opts 0 eq_refl
              (or_intror eq_refl) eq_refl eq_refl) as (H1 & _ & _ & H2 & _).
  split; [exact H1|exact H2].
Defined.

(** The first settlement of the promise of a call. *)
Lemma settle_call_first (s : BeamSocket) (id : nat) (c : pending) (r : slot) :
  calls s !! id = Some c ->
  c_result c = Unsettled ->
  r <> Unsettled ->
  exists s',
    settle_call id r s = Ok tt s'
    /\ trace s' = (trace s ++ [CallSettled id r])%list
    /\ jobs s' = (jobs s ++ [JCont (c_cont c) r])%list
    /\ calls s' !! id = Some (with_result r c)
    /\ _replies s' =
         (if bool_decide (r = Rejected TimeoutError)
          then delete id (_replies s) else _replies s)
    /\ timers s' = timers s /\ status s' = status s /\ ws s' = ws s
    /\ _spool s' = _spool s.
Proof.
  intros Hc Hu Hr. unfold settle_call. run_cbn. rewrite Hc, Hu. run_cbn.
  destruct r as [|v|e]; [done| |]; run_cbn.
  - eexists. split; [reflexivity|]. run_cbn.
    by rewrite lookup_alter_eq, Hc.
  - destruct e; run_cbn; (eexists; split; [reflexivity|]); run_cbn;
      by rewrite lookup_alter_eq, Hc.
Qed.

Lemma step_parsePacket (s : BeamSocket) (data : wire) (binary : bool) (q : Q) :
  step s (TParsePacket data binary, q) = state_of (parsePacket data binary s).
Proof. reflexivity. Qed.

(** X5. A reply envelope for a call whose race is on and unsettled settles
    that call in the next microtask with the envelope's outcome (its error
    if it has one, else its data) and removes the reply handler, so the
    same envelope arriving a second time only produces a no-handler error
    and settles nothing. *)
Theorem reply_settles_its_call (s : BeamSocket) (id : nat) (c : pending)
    (p : packet) :
  jobs s = [] ->
  calls s !! id = Some c ->
  c_racing c = true -> c_reply c = Unsettled -> c_result c = Unsettled ->
  _replies s !! id = Some (MkReply id) ->
  p_type p = Some "reply" -> p_id p = Some id ->
  let s1 := exec [(TParsePacket (JsonValue p) false, 0%Q); (TMicrotask, 0%Q)] s in
  trace s1 = (trace s ++ [Emit "packet" (PPacket (Some p));
                          CallSettled id (reply_outcome p)])%list
  /\ calls s1 !! id = Some (with_result (reply_outcome p)
                             (with_reply (reply_outcome p) c))
  /\ _replies s1 !! id = None
  /\ parsePacket (JsonValue p) false s1 =
       Ok tt (set_trace (trace s1 ++
                [Emit "packet" (PPacket (Some p));
                 Emit "error" (PError
                   (NoMethodHandlerError "No handler for reply ID."))]) s1).
Proof.
  intros Hj Hc Hrace Hrep Hres Hr Hty Hid s1.
  set (r := reply_outcome p).
  set (sa := set_replies (delete id (_replies s))
               (set_jobs [JRace id r]
                  (set_calls (alter (with_reply r) id (calls s))
                     (set_trace (trace s ++ [Emit "packet" (PPacket (Some p))]) s)))).
  assert (Ha : state_of (parsePacket (JsonValue p) false s) = sa).
  { unfold parsePacket, Reply_handle, settle_reply. run_cbn.
    rewrite decide_True by done. run_cbn. rewrite Hid. run_cbn.
    rewrite Hr. subst r sa. unfold reply_outcome in *.
    destruct (p_error p); run_cbn; rewrite Hc; run_cbn; rewrite Hrep; run_cbn;
      rewrite Hrace; run_cbn; by rewrite Hj. }
  assert (Hca : calls sa !! id = Some (with_reply r c)).
  { subst sa. cbn -[lookup alter]. by rewrite lookup_alter_eq, Hc. }
  assert (Hne : r <> Unsettled).
  { subst r. unfold reply_outcome. by destruct (p_error p). }
  assert (Hnt : bool_decide (r = Rejected TimeoutError) = false).
  { apply bool_decide_eq_false_2. subst r. unfold reply_outcome.
    by destruct (p_error p). }
  assert (Hs1 : s1 = state_of (settle_call id r (set_jobs [] sa))).
  { subst s1. unfold exec. cbn [foldl]. rewrite step_parsePacket, Ha.
    by rewrite (step_microtask sa (JRace id r) []). }
  assert (Htra : trace sa = (trace s ++ [Emit "packet" (PPacket (Some p))])%list)
    by done.
  assert (Hrsa : _replies sa = delete id (_replies s)) by done.
  clearbody sa.
  destruct (settle_call_first (set_jobs [] sa) id (with_reply r c) r Hca Hres Hne)
    as (sb & Hb & Htr & _ & Hcb & Hrb & _).
  rewrite Hnt in Hrb. cbn [trace _replies set_jobs] in Htr, Hrb.
  rewrite Hb in Hs1. rewrite Hs1. cbn [state_of]. clear Hs1.
  assert (Hnone : _replies sb !! id = None).
  { rewrite Hrb, Hrsa. apply lookup_delete_eq. }
  split; [|split; [done|split; [done|]]].
  - rewrite Htr, Htra. by rewrite <- app_assoc.
  - apply parsePacket_no_handler; [done|]. by rewrite Hid.
Qed.

Lemma reply_settles_its_call_witness :
  let s := exec [(TBoot, 0%Q);
                 (TCall "whisper" [str "hi"] (CallOptions false None true), 0%Q);
                 (TMicrotask, 0%Q)]
             (constructor false ["a"] default_options None (1 # 2)) in
  let p := Packet (Some 0) (Some "reply") "" (str "ok") None in
  let s1 := exec [(TParsePacket (JsonValue p) false, 0%Q); (TMicrotask, 0%Q)] s in
  trace s1 = (trace s ++ [Emit "packet" (PPacket (Some p));
                          CallSettled 0 (Fulfilled (str "ok"))])%list
  /\ _replies s1 !! 0 = None.
Proof.
  intros s p s1.
  assert (Hj : jobs s = []) by (by vm_compute).
  assert (Hc : calls s !! 0 =
               Some (Pending (CallOptions false None true) KUser true true
                       Unsettled Unsettled)) by (by vm_compute).
  assert (Hr : _replies s !! 0 = Some (MkReply 0)) by (by vm_compute).
  destruct (reply_settles_its_call s 0 _ p Hj Hc eq_refl eq_refl eq_refl Hr
              eq_refl eq_refl) as (H1 & _ & H2 & _).
  split; [exact H1|exact H2].
Defined.

(** X6. A call with noReply whose frame is sent resolves with undefined in
    the next microtask; no timer is armed for it, and its reply handler
    stays registered. *)
Theorem noReply_call_resolves_without_deadline (s : BeamSocket)
    (method : string) (args : list any) (opts : call_options) (w : handle) :
  jobs s = [] ->
  status s = CONNECTED \/ o_force opts = true ->
  ws s = Some w ->
  o_noReply opts = true ->
  let id := _callNo s in
  let s1 := exec [(TCall method args opts, 0%Q); (TMicrotask, 0%Q)] s in
  last (trace s1) = Some (CallSettled id (Fulfilled undefined))
  /\ timers s1 = timers s
  /\ _replies s1 !! id = Some (MkReply id)
  /\ jobs s1 = [JCont KUser (Fulfilled undefined)].
Proof.
  intros Hj Hon Hw Hno id s1.
  destruct (call_sent s method args opts KUser w Hon Hw)
    as (sa & Ha & _ & Hja & Hca & Hra & Hta & _).
  rewrite Hj in Hja. cbn in Hja.
  set (c0 := Pending opts KUser true false Unsettled Unsettled) in *.
  assert (Hs1 : s1 = state_of (after_send id (set_jobs [] sa))).
  { unfold s1, exec. cbn [foldl].
    by rewrite (step_call s sa _ _ _ _ _ Ha), (step_microtask sa _ _ _ Hja). }
  destruct (settle_call_first (set_jobs [] sa) id c0 (Fulfilled undefined)
              Hca eq_refl ltac:(done))
    as (sb & Hsb & Htr & Hjb & _ & Hrb & Htb & _).
  assert (Hb : after_send id (set_jobs [] sa) = Ok tt sb).
  { unfold after_send. rewrite bind_eq. cbn [get calls set_jobs].
    unfold id in *. rewrite Hca. cbn [c_options c0]. by rewrite Hno. }
  rewrite Hb in Hs1. rewrite Hs1. cbn [state_of].
  rewrite Htr, last_snoc, Htb, Hrb, Hjb. cbn. by rewrite Hta.
Qed.

Lemma noReply_call_resolves_without_deadline_witness :
  let s := state_of (boot (constructor false ["a"] default_options None (1 # 2))) in
  let s1 := exec [(TCall "vote" [num 1] (CallOptions true None true), 0%Q);
                  (TMicrotask, 0%Q)] s in
  last (trace s1) = Some (CallSettled 0 (Fulfilled undefined))
  /\ timers s1 = timers s.
Proof.
  intros s s1.
  destruct (noReply_call_resolves_without_deadline s "vote" [num 1]
              (CallOptions true None true) 0 eq_refl (or_intror eq_refl)
              eq_refl eq_refl) as (H1 & H2 & _).
  split; [exact H1|exact H2].
Defined.

Lemma authresult_resolves_all (n : nat) (v : any) : forall s : BeamSocket,
  n <= authresult_listeners s ->
  exists s',
    authresult n v s = Ok tt s'
    /\ trace s' = (trace s ++ replicate n (AuthResolved v))%list
    /\ authresult_listeners s' = authresult_listeners s - n
    /\ _authpacket s' = _authpacket s /\ jobs s' = jobs s
    /\ _spool s' = _spool s /\ status s' = status s.
Proof.
  induction n as [|n IH]; intros s Hn.
  - exists s. cbn. rewrite app_nil_r, Nat.sub_0_r. done.
  - cbn [authresult]. run_cbn.
    set (s1 := set_trace _ _).
    destruct (IH s1) as (s' & -> & Htr & Hl & Ha & Hj & Hsp & Hst).
    { subst s1. cbn. lia. }
    exists s'. split; [done|]. rewrite Htr, Hl, Ha, Hj, Hsp, Hst. subst s1. cbn.
    rewrite <- app_assoc. repeat split; try done. lia.
Qed.

(** X7. While the status is not CONNECTED, auth stores the tuple for later
    reconnects and returns a promise without sending or spooling anything;
    the promise resolves with the value of the next authresult
    notification, and only that one: a later authresult resolves nothing. *)
Theorem auth_while_disconnected_waits (s : BeamSocket) (id user : Z)
    (authkey : string) (v : any) :
  status s <> CONNECTED ->
  authresult_listeners s = 0 ->
  exists s1 s2 s3,
    auth id user authkey s = Ok None s1
    /\ _authpacket s1 = Some [num id; num user; str authkey]
    /\ trace s1 = trace s /\ _spool s1 = _spool s /\ jobs s1 = jobs s
    /\ emit "authresult" v s1 = Ok tt s2
    /\ trace s2 = (trace s ++ [Emit "authresult" (PData v); AuthResolved v])%list
    /\ emit "authresult" v s2 = Ok tt s3
    /\ trace s3 = (trace s2 ++ [Emit "authresult" (PData v)])%list.
Proof.
  intros Hst Hl.
  assert (Ha : exists s1, auth id user authkey s = Ok None s1
            /\ _authpacket s1 = Some [num id; num user; str authkey]
            /\ trace s1 = trace s /\ _spool s1 = _spool s /\ jobs s1 = jobs s
            /\ authresult_listeners s1 = 1).
  { unfold auth, isConnected. run_cbn.
    rewrite bool_decide_eq_false_2 by done. run_cbn.
    eexists. split; [reflexivity|]. cbn. by rewrite Hl. }
  destruct Ha as (s1 & Ha & Hp & Htr1 & Hsp1 & Hj1 & Hl1).
  set (s1e := set_trace (trace s1 ++ [Emit "authresult" (PData v)]) s1).
  destruct (authresult_resolves_all 1 v s1e) as (s2 & Hr2 & Htr2 & Hl2 & _).
  { subst s1e. cbn. lia. }
  assert (He2 : emit "authresult" v s1 = Ok tt s2).
  { unfold emit. run_cbn. rewrite decide_False by done.
    rewrite decide_True by done. run_cbn. fold s1e. by rewrite Hl1. }
  set (s2e := set_trace (trace s2 ++ [Emit "authresult" (PData v)]) s2).
  assert (He3 : emit "authresult" v s2 = Ok tt s2e).
  { unfold emit. run_cbn. rewrite decide_False by done.
    rewrite decide_True by done. run_cbn. fold s2e. rewrite Hl2. subst s1e. cbn.
    by rewrite Hl1. }
  exists s1, s2, s2e. repeat split; try done.
  rewrite Htr2. subst s1e. cbn. by rewrite Htr1, <- app_assoc.
Qed.

Lemma auth_while_disconnected_waits_witness :
  let s := constructor false ["a"] default_options None (1 # 2) in
  exists s1 s2,
    auth 7 9 "key" s = Ok None s1
    /\ emit "authresult" (str "ok") s1 = Ok tt s2
    /\ trace s2 = [Emit "authresult" (PData (str "ok")); AuthResolved (str "ok")].
Proof.
  intros s.
  destruct (auth_while_disconnected_waits s 7 9 "key" (str "ok"))
    as (s1 & s2 & s3 & H1 & _ & _ & _ & _ & H2 & H3 & _); [by cbn|done|].
  exists s1, s2. split; [exact H1|]. split; [exact H2|exact H3].
Defined.

(** X8. close with no transport in place (between connection attempts)
    sets CLOSED at once and cancels the reconnect timer, so that timer
    coming due afterwards does nothing: no boot, no new transport. *)
Theorem close_between_attempts_cancels_reconnect (s : BeamSocket) (t : timer) :
  ws s = None ->
  _reconnectTimeout s = Some t ->
  exists s',
    close s = Ok tt s'
    /\ status s' = CLOSED /\ ws s' = None
    /\ timers s' = delete t (timers s)
    /\ trace s' = trace s
    /\ fire t s' = Ok tt s'.
Proof.
  intros Hw Ht. unfold close. run_cbn. rewrite Hw. run_cbn. rewrite Ht.
  run_cbn. eexists. split; [reflexivity|]. run_cbn.
  repeat split; try done.
  unfold fire. run_cbn. by rewrite lookup_delete_eq.
Qed.

Lemma close_between_attempts_cancels_reconnect_witness :
  let s := state_of (_handleClose (1 # 4)
             (state_of (boot (constructor false ["a"] default_options None (1 # 2))))) in
  exists s',
    close s = Ok tt s' /\ status s' = CLOSED /\ fire 1 s' = Ok tt s'.
Proof.
  intros s.
  destruct (close_between_attempts_cancels_reconnect s 1 eq_refl eq_refl)
    as (s' & H1 & H2 & _ & _ & _ & H3).
  exists s'. split; [exact H1|]. split; [exact H2|exact H3].
Defined.

(** X9. boot installs a new transport, sets CONNECTING, cancels the
    previous keepalive or connection timer and arms the connection
    deadline with pingTimeout; if that timer comes due (no open and no
    other traffic in time) the new transport is asked to close.  The open
    callback of that transport is applied to the free variable [self]:
    where [self] is bound it re-arms the same deadline under a new timer,
    where it is unbound it throws a ReferenceError and the deadline armed
    by boot stays as it is. *)
Theorem boot_arms_connection_deadline (s : BeamSocket) :
  let w := next_handle s in
  let t := next_timer s in
  exists s1,
    boot s = Ok tt s1
    /\ ws s1 = Some w /\ status s1 = CONNECTING
    /\ _pingTimeoutHandle s1 = Some t
    /\ timers s1 =
         <[t := (pingTimeout (options s), AConnClose w)]>
           (cleared (_pingTimeoutHandle s) (timers s))
    /\ welcome_listeners s1 = S (welcome_listeners s)
    /\ fire t s1 =
         Ok tt (set_trace (trace s1 ++ [WsClose w])
                  (set_timers (delete t (timers s1)) s1))
    /\ (forall this, global_self s = Some this ->
        exists s2,
          on_open w s1 = Ok tt s2
          /\ _pingTimeoutHandle s2 = Some (S t)
          /\ timers s2 =
               <[S t := (pingTimeout (options s), AConnClose w)]>
                 (delete t (timers s1))
          /\ trace s2 = trace s1 /\ status s2 = CONNECTING)
    /\ (global_self s = None ->
        on_open w s1 = Throw (ReferenceError "self is not defined") s1).
Proof.
  intros w t. unfold boot, getAddress, _resetConnectionTimeout, cleared.
  run_cbn.
  destruct (_pingTimeoutHandle s) as [h|]; run_cbn;
    (eexists; split; [reflexivity|]); run_cbn;
    (do 6 (split; [try done|]));
    try (unfold fire; run_cbn; by rewrite lookup_insert_eq);
    (split; [intros this Hself|intros Hself]);
    unfold on_open, whilstSameSocket, _resetConnectionTimeout; run_cbn;
    rewrite decide_True by done; run_cbn; rewrite Hself; run_cbn;
    solve [by eexists | done].
Qed.

(** X10. Calls made while the status is not CONNECTED (other than auth) are
    spooled in the order they were made, each under the next call id; none
    of them reaches the transport. *)
Theorem calls_are_spooled_in_order (l : list (string * list any)) :
  forall s : BeamSocket,
  status s <> CONNECTED ->
  Forall (fun m => fst m <> authMethod) l ->
  let s' := exec (call_tasks l) s in
  _spool s' = (_spool s ++ spooled_from (_callNo s) l)%list
  /\ _callNo s' = _callNo s + length l
  /\ sends (trace s') = sends (trace s)
  /\ status s' = status s.
Proof.
  induction l as [|m l IH]; intros s Hst Hl s'.
  - subst s'. cbn. by rewrite app_nil_r, Nat.add_0_r.
  - apply Forall_cons in Hl as [Hm Hl].
    destruct (call_spooled s (fst m) (snd m) no_options KUser Hst eq_refl Hm)
      as (s1 & Hc & Hsp & _ & _ & _ & Hn & Hst1 & Htr).
    assert (Hs' : s' = exec (call_tasks l) s1).
    { subst s'. cbn [call_tasks map]. unfold exec. cbn [foldl].
      by rewrite (step_call s s1 _ _ _ _ _ Hc). }
    assert (Hst1' : status s1 <> CONNECTED) by (by rewrite Hst1).
    destruct (IH s1 Hst1' Hl) as (H1 & H2 & H3 & H4).
    rewrite Hs', H1, H2, H3, H4, Hsp, Hn, Hst1, Htr, sends_app. cbn.
    rewrite app_nil_r, <- app_assoc. repeat split; (done || lia).
Qed.

Lemma calls_are_spooled_in_order_witness :
  let s := constructor false ["a"] default_options None (1 # 2) in
  let s' := exec (call_tasks [("whisper", [str "hi"]); ("vote", [num 2])]) s in
  _spool s' = [Spooled (Frame "method" "whisper" [str "hi"] 0) 0;
               Spooled (Frame "method" "vote" [num 2] 1) 1]
  /\ _callNo s' = 2.
Proof.
  intros s s'.
  destruct (calls_are_spooled_in_order
              [("whisper", [str "hi"]); ("vote", [num 2])] s)
    as (H1 & H2 & _); [by cbn| |].
  { repeat constructor; by cbn. }
  split; [exact H1|exact H2].
Defined.

(** X11. With an empty address list getAddress returns undefined however
    often it is called and the offset stays at zero; boot then constructs
    its transport on undefined. *)
Theorem no_addresses_gives_undefined (n : nat) : forall s : BeamSocket,
  _addresses s = [] ->
  getAddress_times (S n) s = Ok (replicate (S n) None) (set_addressOffset 0 s)
  /\ exists s', boot s = Ok tt s'
       /\ trace s' = (trace s ++ [WsNew (next_handle s) None])%list.
Proof.
  intros s Ha. split.
  - assert (Hone : forall s0 : BeamSocket, _addresses s0 = [] ->
                getAddress s0 = Ok None (set_addressOffset 0 s0)).
    { intros s0 H0. rewrite getAddress_eq. unfold next_offset. by rewrite H0. }
    revert s Ha. induction n as [|n IH]; intros s Ha.
    + cbn [getAddress_times]. rewrite bind_eq, (Hone s Ha). done.
    + change (getAddress_times (S (S n)))
        with (a <- getAddress ;; l <- getAddress_times (S n) ;; ret (a :: l)).
      rewrite bind_eq, (Hone s Ha), bind_eq.
      rewrite (IH (set_addressOffset 0 s)) by done.
      cbn. by destruct s.
  - unfold boot, getAddress, _resetConnectionTimeout. run_cbn.
    rewrite Ha. destruct (_pingTimeoutHandle s); run_cbn; by eexists.
Qed.

Lemma no_addresses_gives_undefined_witness :
  let s := constructor false [] default_options None (1 # 2) in
  getAddress_times 3 s = Ok [None; None; None] (set_addressOffset 0 s).
Proof.
  intros s. exact (proj1 (no_addresses_gives_undefined 2 s eq_refl)).
Defined.

(** X12. After a close that was not requested (status other than CLOSING),
    the reconnect timer coming due runs boot, which connects to the next
    address of the round robin on a new transport and arms the connection
    deadline. *)
Theorem reconnect_targets_next_address (s : BeamSocket) (r : Q) :
  status s <> CLOSING ->
  let t := next_timer s in
  let w := next_handle s in
  let s1 := state_of (_handleClose r s) in
  let s2 := step s1 (TTimer t, 0%Q) in
  _reconnectTimeout s1 = Some t
  /\ last (trace s2) =
       Some (WsNew w (_addresses s !! next_offset (_addresses s) (_addressOffset s)))
  /\ ws s2 = Some w /\ status s2 = CONNECTING
  /\ _addressOffset s2 = next_offset (_addresses s) (_addressOffset s)
  /\ timers s2 !! S t = Some (pingTimeout (options s), AConnClose w)
  /\ timers s2 !! t = None.
Proof.
  intros Hst t w s1 s2. subst s2 s1.
  rewrite (_handleClose_reconnect r s Hst). cbn [state_of].
  unfold step. cbn [fst snd run]. unfold fire. run_cbn.
  rewrite lookup_insert_eq. run_cbn.
  unfold boot, getAddress, _resetConnectionTimeout, next_offset. run_cbn.
  rewrite last_snoc, lookup_insert_eq.
  repeat split; try done.
  rewrite lookup_insert_ne by (subst t; lia). apply lookup_delete_eq.
Qed.

Lemma reconnect_targets_next_address_witness :
  let s := state_of (boot (constructor false ["a"; "b"] default_options None (1 # 2))) in
  let s2 := step (state_of (_handleClose (1 # 4) s)) (TTimer 1, 0%Q) in
  last (trace s2) = Some (WsNew 1 (Some "b")) /\ status s2 = CONNECTING.
Proof.
  intros s s2.
  destruct (reconnect_targets_next_address s (1 # 4)) as (_ & H1 & _ & H2 & _);
    [by cbn|].
  split; [exact H1|exact H2].
Defined.

Lemma ping_chain_timeout_active (s : BeamSocket) (w : handle) (r : Q) :
  ws s = Some w ->
  status s <> CLOSING ->
  exists s' interval,
    ping_chain w (Rejected TimeoutError) r s = Ok tt s'
    /\ trace s' =
         (trace s ++ [Emit "error" (PError TimeoutError); WsClose w;
                      Emit "reconnecting" (PReconnecting interval None);
                      PingSettled (Rejected TimeoutError)])%list
    /\ status s' = CONNECTING /\ ws s' = None
    /\ _retries s' = S (_retries s)
    /\ _reconnectTimeout s' = Some (next_timer s)
    /\ timers s' !! next_timer s = Some (interval, ABoot).
Proof.
  intros Hw Hst.
  set (sx := set_trace (trace s ++ [Emit "error" (PError TimeoutError); WsClose w]) s).
  assert (Hx : ping_chain w (Rejected TimeoutError) r s =
               (_handleClose r ;;; effect_ (PingSettled (Rejected TimeoutError))) sx).
  { unfold ping_chain. cbn [instanceof_TimeoutError].
    rewrite !bind_eq. cbn [get]. rewrite Hw, decide_True by done.
    unfold notify, effect_. rewrite !bind_eq. cbn [modify].
    rewrite !bind_eq. cbn [modify].
    replace (set_trace _ (set_trace _ s)) with sx; [done|].
    subst sx. cbn. by rewrite <- app_assoc. }
  rewrite Hx, bind_eq, (_handleClose_reconnect r sx) by done.
  unfold effect_. cbn [modify]. do 2 eexists. split; [reflexivity|].
  cbn. rewrite <- !app_assoc. cbn. repeat split; try done.
  by rewrite lookup_insert_eq.
Qed.

(** X13. On a CONNECTED socket whose transport has a native ping, ping
    sends one transport ping, cancels the keepalive timer and arms a pong
    deadline of pingTimeout.  If that deadline comes due first and the
    transport is still the socket's, the next microtask emits the
    TimeoutError as an error, asks the transport to close, runs the
    closure handling at once (status CONNECTING, reconnect scheduled) and
    rejects the promise ping returned. *)
Theorem ping_timeout_tears_down (s : BeamSocket) (w : handle) (rnd : Q) :
  status s = CONNECTED ->
  ws s = Some w ->
  wsCtor_ping s = true ->
  jobs s = [] ->
  let k := length (probes s) in
  let t := next_timer s in
  exists s1,
    ping s = Ok (OfProbe k) s1
    /\ trace s1 = (trace s ++ [WsPing w])%list
    /\ timers s1 =
         <[t := (pingTimeout (options s), APongTimeout k)]>
           (cleared (_pingTimeoutHandle s) (timers s))
    /\ let s3 := exec [(TTimer t, rnd); (TMicrotask, rnd)] s1 in
       exists interval,
         trace s3 =
           (trace s1 ++ [Emit "error" (PError TimeoutError); WsClose w;
                         Emit "reconnecting" (PReconnecting interval None);
                         PingSettled (Rejected TimeoutError)])%list
         /\ status s3 = CONNECTING /\ ws s3 = None
         /\ _retries s3 = S (_retries s)
         /\ exists t', _reconnectTimeout s3 = Some t'
                       /\ timers s3 !! t' = Some (interval, ABoot).
Proof.
  intros Hst Hw Hn Hj k t.
  set (s1 := set_trace (trace s ++ [WsPing w])
               (set_probes (probes s ++ [Probe w true Unsettled])
                  (set_next_timer (S t)
                     (set_timers
                        (<[t := (pingTimeout (options s), APongTimeout k)]>
                           (cleared (_pingTimeoutHandle s) (timers s))) s)))).
  assert (Hp : ping s = Ok (OfProbe k) s1).
  { unfold ping, isConnected, cleared. run_cbn.
    destruct (_pingTimeoutHandle s); run_cbn;
      rewrite bool_decide_eq_true_2 by done; run_cbn; rewrite Hw; run_cbn;
      rewrite Hn; run_cbn; done. }
  exists s1. split; [done|]. split; [done|]. split; [done|].
  set (s2 := set_jobs [JProbe k (Rejected TimeoutError)]
               (set_timers (delete t (timers s1)) s1)).
  assert (H2 : step s1 (TTimer t, rnd) = s2).
  { unfold step. cbn [fst snd run]. unfold fire. run_cbn.
    rewrite lookup_insert_eq. run_cbn. by rewrite Hj. }
  assert (Hk : probes s2 !! k = Some (Probe w true Unsettled)).
  { subst s2 s1 k. cbn. by rewrite lookup_app_r, Nat.sub_diag. }
  cbn zeta. unfold exec. cbn [foldl]. rewrite H2.
  rewrite (step_microtask s2 (JProbe k (Rejected TimeoutError)) []) by done.
  cbn [run_job]. rewrite bind_eq. cbn [get]. cbn [probes set_jobs].
  rewrite Hk. cbn [settled pr_result pr_ws].
  rewrite bind_eq. unfold update_probe. cbn [modify].
  set (sx := set_probes _ _).
  destruct (ping_chain_timeout_active sx w rnd) as (s3 & interval & H3 & Htr & Hs & Hws & Hre & Hrt & Htm).
  { done. }
  { subst sx. cbn. by rewrite Hst. }
  rewrite H3. cbn [state_of]. exists interval.
  split; [exact Htr|]. split; [exact Hs|]. split; [exact Hws|].
  split; [exact Hre|]. by eexists.
Qed.

(** ** The call counter *)

Section CallCounter.

Local Abbreviation ok := (respects (callno_grows)).


Lemma callno_grows_refl s : callno_grows s s.
Proof. unfold callno_grows. lia. Qed.
Lemma callno_grows_trans s1 s2 s3 :
  callno_grows s1 s2 -> callno_grows s2 s3 -> callno_grows s1 s3.
Proof. unfold callno_grows. lia. Qed.
Local Hint Resolve callno_grows_refl callno_grows_trans : frame.

Lemma cn_call_rest (f : frame) (force : bool) (id : nat) :
  ok (sent <- send f force ;;
      (if sent : bool then resolve_send id else ret tt) ;;;
      ret id).
Proof.
  unfold send, resolve_send, isConnected.
  frame ltac:(unfold callno_grows; cbn; lia).
Qed.

Ltac go := frame ltac:(unfold callno_grows; cbn; lia).

Lemma cn_effect e : ok (effect_ e).
Proof. unfold effect_. go. Qed.
Local Hint Resolve cn_effect : frame.

Lemma cn_enqueue j : ok (enqueue j).
Proof. unfold enqueue. go. Qed.
Local Hint Resolve cn_enqueue : frame.

Lemma cn_setTimeout a d : ok (setTimeout a d).
Proof. intros s. unfold callno_grows. cbn. lia. Qed.
Local Hint Resolve cn_setTimeout : frame.

Lemma cn_clearTimeout h : ok (clearTimeout h).
Proof. unfold clearTimeout. go. Qed.
Local Hint Resolve cn_clearTimeout : frame.

Lemma cn_notify n a : ok (notify n a).
Proof. unfold notify. go. Qed.
Local Hint Resolve cn_notify : frame.

Lemma cn_isConnected : ok (isConnected).
Proof. unfold isConnected. go. Qed.
Local Hint Resolve cn_isConnected : frame.

Lemma cn_getAddress : ok (getAddress).
Proof. unfold getAddress. go. Qed.
Local Hint Resolve cn_getAddress : frame.

Lemma cn_interval r : ok (_getNextReconnectInterval r).
Proof. intros s. unfold callno_grows. cbn. lia. Qed.
Local Hint Resolve cn_interval : frame.

Lemma cn_handleClose r : ok (_handleClose r).
Proof. unfold _handleClose. go. Qed.
Local Hint Resolve cn_handleClose : frame.

Lemma cn_resetPingTimeout : ok (_resetPingTimeout).
Proof. unfold _resetPingTimeout. go. Qed.
Local Hint Resolve cn_resetPingTimeout : frame.

Lemma cn_resetConnectionTimeout a : ok (_resetConnectionTimeout a).
Proof. unfold _resetConnectionTimeout. go. Qed.
Local Hint Resolve cn_resetConnectionTimeout : frame.

Lemma cn_send d f : ok (send d f).
Proof. unfold send. go. Qed.
Local Hint Resolve cn_send : frame.

Lemma cn_update_call id f : ok (update_call id f).
Proof. unfold update_call. go. Qed.
Local Hint Resolve cn_update_call : frame.

Lemma cn_resolve_send id : ok (resolve_send id).
Proof. unfold resolve_send. go. Qed.
Local Hint Resolve cn_resolve_send : frame.

Lemma cn_settle_reply id r : ok (settle_reply id r).
Proof. unfold settle_reply. go. Qed.
Local Hint Resolve cn_settle_reply : frame.

Lemma cn_call m a o k : ok (call m a o k).
Proof. 
  intros s. unfold callno_grows.
  pose proof (cn_call_rest (Frame "method" m a (_callNo s)) (o_force o) (_callNo s)
    (set_replies (<[_callNo s := MkReply (_callNo s)]> (_replies s))
       (set_calls (<[_callNo s := Pending o k false false Unsettled Unsettled]> (calls s))
          (set_callNo (S (_callNo s)) s)))) as H.
  unfold callno_grows in H. cbn [_callNo set_replies set_calls set_callNo] in H.
  change (S (_callNo s) <= _callNo (state_of (call m a o k s))) in H. lia.
 Qed.
Local Hint Resolve cn_call : frame.

Lemma cn_close : ok (close).
Proof. unfold close. go. Qed.
Local Hint Resolve cn_close : frame.

Lemma cn_Reply_handle r p : ok (Reply_handle r p).
Proof. unfold Reply_handle. go. Qed.
Local Hint Resolve cn_Reply_handle : frame.

Lemma cn_flush l : ok (flush l).
Proof. induction l; cbn [flush]; go. Qed.
Local Hint Resolve cn_flush : frame.

Lemma cn_bang : ok (bang ThisOther).
Proof. unfold bang. go. Qed.
Local Hint Resolve cn_bang : frame.

Lemma cn_unspool : ok (unspool).
Proof. unfold unspool. go. Qed.
Local Hint Resolve cn_unspool : frame.

Lemma cn_welcome n : ok (welcome n).
Proof. induction n; cbn [welcome]; go. Qed.
Local Hint Resolve cn_welcome : frame.

Lemma cn_authresult n v : ok (authresult n v).
Proof. induction n; cbn [authresult]; go. Qed.
Local Hint Resolve cn_authresult : frame.

Lemma cn_emit n a : ok (emit n a).
Proof. unfold emit. go. Qed.
Local Hint Resolve cn_emit : frame.

Lemma cn_parsePacket d b : ok (parsePacket d b).
Proof. unfold parsePacket. go. Qed.
Local Hint Resolve cn_parsePacket : frame.

Lemma cn_auth i u k : ok (auth i u k).
Proof. unfold auth. go. Qed.
Local Hint Resolve cn_auth : frame.

Lemma cn_ping_chain w r q : ok (ping_chain w r q).
Proof. unfold ping_chain. go. Qed.
Local Hint Resolve cn_ping_chain : frame.

Lemma cn_ping : ok (ping).
Proof. unfold ping. go. Qed.
Local Hint Resolve cn_ping : frame.

Lemma cn_boot : ok (boot).
Proof. unfold boot. go. Qed.
Local Hint Resolve cn_boot : frame.

Lemma cn_on_open w : ok (on_open w).
Proof. unfold on_open, whilstSameSocket. go. Qed.
Local Hint Resolve cn_on_open : frame.

Lemma cn_on_message w d b : ok (on_message w d b).
Proof. unfold on_message, whilstSameSocket. go. Qed.
Local Hint Resolve cn_on_message : frame.

Lemma cn_on_close w r : ok (on_close w r).
Proof. unfold on_close, whilstSameSocket. go. Qed.
Local Hint Resolve cn_on_close : frame.

Lemma cn_on_error w e : ok (on_error w e).
Proof. unfold on_error, whilstSameSocket. go. Qed.
Local Hint Resolve cn_on_error : frame.

Lemma cn_on_pong w : ok (on_pong w).
Proof. intros s. unfold on_pong, modify, callno_grows. cbn. destruct (pong_probes w 0 (probes s)). cbn. lia. Qed.
Local Hint Resolve cn_on_pong : frame.

Lemma cn_settle_call id r : ok (settle_call id r).
Proof. unfold settle_call. go. Qed.
Local Hint Resolve cn_settle_call : frame.

Lemma cn_after_send id : ok (after_send id).
Proof. unfold after_send. go. Qed.
Local Hint Resolve cn_after_send : frame.

Lemma cn_auth_failed : ok (auth_failed).
Proof. unfold auth_failed. go. Qed.
Local Hint Resolve cn_auth_failed : frame.

Lemma cn_update_probe k r : ok (update_probe k r).
Proof. unfold update_probe. go. Qed.
Local Hint Resolve cn_update_probe : frame.

Lemma cn_run_job j r : ok (run_job j r).
Proof. unfold run_job. go. Qed.
Local Hint Resolve cn_run_job : frame.

Lemma cn_fire t : ok (fire t).
Proof. unfold fire. go. Qed.
Local Hint Resolve cn_fire : frame.

Lemma cn_run t rnd : ok (run t rnd).
Proof. unfold run. go. Qed.
Local Hint Resolve cn_run : frame.

End CallCounter.

Lemma call_returns_counter (s s' : BeamSocket) (method : string)
    (args : list any) (opts : call_options) (k : cont) (id : nat) :
  call method args opts k s = Ok id s' ->
  id = _callNo s /\ (_callNo s < _callNo s')%nat.
Proof.
  intros H.
  set (s3 := set_replies (<[_callNo s := MkReply (_callNo s)]> (_replies s))
       (set_calls (<[_callNo s := Pending opts k false false Unsettled Unsettled]> (calls s))
          (set_callNo (S (_callNo s)) s))).
  set (f := Frame "method" method args (_callNo s)).
  assert (Hid : id = _callNo s).
  { change (call method args opts k s)
      with ((sent <- send f (o_force opts) ;;
             (if sent : bool then resolve_send (_callNo s) else ret tt) ;;;
             ret (_callNo s)) s3) in H.
    rewrite bind_eq in H.
    destruct (send f (o_force opts) s3) as [[|] sa|e sa]; [| |done].
    - rewrite bind_eq in H. destruct (resolve_send (_callNo s) sa); [|done].
      cbn in H. by injection H as <- _.
    - cbn in H. by injection H as <- _. }
  split; [done|].
  pose proof (cn_call_rest f (o_force opts) (_callNo s) s3) as Hg.
  unfold callno_grows in Hg. subst s3.
  cbn [_callNo set_replies set_calls set_callNo] in Hg.
  change (S (_callNo s) <= _callNo (state_of (call method args opts k s))) in Hg.
  rewrite H in Hg. cbn in Hg. lia.
Qed.

(** X14. Call ids are never reused: a call returns the current value of
    the call counter as its id, no task ever lowers the counter, and so
    any call made later, whatever happened in between, gets a strictly
    larger id. *)
Theorem call_ids_strictly_increase (s s1 s2 : BeamSocket)
    (ts : list (task * Q)) (m1 m2 : string) (a1 a2 : list any)
    (o1 o2 : call_options) (k1 k2 : cont) (id1 id2 : nat) :
  call m1 a1 o1 k1 s = Ok id1 s1 ->
  call m2 a2 o2 k2 (exec ts s1) = Ok id2 s2 ->
  (id1 < id2)%nat.
Proof.
  intros H1 H2.
  apply call_returns_counter in H1 as [-> Hlt].
  apply call_returns_counter in H2 as [-> _].
  pose proof (respects_exec callno_grows callno_grows_refl callno_grows_trans
                ts cn_run s1) as Hg.
  unfold callno_grows in Hg. lia.
Qed.

Lemma call_ids_strictly_increase_witness :
  let s := constructor false ["a"] default_options None (1 # 2) in
  exists s1 s2,
    call "whisper" [str "hi"] no_options KUser s = Ok 0 s1
    /\ call "vote" [num 1] no_options KUser (exec [(TBoot, 0%Q)] s1) = Ok 1 s2
    /\ (0 < 1)%nat.
Proof.
  intros s.
  exists (state_of (call "whisper" [str "hi"] no_options KUser s)).
  exists (state_of (call "vote" [num 1] no_options KUser
            (exec [(TBoot, 0%Q)]
               (state_of (call "whisper" [str "hi"] no_options KUser s))))).
  assert (H1 : call "whisper" [str "hi"] no_options KUser s =
               Ok 0 (state_of (call "whisper" [str "hi"] no_options KUser s)))
    by (by vm_compute).
  assert (H2 : call "vote" [num 1] no_options KUser
                 (exec [(TBoot, 0%Q)]
                    (state_of (call "whisper" [str "hi"] no_options KUser s))) =
               Ok 1 (state_of (call "vote" [num 1] no_options KUser
                  (exec [(TBoot, 0%Q)]
                     (state_of (call "whisper" [str "hi"] no_options KUser s))))))
    by (by vm_compute).
  split; [exact H1|]. split; [exact H2|].
  exact (call_ids_strictly_increase _ _ _ [(TBoot, 0%Q)] _ _ _ _ _ _ _ _ _ _ H1 H2).
Defined.

Lemma ping_timeout_tears_down_witness :
  let s := state_of (bang ThisSocket
             (state_of (boot (constructor true ["a"] default_options None (1 # 2))))) in
  exists s1,
    ping s = Ok (OfProbe 0) s1
    /\ status (exec [(TTimer 1, 1 # 4); (TMicrotask, 1 # 4)] s1) = CONNECTING.
Proof.
  intros s.
  destruct (ping_timeout_tears_down s 0 (1 # 4) eq_refl eq_refl eq_refl eq_refl)
    as (s1 & H1 & _ & _ & interval & _ & H2 & _).
  exists s1. split; [exact H1|exact H2].
Defined.

(** ** The keepalive timer *)

Section Keepalive.

Local Abbreviation ok := (respects (keeps_keepalive)).


Local Open Scope nat_scope.

Lemma keeps_keepalive_refl s : keeps_keepalive s s.
Proof. by intros H. Qed.
Lemma keeps_keepalive_trans s1 s2 s3 :
  keeps_keepalive s1 s2 -> keeps_keepalive s2 s3 -> keeps_keepalive s1 s3.
Proof. unfold keeps_keepalive. tauto. Qed.
Local Hint Resolve keeps_keepalive_refl keeps_keepalive_trans : frame.

Lemma kv_delete tm nt h t : kv_inv tm nt h -> kv_inv (delete t tm) nt h.
Proof.
  intros [H1 H2]. split.
  - intros t' d a Ht. apply lookup_delete_Some in Ht as [_ Ht]. eauto.
  - intros t' x Ht. apply lookup_delete_Some in Ht as [_ Ht]. eauto.
Qed.

Lemma kv_cleared tm nt h h' : kv_inv tm nt h -> kv_inv (cleared h' tm) nt h.
Proof. destruct h'; [apply kv_delete|done]. Qed.

Lemma kv_arm_other tm nt h d a :
  is_keepalive a = false -> kv_inv tm nt h ->
  kv_inv (<[nt := (d, a)]> tm) (S nt) h.
Proof.
  intros Ha [H1 H2]. split.
  - intros t d' a' Ht. apply lookup_insert_Some in Ht as [[<- [= <- <-]]|[_ Ht]].
    + congruence.
    + eauto.
  - intros t x Ht. apply lookup_insert_Some in Ht as [[<- _]|[_ Ht]]; [lia|].
    apply H2 in Ht. lia.
Qed.

Lemma kv_rearm tm nt h d a :
  kv_inv tm nt h -> kv_inv (<[nt := (d, a)]> (cleared h tm)) (S nt) (Some nt).
Proof.
  intros [H1 H2]. split.
  - intros t d' a' Ht Hk.
    apply lookup_insert_Some in Ht as [[<- _]|[Hne Ht]]; [done|].
    destruct h as [t0|]; cbn in Ht.
    + apply lookup_delete_Some in Ht as [Hne' Ht].
      specialize (H1 _ _ _ Ht Hk). congruence.
    + by specialize (H1 _ _ _ Ht Hk).
  - intros t x Ht. apply lookup_insert_Some in Ht as [[<- _]|[_ Ht]]; [lia|].
    assert (tm !! t = Some x) as Ht'.
    { destruct h; cbn in Ht; [|done]. by apply lookup_delete_Some in Ht as [_ Ht]. }
    apply H2 in Ht'. lia.
Qed.

Lemma kv_disarm tm nt h : kv_inv tm nt h -> kv_inv (cleared h tm) nt None.
Proof.
  intros [H1 H2]. split.
  - intros t d a Ht Hk. destruct h as [t0|]; cbn in Ht.
    + apply lookup_delete_Some in Ht as [Hne Ht].
      specialize (H1 _ _ _ Ht Hk). congruence.
    + by specialize (H1 _ _ _ Ht Hk).
  - intros t x Ht.
    assert (tm !! t = Some x) as Ht'.
    { destruct h; cbn in Ht; [|done]. by apply lookup_delete_Some in Ht as [_ Ht]. }
    eauto.
Qed.

Ltac kp_upd :=
  unfold keeps_keepalive, keepalive_inv; cbn -[lookup insert delete];
  let H := fresh "Hkp" in
  intros H;
  first [ exact H | apply kv_delete; exact H ].

Ltac go := frame ltac:(kp_upd).

Lemma kp_setTimeout (a : action) (d : Z) :
  is_keepalive a = false -> ok (setTimeout a d).
Proof.
  intros Ha s Hkp. unfold keepalive_inv in *. cbn -[lookup insert delete].
  by apply kv_arm_other.
Qed.
Lemma kp_setTimeout_boot d : ok (setTimeout ABoot d).
Proof. by apply kp_setTimeout. Qed.
Lemma kp_setTimeout_call id d : ok (setTimeout (ACallTimeout id) d).
Proof. by apply kp_setTimeout. Qed.
Lemma kp_setTimeout_pong k d : ok (setTimeout (APongTimeout k) d).
Proof. by apply kp_setTimeout. Qed.
Local Hint Resolve kp_setTimeout_boot kp_setTimeout_call kp_setTimeout_pong : frame.

Lemma kp_effect e : ok (effect_ e).
Proof. unfold effect_. go. Qed.
Local Hint Resolve kp_effect : frame.

Lemma kp_enqueue j : ok (enqueue j).
Proof. unfold enqueue. go. Qed.
Local Hint Resolve kp_enqueue : frame.

Lemma kp_clearTimeout h : ok (clearTimeout h).
Proof. unfold clearTimeout. go. Qed.
Local Hint Resolve kp_clearTimeout : frame.

Lemma kp_notify n a : ok (notify n a).
Proof. unfold notify. go. Qed.
Local Hint Resolve kp_notify : frame.

Lemma kp_isConnected : ok (isConnected).
Proof. unfold isConnected. go. Qed.
Local Hint Resolve kp_isConnected : frame.

Lemma kp_getAddress : ok (getAddress).
Proof. unfold getAddress. go. Qed.
Local Hint Resolve kp_getAddress : frame.

Lemma kp_interval r : ok (_getNextReconnectInterval r).
Proof. intros s. unfold keeps_keepalive, keepalive_inv. cbn. done. Qed.
Local Hint Resolve kp_interval : frame.

Lemma kp_handleClose_rest_ok r : ok (handleClose_rest r).
Proof. unfold handleClose_rest. go. Qed.
Lemma kp_handleClose_rest r (s0 s1 : BeamSocket) :
  s1 = state_of (handleClose_rest r s0) ->
  keepalive_inv s0 -> keepalive_inv s1.
Proof. intros ->. apply kp_handleClose_rest_ok. Qed.

Lemma kp_handleClose r : ok (_handleClose r).
Proof. 
  intros s Hkp.
  assert (Hmid : keepalive_inv
            (set_pingTimeoutHandle None
               (set_timers (cleared (_pingTimeoutHandle s) (timers s)) s))).
  { unfold keepalive_inv. cbn -[lookup insert delete]. by apply kv_disarm. }
  revert Hmid.
  apply (kp_handleClose_rest r
           (set_pingTimeoutHandle None
              (set_timers (cleared (_pingTimeoutHandle s) (timers s)) s))
           (state_of (_handleClose r s))).
  unfold _handleClose, handleClose_rest, cleared. cbn [bind get].
  destruct (_pingTimeoutHandle s); reflexivity.
 Qed.
Local Hint Resolve kp_handleClose : frame.

Lemma kp_resetPingTimeout : ok (_resetPingTimeout).
Proof. 
  intros s Hkp. unfold _resetPingTimeout, keepalive_inv. run_cbn.
  destruct (_pingTimeoutHandle s) as [h|] eqn:Hh; run_cbn;
    [apply (kv_rearm _ _ (Some h)) | apply (kv_rearm _ _ None)];
    unfold keepalive_inv in Hkp; by rewrite Hh in Hkp.
 Qed.
Local Hint Resolve kp_resetPingTimeout : frame.

Lemma kp_resetConnectionTimeout a : ok (_resetConnectionTimeout a).
Proof. 
  intros s Hkp. unfold _resetConnectionTimeout, keepalive_inv. run_cbn.
  destruct (_pingTimeoutHandle s) as [h|] eqn:Hh; run_cbn;
    [apply (kv_rearm _ _ (Some h)) | apply (kv_rearm _ _ None)];
    unfold keepalive_inv in Hkp; by rewrite Hh in Hkp.
 Qed.
Local Hint Resolve kp_resetConnectionTimeout : frame.

Lemma kp_send d f : ok (send d f).
Proof. unfold send. go. Qed.
Local Hint Resolve kp_send : frame.

Lemma kp_update_call id f : ok (update_call id f).
Proof. unfold update_call. go. Qed.
Local Hint Resolve kp_update_call : frame.

Lemma kp_resolve_send id : ok (resolve_send id).
Proof. unfold resolve_send. go. Qed.
Local Hint Resolve kp_resolve_send : frame.

Lemma kp_settle_reply id r : ok (settle_reply id r).
Proof. unfold settle_reply. go. Qed.
Local Hint Resolve kp_settle_reply : frame.

Lemma kp_call m a o k : ok (call m a o k).
Proof. unfold call. go. Qed.
Local Hint Resolve kp_call : frame.

Lemma kp_close : ok (close).
Proof. unfold close. go. Qed.
Local Hint Resolve kp_close : frame.

Lemma kp_Reply_handle r p : ok (Reply_handle r p).
Proof. unfold Reply_handle. go. Qed.
Local Hint Resolve kp_Reply_handle : frame.

Lemma kp_flush l : ok (flush l).
Proof. induction l; cbn [flush]; go. Qed.
Local Hint Resolve kp_flush : frame.

Lemma kp_bang : ok (bang ThisOther).
Proof. unfold bang. go. Qed.
Local Hint Resolve kp_bang : frame.

Lemma kp_unspool : ok (unspool).
Proof. unfold unspool. go. Qed.
Local Hint Resolve kp_unspool : frame.

Lemma kp_welcome n : ok (welcome n).
Proof. induction n; cbn [welcome]; go. Qed.
Local Hint Resolve kp_welcome : frame.

Lemma kp_authresult n v : ok (authresult n v).
Proof. induction n; cbn [authresult]; go. Qed.
Local Hint Resolve kp_authresult : frame.

Lemma kp_emit n a : ok (emit n a).
Proof. unfold emit. go. Qed.
Local Hint Resolve kp_emit : frame.

Lemma kp_parsePacket d b : ok (parsePacket d b).
Proof. unfold parsePacket. go. Qed.
Local Hint Resolve kp_parsePacket : frame.

Lemma kp_auth i u k : ok (auth i u k).
Proof. unfold auth. go. Qed.
Local Hint Resolve kp_auth : frame.

Lemma kp_ping_chain w r q : ok (ping_chain w r q).
Proof. unfold ping_chain. go. Qed.
Local Hint Resolve kp_ping_chain : frame.

Lemma kp_ping : ok (ping).
Proof. unfold ping. go. Qed.
Local Hint Resolve kp_ping : frame.

Lemma kp_boot : ok (boot).
Proof. unfold boot. go. Qed.
Local Hint Resolve kp_boot : frame.

Lemma kp_on_open w : ok (on_open w).
Proof. unfold on_open, whilstSameSocket. go. Qed.
Local Hint Resolve kp_on_open : frame.

Lemma kp_on_message w d b : ok (on_message w d b).
Proof. unfold on_message, whilstSameSocket. go. Qed.
Local Hint Resolve kp_on_message : frame.

Lemma kp_on_close w r : ok (on_close w r).
Proof. unfold on_close, whilstSameSocket. go. Qed.
Local Hint Resolve kp_on_close : frame.

Lemma kp_on_error w e : ok (on_error w e).
Proof. unfold on_error, whilstSameSocket. go. Qed.
Local Hint Resolve kp_on_error : frame.

Lemma kp_on_pong w : ok (on_pong w).
Proof. intros s. unfold on_pong, modify, keeps_keepalive, keepalive_inv. cbn. by destruct (pong_probes w 0 (probes s)). Qed.
Local Hint Resolve kp_on_pong : frame.

Lemma kp_settle_call id r : ok (settle_call id r).
Proof. unfold settle_call. go. Qed.
Local Hint Resolve kp_settle_call : frame.

Lemma kp_after_send id : ok (after_send id).
Proof. unfold after_send. go. Qed.
Local Hint Resolve kp_after_send : frame.

Lemma kp_auth_failed : ok (auth_failed).
Proof. unfold auth_failed. go. Qed.
Local Hint Resolve kp_auth_failed : frame.

Lemma kp_update_probe k r : ok (update_probe k r).
Proof. unfold update_probe. go. Qed.
Local Hint Resolve kp_update_probe : frame.

Lemma kp_run_job j r : ok (run_job j r).
Proof. unfold run_job. go. Qed.
Local Hint Resolve kp_run_job : frame.

Lemma kp_fire t : ok (fire t).
Proof. unfold fire. go. Qed.
Local Hint Resolve kp_fire : frame.

Lemma kp_run t rnd : ok (run t rnd).
Proof. unfold run. go. Qed.
Local Hint Resolve kp_run : frame.

End Keepalive.

(** X15. The keepalive probe and the connection deadline share one timer
    slot: from a state where every armed keepalive or connection timer is
    the one held in _pingTimeoutHandle (the constructor's state has none),
    after any sequence of tasks at most one such timer is armed, and it is
    the one _pingTimeoutHandle holds. *)
Theorem at_most_one_keepalive_timer (s : BeamSocket) (ts : list (task * Q)) :
  keepalive_inv s ->
  let s' := exec ts s in
  forall t1 t2 d1 d2 a1 a2,
    timers s' !! t1 = Some (d1, a1) -> is_keepalive a1 = true ->
    timers s' !! t2 = Some (d2, a2) -> is_keepalive a2 = true ->
    t1 = t2 /\ _pingTimeoutHandle s' = Some t1.
Proof.
  intros Hkp s' t1 t2 d1 d2 a1 a2 H1 Hk1 H2 Hk2.
  assert (Hkp' : keepalive_inv s').
  { by apply (respects_exec keeps_keepalive keeps_keepalive_refl
                keeps_keepalive_trans ts kp_run s). }
  destruct Hkp' as [Hh _].
  pose proof (Hh _ _ _ H1 Hk1) as E1. pose proof (Hh _ _ _ H2 Hk2) as E2.
  split; [congruence|done].
Qed.

Lemma at_most_one_keepalive_timer_witness :
  let s := constructor false ["a"] default_options (Some ThisSocket) (1 # 2) in
  let s' := exec [(TBoot, 0%Q); (TOpen 0, 0%Q);
                  (TMessage 0 (NotJson "x") false, 0%Q); (TBoot, 0%Q)] s in
  timers s' !! 3 = Some (5000%Z, AConnClose 1)
  /\ _pingTimeoutHandle s' = Some 3.
Proof.
  intros s s'.
  assert (H3 : timers s' !! 3 = Some (5000%Z, AConnClose 1)) by (by vm_compute).
  split; [exact H3|].
  assert (Hinv : keepalive_inv s) by (by split).
  exact (proj2 (at_most_one_keepalive_timer s _ Hinv 3 3 _ _ _ _ H3 eq_refl H3 eq_refl)).
Defined.

(** ** wrapDOM *)

Section WrapDOMFacts.

Import WrapDOM.
Local Open Scope nat_scope.

Lemma removeEventListener_absent (type : string) (cb : callback) (s : socket) :
  (type, cb) ∉ registered s -> removeEventListener type cb s = s.
Proof.
  intros Hn. unfold removeEventListener. destruct s as [reg nx cl]. cbn in *.
  f_equal. induction reg as [|x reg IH]; [done|].
  rewrite filter_cons. apply not_elem_of_cons in Hn as [Hx Hn].
  rewrite decide_True by done. f_equal. by apply IH.
Qed.

Lemma invoke_registered (s : socket) (ty : string) (cb : callback)
    (ev : dom_event) :
  well_formed s -> (ty, cb) ∈ registered s ->
  invoke cb ev s =
    Socket (registered s) (next_closure s) (called s ++ [reaches cb ev]).
Proof.
  intros Hwf Hin. destruct cb as [n e l|k e w]; [done|].
  destruct (Hwf _ _ Hin) as [_ Hw].
  destruct (Hw k e w eq_refl) as ((n & l & ->) & _ & Hfresh).
  cbn. apply removeEventListener_absent. cbn.
  intros Hin'. by apply (Hfresh _ _ Hin').
Qed.

Lemma dispatch_all (l : list callback) (ev : dom_event) : forall s : socket,
  well_formed s ->
  (forall cb, cb ∈ l -> exists ty, (ty, cb) ∈ registered s) ->
  foldl (fun s cb => invoke cb ev s) s l =
    Socket (registered s) (next_closure s)
      (called s ++ map (fun cb => reaches cb ev) l).
Proof.
  induction l as [|cb l IH]; intros s Hwf Hl.
  - cbn. rewrite app_nil_r. by destruct s.
  - cbn [foldl map]. destruct (Hl cb) as [ty Hin]; [by left|].
    rewrite (invoke_registered s ty cb ev Hwf Hin).
    rewrite IH; cbn.
    + by rewrite <- app_assoc.
    + exact Hwf.
    + intros cb' Hcb'. apply Hl. by right.
Qed.

Lemma dispatch_eq (ev : dom_event) (s : socket) :
  well_formed s ->
  dispatch ev s =
    Socket (registered s) (next_closure s)
      (called s ++ map (fun cb => reaches cb ev) (listening ev s)).
Proof.
  intros Hwf. apply dispatch_all; [done|].
  intros cb Hcb. unfold listening in Hcb.
  apply list_elem_of_fmap in Hcb as ([ty cb'] & -> & Hin).
  apply list_elem_of_filter in Hin as [_ Hin]. by exists ty.
Qed.

Lemma once_registers (event : string) (listener : nat) (s : socket) :
  well_formed s ->
  let arrow := OnceArrow (S (next_closure s)) event
                 (Wrapped (next_closure s) event listener) in
  once event listener s =
    Socket (registered s ++ [(event, arrow)]) (S (S (next_closure s))) (called s)
  /\ well_formed (once event listener s).
Proof.
  intros Hwf arrow.
  assert (Hnew : (event, arrow) ∉ registered s).
  { intros Hin. destruct (Hwf _ _ Hin) as [Hlt _]. cbn in Hlt. lia. }
  assert (Heq : once event listener s =
    Socket (registered s ++ [(event, arrow)]) (S (S (next_closure s))) (called s)).
  { unfold once, addEventListener. cbn. by rewrite decide_False. }
  split; [done|]. rewrite Heq. intros ty cb Hin. cbn in Hin |- *.
  apply elem_of_app in Hin as [Hin|Hin].
  - destruct (Hwf _ _ Hin) as [Hlt Hw]. split; [lia|].
    intros k e w ->. destruct (Hw k e w eq_refl) as (Hx & Hlt' & Hfresh).
    split; [done|]. split; [lia|].
    intros ty' cb' [Hin'|Hin']%elem_of_app; [eauto|].
    apply list_elem_of_singleton in Hin'. injection Hin' as -> ->. cbn. lia.
  - apply list_elem_of_singleton in Hin. injection Hin as -> ->. cbn.
    split; [lia|]. intros k e w [= <- <- <-]. split; [by eauto|].
    cbn. split; [lia|].
    intros ty' cb' [Hin'|Hin']%elem_of_app.
    + destruct (Hwf _ _ Hin') as [Hlt _]. lia.
    + apply list_elem_of_singleton in Hin'. injection Hin' as -> ->. cbn. lia.
Qed.

(** X16. A listener added with once on a wrapped DOM socket is not removed
    when it is called: the arrow function that was registered asks for the
    removal of the inner wrapped handler, which was never registered.  So
    after an event of that type the list of registered listeners is
    unchanged, and a second event calls the listener again.  The listener
    receives ev.data for message events and the event itself otherwise. *)
Theorem once_listener_stays_registered (s : socket) (event : string)
    (listener : nat) (ev : dom_event) :
  well_formed s ->
  ev_type ev = event ->
  let s1 := once event listener s in
  let s2 := dispatch ev s1 in
  let heard := map (fun cb => reaches cb ev) (listening ev s1) in
  registered s2 = registered s1
  /\ (listener, passed event ev) ∈ heard
  /\ called s2 = (called s ++ heard)%list
  /\ called (dispatch ev s2) = (called s ++ heard ++ heard)%list.
Proof.
  intros Hwf Hty s1 s2 heard.
  destruct (once_registers event listener s Hwf) as [Heq Hwf1].
  fold s1 in Heq, Hwf1.
  assert (H2 : s2 = Socket (registered s1) (next_closure s1) (called s1 ++ heard)).
  { by apply dispatch_eq. }
  assert (Hwf2 : well_formed s2).
  { rewrite H2. exact Hwf1. }
  assert (Hc1 : called s1 = called s) by (by rewrite Heq).
  split; [by rewrite H2|]. split; [|split].
  - subst heard. apply list_elem_of_fmap.
    exists (OnceArrow (S (next_closure s)) event
              (Wrapped (next_closure s) event listener)).
    split; [done|]. unfold listening. apply list_elem_of_fmap.
    exists (event, OnceArrow (S (next_closure s)) event
                     (Wrapped (next_closure s) event listener)).
    split; [done|]. apply list_elem_of_filter. split; [done|].
    rewrite Heq. cbn. apply elem_of_app. right. by apply list_elem_of_singleton.
  - by rewrite H2, <- Hc1.
  - rewrite (dispatch_eq ev s2 Hwf2). cbn.
    assert (listening ev s2 = listening ev s1) as ->.
    { unfold listening. by rewrite H2. }
    rewrite H2. cbn. fold heard. by rewrite Hc1, <- app_assoc.
Qed.

Lemma once_listener_stays_registered_witness :
  let ev := DomEvent "message" (str "hello") in
  let s1 := once "message" 7 fresh_socket in
  called (dispatch ev (dispatch ev s1)) =
    [(7, ArgData (str "hello")); (7, ArgData (str "hello"))].
Proof.
  intros ev s1.
  assert (Hwf : well_formed fresh_socket).
  { intros ty cb Hin. by apply elem_of_nil in Hin. }
  destruct (once_listener_stays_registered fresh_socket "message" 7 ev Hwf eq_refl)
    as (_ & _ & _ & H).
  exact H.
Defined.

End WrapDOMFacts.

(** ** Sending without a transport *)

(** X17. A call that send would transmit at once (forced, or status
    CONNECTED) while there is no transport throws a TypeError out of call:
    nothing is sent, spooled or emitted, but the call id is used up and
    its reply handler stays registered. *)
Theorem call_without_transport_throws (s : BeamSocket) (method : string)
    (args : list any) (opts : call_options) (k : cont) :
  ws s = None ->
  status s = CONNECTED \/ o_force opts = true ->
  exists s',
    call method args opts k s =
      Throw (TypeError "Cannot read property 'send' of null") s'
    /\ _callNo s' = S (_callNo s)
    /\ _replies s' !! _callNo s = Some (MkReply (_callNo s))
    /\ trace s' = trace s /\ _spool s' = _spool s /\ jobs s' = jobs s
    /\ timers s' = timers s.
Proof.
  intros Hw Hon. unfold call, send, isConnected. run_cbn.
  assert (bool_decide (status s = CONNECTED) || o_force opts = true) as ->.
  { destruct Hon as [->| ->]; [done|by rewrite orb_true_r]. }
  run_cbn. rewrite Hw. run_cbn.
  eexists. split; [reflexivity|]. run_cbn.
  repeat split; try done. by rewrite lookup_insert_eq.
Qed.

Lemma call_without_transport_throws_witness :
  let s := constructor false ["a"] default_options None (1 # 2) in
  exists s',
    call "whisper" [str "hi"] (CallOptions false None true) KUser s =
      Throw (TypeError "Cannot read property 'send' of null") s'
    /\ _callNo s' = 1.
Proof.
  intros s.
  destruct (call_without_transport_throws s "whisper" [str "hi"]
              (CallOptions false None true) KUser eq_refl (or_intror eq_refl))
    as (s' & H1 & H2 & _).
  exists s'. split; [exact H1|exact H2].
Defined.
